(** * The Daedalus app catalog script ([update-catalog.py])

    A shallow embedding of [skills/daedalus-miniapp/scripts/update-catalog.py]
    and the properties of its catalog operations.

    The script keeps one JSON document, [catalog.json], in a MinIO bucket and
    offers three commands: [add] (insert or update an entry), [remove] and
    [list].  Every command reads the document with [load_catalog]; [add] and
    [remove] write it back with [save_catalog].

    Layout of the development:
    - Python text: [str] as a list of code points, [bytes] as a list of bytes,
      the UTF-8 codec between them;
    - Python values as [json.loads] yields them, with the few builtins the
      script applies to them (subscript, [len], iteration, [.get], [.append],
      truth value, [sorted], formatting);
    - the [json] module: [json.dumps(_, indent=2)] and [json.loads];
    - the world the script runs in (object store, clock, standard output) and
      a state-and-exception monad over it;
    - the script's functions, one definition per [def];
    - the properties. *)

From Stdlib Require Import ZArith NArith Lia List Strings.Byte String Sorting.Sorted.
From Stdlib Require Import DecimalZ DecimalPos Decimal.
From stdpp Require Import base option list gmap strings.

Set Warnings "-register-all".
Local Open Scope N_scope.

(** ** Python text *)

(** A Python [str] is a sequence of Unicode code points; lone surrogates are
    legal members of a [str] (although no UTF-8 text decodes to one). *)
Abbreviation pystr := (list N).

(** [bytes]. *)
Abbreviation pybytes := (list byte).

Definition is_high_surrogate (c : N) : bool := (55296 <=? c) && (c <=? 56319).
Definition is_low_surrogate (c : N) : bool := (56320 <=? c) && (c <=? 57343).
Definition is_surrogate (c : N) : bool := (55296 <=? c) && (c <=? 57343).

(** Continuation byte [10xxxxxx]. *)
Definition is_cont (b : N) : bool := (128 <=? b) && (b <? 192).

(** [bytes.decode('utf-8')] on the byte values: strict, so overlong forms,
    encoded surrogates, values above U+10FFFF and truncated sequences are
    errors ([None] stands for [UnicodeDecodeError]). *)
Fixpoint utf8_decode_N (bs : list N) : option (list N) :=
  match bs with
  | [] => Some []
  | b0 :: r0 =>
    if b0 <? 128 then cons b0 <$> utf8_decode_N r0
    else if b0 <? 194 then None
    else if b0 <? 224 then
      match r0 with
      | b1 :: r1 =>
        if is_cont b1
        then cons ((b0 - 192) * 64 + (b1 - 128)) <$> utf8_decode_N r1
        else None
      | _ => None
      end
    else if b0 <? 240 then
      match r0 with
      | b1 :: b2 :: r2 =>
        let c := (b0 - 224) * 4096 + (b1 - 128) * 64 + (b2 - 128) in
        if is_cont b1 && is_cont b2 && (2048 <=? c) && negb (is_surrogate c)
        then cons c <$> utf8_decode_N r2
        else None
      | _ => None
      end
    else if b0 <? 245 then
      match r0 with
      | b1 :: b2 :: b3 :: r3 =>
        let c := (b0 - 240) * 262144 + (b1 - 128) * 4096
                 + (b2 - 128) * 64 + (b3 - 128) in
        if is_cont b1 && is_cont b2 && is_cont b3
           && (65536 <=? c) && (c <=? 1114111)
        then cons c <$> utf8_decode_N r3
        else None
      | _ => None
      end
    else None
  end.

Definition utf8_decode (bs : pybytes) : option pystr :=
  utf8_decode_N (map Byte.to_N bs).

(** [str.encode('utf-8')] of one code point; a surrogate cannot be encoded
    ([None] stands for [UnicodeEncodeError]). *)
Definition utf8_encode_cp (c : N) : option (list N) :=
  if c <? 128 then Some [c]
  else if c <? 2048 then Some [192 + c / 64; 128 + c mod 64]
  else if is_surrogate c then None
  else if c <? 65536 then
    Some [224 + c / 4096; 128 + (c / 64) mod 64; 128 + c mod 64]
  else if c <=? 1114111 then
    Some [240 + c / 262144; 128 + (c / 4096) mod 64;
          128 + (c / 64) mod 64; 128 + c mod 64]
  else None.

Fixpoint utf8_encode (s : pystr) : option pybytes :=
  match s with
  | [] => Some []
  | c :: s' =>
    bs ← utf8_encode_cp c;
    bs' ← mapM Byte.of_N bs;
    rest ← utf8_encode s';
    Some (bs' ++ rest)
  end.

(** A string literal of this file as a Python [str]: the UTF-8 reading of its
    bytes (so an emoji in a literal is one or two code points, as in the
    script's own source). *)
Definition py (s : string) : pystr :=
  default [] (utf8_decode (list_byte_of_string s)).

(** Python's [==] and [<] on [str]: code point by code point. *)
Definition str_eqb (a b : pystr) : bool := bool_decide (a = b).

Fixpoint str_ltb (a b : pystr) : bool :=
  match a, b with
  | _, [] => false
  | [], _ :: _ => true
  | x :: a', y :: b' => (x <? y) || ((x =? y) && str_ltb a' b')
  end.

Definition str_leb (a b : pystr) : bool := negb (str_ltb b a).

(** ** Python values *)

(** The values [json.loads] builds: [None], [bool], [int], [str], [list] and
    [dict].  A [dict] keeps its keys in insertion order and holds each key
    once; it is an association list read through [dict_get] and written
    through [dict_set].  Floats are left out: a document with a float literal
    is outside this development (see [json_loads]). *)
Inductive value : Type :=
  | VNone
  | VBool (b : bool)
  | VInt (z : Z)
  | VStr (s : pystr)
  | VList (l : list value)
  | VDict (d : list (pystr * value)).

(** The exceptions that occur.  All of them derive from [Exception], so the
    [except Exception] of [load_catalog] catches each one. *)
Inductive exn : Type :=
  | KeyError (k : value)
  | IndexError
  | TypeError
  | AttributeError
  | UnicodeDecodeError
  | UnicodeEncodeError
  | JSONDecodeError
  | S3Error (code : string)
  | ConnectionError (msg : string).

(** How a computation ends.  [Unmodelled]: the run reaches Python behaviour
    this development does not describe (floats, [repr] of containers, the
    ordering of lists); nothing is claimed about such a run, and it is not
    something an [except] clause can catch. *)
Inductive outcome (A : Type) : Type :=
  | Ret (a : A)
  | Raise (e : exn)
  | Unmodelled.
Arguments Ret {A} a.
Arguments Raise {A} e.
Arguments Unmodelled {A}.

Definition obind {A B} (o : outcome A) (k : A → outcome B) : outcome B :=
  match o with
  | Ret a => k a
  | Raise e => Raise e
  | Unmodelled => Unmodelled
  end.

(** *** dict *)

Fixpoint dict_get (d : list (pystr * value)) (k : pystr) : option value :=
  match d with
  | [] => None
  | (k', v) :: d' => if str_eqb k' k then Some v else dict_get d' k
  end.

(** [d[k] = v]: an existing key keeps its place, a new key goes last. *)
Fixpoint dict_set (d : list (pystr * value)) (k : pystr) (v : value)
  : list (pystr * value) :=
  match d with
  | [] => [(k, v)]
  | (k', v') :: d' =>
    if str_eqb k' k then (k', v) :: d' else (k', v') :: dict_set d' k v
  end.

(** [dict(pairs)]: later pairs overwrite earlier ones. *)
Definition dict_of_pairs (ps : list (pystr * value)) : list (pystr * value) :=
  fold_left (λ d kv, dict_set d kv.1 kv.2) ps [].

(** *** Builtins, as far as the script applies them *)

(** [v[k]] for a [str] subscript [k]. *)
Definition py_getitem (v : value) (k : pystr) : outcome value :=
  match v with
  | VDict d =>
    match dict_get d k with
    | Some x => Ret x
    | None => Raise (KeyError (VStr k))
    end
  | _ => Raise TypeError
  end.

(** [v[k] = x] for a [str] subscript [k]. *)
Definition py_setitem (v : value) (k : pystr) (x : value) : outcome value :=
  match v with
  | VDict d => Ret (VDict (dict_set d k x))
  | _ => Raise TypeError
  end.

(** [v[i]] for an index [i] that is not negative. *)
Definition py_getitem_idx (v : value) (i : nat) : outcome value :=
  match v with
  | VList l =>
    match l !! i with
    | Some x => Ret x
    | None => Raise IndexError
    end
  | VStr s =>
    match s !! i with
    | Some c => Ret (VStr [c])
    | None => Raise IndexError
    end
  | VDict _ => Raise (KeyError (VInt (Z.of_nat i)))
  | _ => Raise TypeError
  end.

(** [v[i] = x] for an index [i] that is not negative.  On a [dict] this
    would add an [int] key, which the [dict] of this development cannot hold;
    the script never gets there. *)
Definition py_setitem_idx (v : value) (i : nat) (x : value) : outcome value :=
  match v with
  | VList l =>
    if bool_decide (i < length l)%nat then Ret (VList (<[i:=x]> l))
    else Raise IndexError
  | VDict _ => Unmodelled
  | _ => Raise TypeError
  end.

(** [v.get(k, dflt)]: only a [dict] has the method. *)
Definition py_get (v : value) (k : pystr) (dflt : value) : outcome value :=
  match v with
  | VDict d => Ret (default dflt (dict_get d k))
  | _ => Raise AttributeError
  end.

(** The items that iterating [v] yields ([for], [enumerate], [sorted], a
    comprehension): a [str] yields its characters, a [dict] its keys. *)
Definition py_iter (v : value) : outcome (list value) :=
  match v with
  | VList l => Ret l
  | VStr s => Ret (map (λ c, VStr [c]) s)
  | VDict d => Ret (map (λ kv, VStr kv.1) d)
  | _ => Raise TypeError
  end.

(** [len(v)]. *)
Definition py_len (v : value) : outcome nat :=
  match v with
  | VList l => Ret (length l)
  | VStr s => Ret (length s)
  | VDict d => Ret (length d)
  | _ => Raise TypeError
  end.

(** Truth value ([if not v]). *)
Definition py_truth (v : value) : bool :=
  match v with
  | VNone => false
  | VBool b => b
  | VInt z => negb (z =? 0)%Z
  | VStr s => negb (bool_decide (s = []))
  | VList l => negb (bool_decide (length l = 0%nat))
  | VDict d => negb (bool_decide (length d = 0%nat))
  end.

(** [v.append(x)]: only a [list] has the method. *)
Definition py_append (v : value) (x : value) : outcome value :=
  match v with
  | VList l => Ret (VList (l ++ [x]))
  | _ => Raise AttributeError
  end.

(** [v == s] for a [str] [s]: no other kind of value equals a [str]. *)
Definition py_eq_str (v : value) (s : pystr) : bool :=
  match v with
  | VStr s' => str_eqb s' s
  | _ => false
  end.

(** ** The [json] module: [json.dumps(_, indent=2)] *)

(** One lower-case hexadecimal digit. *)
Definition hex_digit (d : N) : N := if d <? 10 then 48 + d else 87 + d.

(** ['{0:04x}'.format(c)] for [c < 0x10000]. *)
Definition hex4 (c : N) : pystr :=
  [hex_digit (c / 4096); hex_digit ((c / 256) mod 16);
   hex_digit ((c / 16) mod 16); hex_digit (c mod 16)].

(** The replacement of one character by [encode_basestring_ascii]
    ([ensure_ascii] is on by default): the quote, the backslash and everything
    outside [' '..'~'] are escaped, characters beyond the BMP as a surrogate
    pair. *)
Definition escape_cp (c : N) : pystr :=
  if c =? 34 then [92; 34]
  else if c =? 92 then [92; 92]
  else if c =? 10 then [92; 110]
  else if c =? 13 then [92; 114]
  else if c =? 9 then [92; 116]
  else if c =? 8 then [92; 98]
  else if c =? 12 then [92; 102]
  else if (32 <=? c) && (c <=? 126) then [c]
  else if c <? 65536 then 92 :: 117 :: hex4 c
  else
    let n := c - 65536 in
    let s1 := N.lor 55296 (N.land (N.shiftr n 10) 1023) in
    let s2 := N.lor 56320 (N.land n 1023) in
    (92 :: 117 :: hex4 s1) ++ (92 :: 117 :: hex4 s2).

Definition encode_str (s : pystr) : pystr :=
  34 :: concat (map escape_cp s) ++ [34].

Fixpoint uint_chars (u : Decimal.uint) : pystr :=
  match u with
  | Nil => []
  | D0 u => 48 :: uint_chars u
  | D1 u => 49 :: uint_chars u
  | D2 u => 50 :: uint_chars u
  | D3 u => 51 :: uint_chars u
  | D4 u => 52 :: uint_chars u
  | D5 u => 53 :: uint_chars u
  | D6 u => 54 :: uint_chars u
  | D7 u => 55 :: uint_chars u
  | D8 u => 56 :: uint_chars u
  | D9 u => 57 :: uint_chars u
  end.

(** [int.__repr__]: the decimal numeral, ['-'] first for a negative one. *)
Definition int_repr (z : Z) : pystr :=
  match Z.to_int z with
  | Pos u => uint_chars u
  | Neg u => 45 :: uint_chars u
  end.

(** A line break followed by the indentation of [level]. *)
Definition newline_indent (indent level : nat) : pystr :=
  10 :: repeat 32 (indent * level)%nat.

(** The encoder with an [indent]: containers are broken over lines, one item
    per line, items separated by [","] and a key from its value by [": "];
    an empty container is [[]] or [{}]. *)
Fixpoint dumps_at (indent level : nat) (v : value) {struct v} : pystr :=
  match v with
  | VNone => [110; 117; 108; 108]
  | VBool true => [116; 114; 117; 101]
  | VBool false => [102; 97; 108; 115; 101]
  | VInt z => int_repr z
  | VStr s => encode_str s
  | VList [] => [91; 93]
  | VList (x :: xs) =>
    91 :: newline_indent indent (S level)
      ++ dumps_at indent (S level) x
      ++ concat (map (λ y, 44 :: newline_indent indent (S level)
                             ++ dumps_at indent (S level) y) xs)
      ++ newline_indent indent level ++ [93]
  | VDict [] => [123; 125]
  | VDict ((k, x) :: kxs) =>
    123 :: newline_indent indent (S level)
      ++ (encode_str k ++ 58 :: 32 :: dumps_at indent (S level) x)
      ++ concat (map (λ ky, 44 :: newline_indent indent (S level)
                              ++ encode_str ky.1 ++ 58 :: 32
                              :: dumps_at indent (S level) ky.2) kxs)
      ++ newline_indent indent level ++ [125]
  end.

(** [json.dumps(v, indent=n)]. *)
Definition json_dumps (indent : nat) (v : value) : pystr := dumps_at indent 0 v.

(** ** The [json] module: [json.loads] *)

(** The result of scanning a prefix of the text: the item read and the text
    that follows it; [PErr] is [JSONDecodeError]; [PFloat] reports a float
    literal ([1.5], [1e3], [NaN], [Infinity]), which [json.loads] would turn
    into a [float] and which this development leaves alone; [PFuel] is the
    recursion bound of the definitions below ([json_loads] passes enough,
    see [json_loads_fuel]). *)
Inductive pres (A : Type) : Type :=
  | POk (a : A) (rest : pystr)
  | PErr
  | PFloat
  | PFuel.
Arguments POk {A} a rest.
Arguments PErr {A}.
Arguments PFloat {A}.
Arguments PFuel {A}.

Definition pmap {A B} (f : A → B) (r : pres A) : pres B :=
  match r with
  | POk a rest => POk (f a) rest
  | PErr => PErr
  | PFloat => PFloat
  | PFuel => PFuel
  end.

(** JSON whitespace: space, tab, line feed, carriage return. *)
Definition is_ws (c : N) : bool :=
  (c =? 32) || (c =? 9) || (c =? 10) || (c =? 13).

Fixpoint skip_ws (s : pystr) : pystr :=
  match s with
  | c :: t => if is_ws c then skip_ws t else s
  | [] => []
  end.

Definition is_digit (c : N) : bool := (48 <=? c) && (c <=? 57).

(** The value of one hexadecimal digit, either case. *)
Definition hex_val (c : N) : option N :=
  if is_digit c then Some (c - 48)
  else if (97 <=? c) && (c <=? 102) then Some (c - 87)
  else if (65 <=? c) && (c <=? 70) then Some (c - 55)
  else None.

Definition hex4_val (a b c d : N) : option N :=
  x ← hex_val a; y ← hex_val b; z ← hex_val c; w ← hex_val d;
  Some (((x * 16 + y) * 16 + z) * 16 + w).

(** The code point of a surrogate pair. *)
Definition join_surrogates (hi lo : N) : N :=
  65536 + N.lor (N.shiftl (hi - 55296) 10) (lo - 56320).

(** [scanstring] in strict mode, from just after the opening quote.  A
    backslash-u escape of a high surrogate directly followed by one of a low
    surrogate reads as the single character of the pair. *)
Fixpoint scan_string (s : pystr) : pres pystr :=
  match s with
  | [] => PErr
  | c :: t =>
    if c =? 34 then POk [] t
    else if c =? 92 then
      match t with
      | [] => PErr
      | e :: t1 =>
        if e =? 117 then
          match t1 with
          | h1 :: h2 :: h3 :: h4 :: t2 =>
            match hex4_val h1 h2 h3 h4 with
            | None => PErr
            | Some uni =>
              if is_high_surrogate uni then
                match t2 with
                | a :: b :: g1 :: g2 :: g3 :: g4 :: t3 =>
                  if (a =? 92) && (b =? 117) then
                    match hex4_val g1 g2 g3 g4 with
                    | None => PErr
                    | Some uni2 =>
                      if is_low_surrogate uni2
                      then pmap (cons (join_surrogates uni uni2)) (scan_string t3)
                      else pmap (cons uni) (scan_string t2)
                    end
                  else pmap (cons uni) (scan_string t2)
                | _ => pmap (cons uni) (scan_string t2)
                end
              else pmap (cons uni) (scan_string t2)
            end
          | _ => PErr
          end
        else if e =? 34 then pmap (cons 34) (scan_string t1)
        else if e =? 92 then pmap (cons 92) (scan_string t1)
        else if e =? 47 then pmap (cons 47) (scan_string t1)
        else if e =? 98 then pmap (cons 8) (scan_string t1)
        else if e =? 102 then pmap (cons 12) (scan_string t1)
        else if e =? 110 then pmap (cons 10) (scan_string t1)
        else if e =? 114 then pmap (cons 13) (scan_string t1)
        else if e =? 116 then pmap (cons 9) (scan_string t1)
        else PErr
      end
    else if c <? 32 then PErr
    else pmap (cons c) (scan_string t)
  end.

(** The longest prefix of decimal digits, as a numeral, and what follows. *)
Fixpoint take_digits (s : pystr) : Decimal.uint * pystr :=
  match s with
  | c :: t =>
    if is_digit c then
      let '(u, r) := take_digits t in
      ((if c =? 48 then D0 u else if c =? 49 then D1 u
        else if c =? 50 then D2 u else if c =? 51 then D3 u
        else if c =? 52 then D4 u else if c =? 53 then D5 u
        else if c =? 54 then D6 u else if c =? 55 then D7 u
        else if c =? 56 then D8 u else D9 u), r)
    else (Nil, s)
  | [] => (Nil, [])
  end.

Definition starts_with_digit (s : pystr) : bool :=
  match s with
  | c :: _ => is_digit c
  | [] => false
  end.

(** Does a fraction (a dot and a digit) or an exponent (e or E, an optional
    sign, a digit) follow the integer part? *)
Definition float_tail (s : pystr) : bool :=
  match s with
  | c :: t =>
    if c =? 46 then starts_with_digit t
    else if (c =? 101) || (c =? 69) then
      match t with
      | sg :: t' =>
        if (sg =? 43) || (sg =? 45) then starts_with_digit t'
        else is_digit sg
      | [] => false
      end
    else false
  | [] => false
  end.

(** The number pattern: an optional minus sign, then either a single zero or
    a non-zero digit and more digits, then the optional fraction and exponent;
    an integer literal becomes an [int]. *)
Definition scan_number (s : pystr) : pres value :=
  let '(neg, s1) :=
    match s with
    | c :: t => if c =? 45 then (true, t) else (false, s)
    | [] => (false, s)
    end in
  match s1 with
  | d :: t =>
    if is_digit d then
      let '(u, r) := if d =? 48 then (D0 Nil, t) else take_digits s1 in
      if float_tail r then PFloat
      else POk (VInt (if neg then - Z.of_uint u else Z.of_uint u)%Z) r
    else PErr
  | [] => PErr
  end.

(** [s] without the prefix [p], when it starts with it. *)
Fixpoint strip_prefix (p s : pystr) : option pystr :=
  match p, s with
  | [], _ => Some s
  | x :: p', y :: s' => if x =? y then strip_prefix p' s' else None
  | _ :: _, [] => None
  end.

(** The scanner: one JSON value at the head of [s] (no leading whitespace).
    [parse_elems] reads the items of an array from its first item up to and
    including the closing bracket, [parse_members] the members of an object
    from its first key up to and including the closing brace. *)
Fixpoint parse_value (fuel : nat) (s : pystr) {struct fuel} : pres value :=
  match fuel with
  | O => PFuel
  | S f =>
    match s with
    | [] => PErr
    | c :: t =>
      if c =? 34 then pmap VStr (scan_string t)
      else if c =? 123 then
        match skip_ws t with
        | c1 :: t1 =>
          if c1 =? 125 then POk (VDict []) t1
          else pmap (λ ps, VDict (dict_of_pairs ps)) (parse_members f (c1 :: t1))
        | [] => PErr
        end
      else if c =? 91 then
        match skip_ws t with
        | c1 :: t1 =>
          if c1 =? 93 then POk (VList []) t1
          else pmap VList (parse_elems f (c1 :: t1))
        | [] => PErr
        end
      else if c =? 110 then
        match strip_prefix [117; 108; 108] t with
        | Some r => POk VNone r
        | None => PErr
        end
      else if c =? 116 then
        match strip_prefix [114; 117; 101] t with
        | Some r => POk (VBool true) r
        | None => PErr
        end
      else if c =? 102 then
        match strip_prefix [97; 108; 115; 101] t with
        | Some r => POk (VBool false) r
        | None => PErr
        end
      else if c =? 78 then
        match strip_prefix [97; 78] t with
        | Some _ => PFloat
        | None => PErr
        end
      else if c =? 73 then
        match strip_prefix [110; 102; 105; 110; 105; 116; 121] t with
        | Some _ => PFloat
        | None => PErr
        end
      else if (c =? 45)
              && bool_decide (is_Some (strip_prefix
                                [73; 110; 102; 105; 110; 105; 116; 121] t))
      then PFloat
      else scan_number s
    end
  end
with parse_elems (fuel : nat) (s : pystr) {struct fuel} : pres (list value) :=
  match fuel with
  | O => PFuel
  | S f =>
    match parse_value f s with
    | POk v r =>
      match skip_ws r with
      | c :: t =>
        if c =? 44 then pmap (cons v) (parse_elems f (skip_ws t))
        else if c =? 93 then POk [v] t
        else PErr
      | [] => PErr
      end
    | PErr => PErr
    | PFloat => PFloat
    | PFuel => PFuel
    end
  end
with parse_members (fuel : nat) (s : pystr) {struct fuel}
  : pres (list (pystr * value)) :=
  match fuel with
  | O => PFuel
  | S f =>
    match s with
    | [] => PErr
    | q :: t =>
      if q =? 34 then
        match scan_string t with
        | POk k r =>
          match skip_ws r with
          | c :: t1 =>
            if c =? 58 then
              match parse_value f (skip_ws t1) with
              | POk v r1 =>
                match skip_ws r1 with
                | c1 :: t2 =>
                  if c1 =? 44 then
                    pmap (cons (k, v)) (parse_members f (skip_ws t2))
                  else if c1 =? 125 then POk [(k, v)] t2
                  else PErr
                | [] => PErr
                end
              | PErr => PErr
              | PFloat => PFloat
              | PFuel => PFuel
              end
            else PErr
          | [] => PErr
          end
        | PErr => PErr
        | PFloat => PFloat
        | PFuel => PFuel
        end
      else PErr
    end
  end.

(** [json.loads(s)]: whitespace, one value, whitespace, end of text.
    Trailing text is an error.  A document with a float literal is
    [Unmodelled].  The recursion bound is never reached on decoded text
    ([json_loads_fuel]).  The limits of the interpreter (recursion depth, the
    number of digits of an [int]) are not described. *)
Definition json_loads (s : pystr) : outcome value :=
  match parse_value (S (2 * length s)) (skip_ws s) with
  | POk v r =>
    match skip_ws r with
    | [] => Ret v
    | _ :: _ => Raise JSONDecodeError
    end
  | PErr => Raise JSONDecodeError
  | PFloat => Unmodelled
  | PFuel => Unmodelled
  end.

(** ** Sorting and formatting *)

(** [sorted] is stable: among items with equal keys the one that came first
    stays first.  [insert_by] puts [x], which came before every item of the
    sorted [l], in front of the first item whose key is not smaller. *)
Fixpoint insert_by {K} (ltb : K → K → bool) (x : K * value)
  (l : list (K * value)) : list (K * value) :=
  match l with
  | [] => [x]
  | y :: l' => if ltb y.1 x.1 then y :: insert_by ltb x l' else x :: y :: l'
  end.

Definition sort_by {K} (ltb : K → K → bool) (l : list (K * value))
  : list (K * value) :=
  foldr (insert_by ltb) [] l.

(** The key as a [str], when it is one. *)
Definition key_str (k : value) : option pystr :=
  match k with
  | VStr s => Some s
  | _ => None
  end.

(** The key as a number, when it is one ([bool] is a subclass of [int]). *)
Definition key_num (k : value) : option Z :=
  match k with
  | VInt z => Some z
  | VBool b => Some (if b then 1 else 0)%Z
  | _ => None
  end.

Definition is_list (k : value) : bool :=
  match k with
  | VList _ => true
  | _ => false
  end.

(** [sorted(items, key=...)] once the keys are computed: [kxs] pairs each key
    with its item.  With fewer than two items nothing is compared.  Keys that
    are all [str], or all numbers, are ordered by [<].  Keys of kinds that
    [<] does not relate ([None], [dict], a [str] against a number, ...) make
    some comparison raise [TypeError], whichever comparisons the sort makes.
    The ordering of [list] keys is not described here. *)
Definition sorted_with_keys (kxs : list (value * value)) : outcome (list value) :=
  if bool_decide (length kxs ≤ 1)%nat then Ret (map snd kxs)
  else
    match mapM (λ kx, k ← key_str kx.1; Some (k, kx.2)) kxs with
    | Some sxs => Ret (map snd (sort_by str_ltb sxs))
    | None =>
      match mapM (λ kx, k ← key_num kx.1; Some (k, kx.2)) kxs with
      | Some nxs => Ret (map snd (sort_by Z.ltb nxs))
      | None =>
        if forallb (λ kx, is_list kx.1) kxs then Unmodelled
        else Raise TypeError
      end
    end.

(** The keys of [sorted(_, key=f)] are computed first, item by item. *)
Fixpoint with_keys (f : value → outcome value) (items : list value)
  : outcome (list (value * value)) :=
  match items with
  | [] => Ret []
  | x :: items' =>
    obind (f x) (λ k,
    obind (with_keys f items') (λ kxs, Ret ((k, x) :: kxs)))
  end.

Definition py_sorted (f : value → outcome value) (v : value)
  : outcome (list value) :=
  obind (py_iter v) (λ items,
  obind (with_keys f items) sorted_with_keys).

(** [s.ljust(width)], which is what the format [<width] does to text. *)
Definition ljust (s : pystr) (width : nat) : pystr :=
  s ++ repeat 32 (width - length s)%nat.

(** [format(v, '<width')], as in an f-string field [{v:<width}].  A [bool]
    takes [int.__format__] and shows as [1] or [0]; [None], [list] and [dict]
    accept no format specification. *)
Definition format_left (v : value) (width : nat) : outcome pystr :=
  match v with
  | VStr s => Ret (ljust s width)
  | VInt z => Ret (ljust (int_repr z) width)
  | VBool b => Ret (ljust (if b then [49] else [48]) width)
  | _ => Raise TypeError
  end.

(** [str(v)], as in an f-string field [{v}].  The [repr] of containers is not
    described here. *)
Definition py_str (v : value) : outcome pystr :=
  match v with
  | VStr s => Ret s
  | VInt z => Ret (int_repr z)
  | VBool b => Ret (if b then py "True" else py "False")
  | VNone => Ret (py "None")
  | _ => Unmodelled
  end.

(** [str(n)] for a length. *)
Definition nat_str (n : nat) : pystr := int_repr (Z.of_nat n).

(** ** The world of a run *)

(** An object of the store. *)
Record s3object : Type := S3Object {
  o_data : pybytes;
  o_content_type : pystr }.

(** One call of [put_object], as the client received it. *)
Record put_call : Type := PutCall {
  pc_bucket : pystr;
  pc_key : pystr;
  pc_data : pybytes;
  pc_length : nat;
  pc_content_type : pystr }.

(** What the script can observe and change:
    - [w_store]: the objects of the MinIO server, by bucket and key;
    - [w_faults]: what happens to the coming client calls, in order: [None]
      lets the call through to the store, [Some e] makes it raise [e] (the
      network is down, access is denied, ...); once the list is used up every
      call goes through;
    - [w_clock], [w_ticks]: the readings of the UTC clock, as ISO-8601 text,
      and how many were taken;
    - [w_stdout]: the lines printed so far;
    - [w_puts]: the calls of [put_object] so far. *)
Record world : Type := World {
  w_store : gmap (pystr * pystr) s3object;
  w_faults : list (option exn);
  w_clock : nat → pystr;
  w_ticks : nat;
  w_stdout : list pystr;
  w_puts : list put_call }.

(** Computations of the script: they read and change the world and end in an
    [outcome]. *)
Definition M (A : Type) : Type := world → outcome A * world.

Definition ret {A} (a : A) : M A := λ w, (Ret a, w).

Definition bind {A B} (m : M A) (k : A → M B) : M B :=
  λ w, match m w with
       | (Ret a, w') => k a w'
       | (Raise e, w') => (Raise e, w')
       | (Unmodelled, w') => (Unmodelled, w')
       end.

Notation "'let!' x ':=' m 'in' k" := (bind m (λ x, k))
  (at level 10, x name, m at level 100, k at level 200, only parsing).
Notation "'run!' m 'in' k" := (bind m (λ _, k))
  (at level 10, m at level 100, k at level 200, only parsing).

(** A computation that does not touch the world. *)
Definition lift {A} (o : outcome A) : M A := λ w, (o, w).

(** [try: m except Exception: h]. *)
Definition try_except {A} (m : M A) (h : exn → M A) : M A :=
  λ w, match m w with
       | (Raise e, w') => h e w'
       | r => r
       end.

(** [print(line)] on an output that takes the line.  An output that refuses
    a line (its encoding has no bytes for a character of the line, its pipe
    is broken) makes [print] raise: that is [print_on], further down, with the
    operations that print to such an output, [add_app_on] and
    [remove_app_on]. *)
Definition print (line : pystr) : M unit :=
  λ w, (Ret tt, World (w_store w) (w_faults w) (w_clock w) (w_ticks w)
                      (w_stdout w ++ [line]) (w_puts w)).

(** [datetime.now(timezone.utc).isoformat()]: one reading of the clock. *)
Definition now_isoformat : M pystr :=
  λ w, (Ret (w_clock w (w_ticks w)),
        World (w_store w) (w_faults w) (w_clock w) (S (w_ticks w))
              (w_stdout w) (w_puts w)).

(** The fate of the coming client call. *)
Definition next_fault (w : world) : option exn * list (option exn) :=
  match w_faults w with
  | [] => (None, [])
  | f :: fs => (f, fs)
  end.

(** [client.get_object(bucket, key)] followed by [response.read()]: the
    bytes of the object; a missing object is an [S3Error]. *)
Definition get_object (bucket key : pystr) : M pybytes :=
  λ w, let '(f, fs) := next_fault w in
       let w' := World (w_store w) fs (w_clock w) (w_ticks w)
                       (w_stdout w) (w_puts w) in
       match f with
       | Some e => (Raise e, w')
       | None =>
         match w_store w !! (bucket, key) with
         | Some o => (Ret (o_data o), w')
         | None => (Raise (S3Error "NoSuchKey"), w')
         end
       end.

(** [client.put_object(bucket, key, BytesIO(data), length=..,
    content_type=..)]: the client sends [length] bytes of the stream; the
    object replaces whatever the key held. *)
Definition put_object (bucket key : pystr) (data : pybytes) (len : nat)
  (content_type : pystr) : M unit :=
  λ w, let '(f, fs) := next_fault w in
       let puts := w_puts w ++ [PutCall bucket key data len content_type] in
       match f with
       | Some e =>
         (Raise e, World (w_store w) fs (w_clock w) (w_ticks w)
                         (w_stdout w) puts)
       | None =>
         (Ret tt,
          World (<[(bucket, key) := S3Object (take len data) content_type]>
                   (w_store w))
                fs (w_clock w) (w_ticks w) (w_stdout w) puts)
       end.

(** ** The script *)

Definition MINIO_BUCKET : pystr := py "daedalus".
Definition CATALOG_FILE : pystr := py "catalog.json".

(** The keys of the document. *)
Definition k_apps : pystr := py "apps".
Definition k_id : pystr := py "id".
Definition k_name : pystr := py "name".
Definition k_icon : pystr := py "icon".
Definition k_description : pystr := py "description".
Definition k_path : pystr := py "path".
Definition k_featured : pystr := py "featured".
Definition k_created_at : pystr := py "created_at".
Definition k_updated_at : pystr := py "updated_at".

(** [{"apps": []}]. *)
Definition empty_catalog : value := VDict [(k_apps, VList [])].

(** [response.read().decode('utf-8')]. *)
Definition decode_utf8 (bs : pybytes) : outcome pystr :=
  match utf8_decode bs with
  | Some s => Ret s
  | None => Raise UnicodeDecodeError
  end.

(** [text.encode('utf-8')]. *)
Definition encode_utf8 (s : pystr) : outcome pybytes :=
  match utf8_encode s with
  | Some bs => Ret bs
  | None => Raise UnicodeEncodeError
  end.

(** [def load_catalog(client)]: whatever goes wrong while fetching, decoding
    or parsing, the answer is then the empty catalog. *)
Definition load_catalog : M value :=
  try_except
    (let! body := get_object MINIO_BUCKET CATALOG_FILE in
     let! text := lift (decode_utf8 body) in
     lift (json_loads text))
    (λ _, ret empty_catalog).

(** [def save_catalog(client, catalog)]. *)
Definition save_catalog (catalog : value) : M unit :=
  let! data := lift (encode_utf8 (json_dumps 2 catalog)) in
  put_object MINIO_BUCKET CATALOG_FILE data (length data)
             (py "application/json").

(** The loop of [add_app] over [enumerate(catalog["apps"])]: the index of the
    first item whose ["id"] equals [app_id].  The subscript [app["id"]] raises
    on an item that has no such key or is no [dict]. *)
Fixpoint find_existing (items : list value) (app_id : pystr) (idx : nat)
  : outcome (option nat) :=
  match items with
  | [] => Ret None
  | app :: items' =>
    obind (py_getitem app k_id) (λ i,
      if py_eq_str i app_id then Ret (Some idx)
      else find_existing items' app_id (S idx))
  end.

(** The [dict] literal that [add_app] builds. *)
Definition new_entry (app_id name icon description path : pystr)
  (featured : bool) (created_at : pystr) : value :=
  VDict [(k_id, VStr app_id); (k_name, VStr name); (k_icon, VStr icon);
         (k_description, VStr description); (k_path, VStr path);
         (k_featured, VBool featured); (k_created_at, VStr created_at)].

(** [f"{action} app: {name} ({app_id})"]. *)
Definition add_message (action name app_id : pystr) : pystr :=
  action ++ py " app: " ++ name ++ py " (" ++ app_id ++ py ")".

(** [def add_app(client, app_id, name, icon, description, path, featured)].
    The command line passes text for the first five parameters and a flag for
    the last.  The list under ["apps"] is changed in place, and
    [catalog["apps"]] is that very list: the catalog that is saved is the one
    loaded, with the changed list under ["apps"]. *)
Definition add_app (app_id name icon description path : pystr)
  (featured : bool) : M value :=
  let! catalog := load_catalog in
  let! apps := lift (py_getitem catalog k_apps) in
  let! items := lift (py_iter apps) in
  let! existing_idx := lift (find_existing items app_id 0) in
  let! now := now_isoformat in
  let app_entry := new_entry app_id name icon description path featured now in
  let! r :=
    match existing_idx with
    | Some idx =>
      let! apps := lift (py_getitem catalog k_apps) in
      let! old := lift (py_getitem_idx apps idx) in
      let! created := lift (py_get old k_created_at (VStr now)) in
      let! app_entry := lift (py_setitem app_entry k_created_at created) in
      let! now2 := now_isoformat in
      let! app_entry := lift (py_setitem app_entry k_updated_at (VStr now2)) in
      let! apps := lift (py_getitem catalog k_apps) in
      let! apps := lift (py_setitem_idx apps idx app_entry) in
      let! catalog := lift (py_setitem catalog k_apps apps) in
      ret (catalog, py "Updated")
    | None =>
      let! apps := lift (py_getitem catalog k_apps) in
      let! apps := lift (py_append apps app_entry) in
      let! catalog := lift (py_setitem catalog k_apps apps) in
      ret (catalog, py "Added")
    end in
  run! save_catalog r.1 in
  run! print (add_message r.2 name app_id) in
  ret (VBool true).

(** The comprehension of [remove_app]:
    [[app for app in items if app["id"] != app_id]]. *)
Fixpoint keep_others (items : list value) (app_id : pystr)
  : outcome (list value) :=
  match items with
  | [] => Ret []
  | app :: items' =>
    obind (py_getitem app k_id) (λ i,
    obind (keep_others items' app_id) (λ kept,
      Ret (if py_eq_str i app_id then kept else app :: kept)))
  end.

(** [def remove_app(client, app_id)]. *)
Definition remove_app (app_id : pystr) : M value :=
  let! catalog := load_catalog in
  let! apps := lift (py_getitem catalog k_apps) in
  let! original_count := lift (py_len apps) in
  let! apps := lift (py_getitem catalog k_apps) in
  let! items := lift (py_iter apps) in
  let! kept := lift (keep_others items app_id) in
  let! catalog := lift (py_setitem catalog k_apps (VList kept)) in
  let! apps := lift (py_getitem catalog k_apps) in
  let! count := lift (py_len apps) in
  if (count <? original_count)%nat then
    run! save_catalog catalog in
    run! print (py "Removed app: " ++ app_id) in
    ret (VBool true)
  else
    run! print (py "App not found: " ++ app_id) in
    ret (VBool false).

(** The key of the listing: [lambda x: x.get("created_at", "")]. *)
Definition created_at_key (x : value) : outcome value :=
  py_get x k_created_at (VStr []).

(** One line of the table:
    [f"{app['id']:<20} {app.get('icon', '?'):<4} {app['name']:<25} {app['path']}"]. *)
Definition format_row (app : value) : outcome pystr :=
  obind (py_getitem app k_id) (λ i,
  obind (format_left i 20) (λ c1,
  obind (py_get app k_icon (VStr (py "?"))) (λ ic,
  obind (format_left ic 4) (λ c2,
  obind (py_getitem app k_name) (λ n,
  obind (format_left n 25) (λ c3,
  obind (py_getitem app k_path) (λ p,
  obind (py_str p) (λ c4,
    Ret (c1 ++ [32] ++ c2 ++ [32] ++ c3 ++ [32] ++ c4))))))))).

(** The body of the [for] loop of [list_apps], over the sorted items. *)
Fixpoint print_rows (apps : list value) : M unit :=
  match apps with
  | [] => ret tt
  | app :: apps' =>
    let! row := lift (format_row app) in
    run! print row in
    print_rows apps'
  end.

(** [f"\n{'ID':<20} {'Icon':<4} {'Name':<25} {'Path'}"]. *)
Definition table_header : pystr :=
  10 :: ljust (py "ID") 20 ++ [32] ++ ljust (py "Icon") 4 ++ [32]
     ++ ljust (py "Name") 25 ++ [32] ++ py "Path".

(** [def list_apps(client)]: it prints the table and returns [None]. *)
Definition list_apps : M value :=
  let! catalog := load_catalog in
  let! apps := lift (py_getitem catalog k_apps) in
  if negb (py_truth apps) then
    run! print (py "Catalog is empty") in
    ret VNone
  else
    run! print table_header in
    run! print (repeat 45 80) in
    let! apps := lift (py_getitem catalog k_apps) in
    let! rows := lift (py_sorted created_at_key apps) in
    run! print_rows rows in
    let! apps := lift (py_getitem catalog k_apps) in
    let! n := lift (py_len apps) in
    run! print (10 :: py "Total: " ++ nat_str n ++ py " apps") in
    ret VNone.

(** ** Shapes of the document *)

(** The items under ["apps"], when the catalog is an object that has a list
    there. *)
Definition catalog_apps (catalog : value) : option (list value) :=
  match catalog with
  | VDict d =>
    match dict_get d k_apps with
    | Some (VList apps) => Some apps
    | _ => None
    end
  | _ => None
  end.

(** A field of an entry. *)
Definition field (e : value) (k : pystr) : option value :=
  match e with
  | VDict d => dict_get d k
  | _ => None
  end.

(** The entry is an object with an ["id"]. *)
Definition has_id (e : value) : Prop :=
  ∃ d i, e = VDict d ∧ dict_get d k_id = Some i.

(** The entry's ["id"] is the text [app_id]. *)
Definition id_is (e : value) (app_id : pystr) : bool :=
  match field e k_id with
  | Some i => py_eq_str i app_id
  | None => false
  end.

(** The index of the first entry whose ["id"] is the text [app_id]. *)
Fixpoint index_of_id (apps : list value) (app_id : pystr) : option nat :=
  match apps with
  | [] => None
  | e :: apps' =>
    if id_is e app_id then Some 0%nat
    else S <$> index_of_id apps' app_id
  end.

(** The world after [n] more readings of the clock. *)
Definition tick (n : nat) (w : world) : world :=
  World (w_store w) (w_faults w) (w_clock w) (n + w_ticks w)
        (w_stdout w) (w_puts w).

(** The world after one more printed line. *)
Definition printed (line : pystr) (w : world) : world :=
  World (w_store w) (w_faults w) (w_clock w) (w_ticks w)
        (w_stdout w ++ [line]) (w_puts w).

(** The coming client call goes through to the store. *)
Definition call_succeeds (w : world) : Prop := (next_fault w).1 = None.

(** The content type that [save_catalog] declares. *)
Definition JSON_CONTENT_TYPE : pystr := py "application/json".

(** [w'] is [w] after one successful [put_object] of [catalog], serialized
    with a 2-space indent and encoded as UTF-8, under the catalog's bucket and
    key. *)
Definition saved (catalog : value) (w w' : world) : Prop :=
  ∃ data,
    utf8_encode (json_dumps 2 catalog) = Some data
    ∧ w' = World (<[(MINIO_BUCKET, CATALOG_FILE) :=
                     S3Object data JSON_CONTENT_TYPE]> (w_store w))
                 (next_fault w).2 (w_clock w) (w_ticks w) (w_stdout w)
                 (w_puts w ++ [PutCall MINIO_BUCKET CATALOG_FILE data
                                       (length data) JSON_CONTENT_TYPE]).

(** ** Properties of the text layer *)

Arguments py : simpl never.

Lemma value_ind' (P : value → Prop) :
  P VNone → (∀ b, P (VBool b)) → (∀ z, P (VInt z)) → (∀ s, P (VStr s)) →
  (∀ l, Forall P l → P (VList l)) →
  (∀ d, Forall (λ kv, P kv.2) d → P (VDict d)) →
  ∀ v, P v.
Proof.
  intros HN HB HI HS HL HD.
  fix IH 1. intros [ | b | z | s | l | d].
  - exact HN.
  - apply HB.
  - apply HI.
  - apply HS.
  - apply HL. induction l as [ | x l IHl]; constructor; [apply IH | exact IHl].
  - apply HD. induction d as [ | [k x] d IHd]; constructor; [apply IH | exact IHd].
Qed.

(** Text made of ASCII characters only. *)
Definition ascii_text (s : pystr) : Prop := Forall (λ c, c < 128) s.

Lemma ascii_text_app (a b : pystr) :
  ascii_text a → ascii_text b → ascii_text (a ++ b).
Proof. intros. by apply Forall_app. Qed.

Lemma ascii_text_cons (c : N) (s : pystr) :
  c < 128 → ascii_text s → ascii_text (c :: s).
Proof. intros. by constructor. Qed.

Lemma hex_digit_ascii (d : N) : d < 16 → hex_digit d < 128.
Proof. unfold hex_digit. intros. destruct (d <? 10); lia. Qed.

Lemma hex4_ascii (c : N) : c < 65536 → ascii_text (hex4 c).
Proof.
  intros Hc. unfold hex4.
  assert (c / 4096 < 16) by (apply N.Div0.div_lt_upper_bound; lia).
  repeat constructor; apply hex_digit_ascii; try apply N.mod_lt; lia.
Qed.

(** A check of all numbers below a bound, to settle bit identities on small
    ranges by evaluation. *)
Lemma N_forall_below (P : N → bool) (n : nat) :
  forallb P (map N.of_nat (seq 0 n)) = true →
  ∀ y, y < N.of_nat n → P y = true.
Proof.
  intros H y Hy. rewrite forallb_forall in H. apply H.
  apply in_map_iff. exists (N.to_nat y). split; [lia | ].
  apply in_seq. lia.
Qed.

Lemma lor_high_surrogate (y : N) : y < 1024 → N.lor 55296 y = 55296 + y.
Proof.
  intros Hy. apply N.eqb_eq.
  apply (N_forall_below (λ y, N.lor 55296 y =? 55296 + y) 1024);
    [vm_compute; reflexivity | lia].
Qed.

Lemma lor_low_surrogate (y : N) : y < 1024 → N.lor 56320 y = 56320 + y.
Proof.
  intros Hy. apply N.eqb_eq.
  apply (N_forall_below (λ y, N.lor 56320 y =? 56320 + y) 1024);
    [vm_compute; reflexivity | lia].
Qed.

Lemma land_1023 (x : N) : N.land x 1023 = x mod 1024.
Proof. change 1023 with (N.ones 10). rewrite N.land_ones. reflexivity. Qed.

Lemma shiftr_10 (x : N) : N.shiftr x 10 = x / 1024.
Proof. rewrite N.shiftr_div_pow2. reflexivity. Qed.

(** The two halves of the surrogate pair of a character beyond the BMP, in
    arithmetic form. *)
Lemma escape_cp_astral (c : N) :
  65536 ≤ c →
  escape_cp c =
    (92 :: 117 :: hex4 (55296 + ((c - 65536) / 1024) mod 1024))
    ++ (92 :: 117 :: hex4 (56320 + (c - 65536) mod 1024)).
Proof.
  intros Hc. unfold escape_cp.
  repeat (match goal with
          | |- context [?a =? ?b] => destruct (N.eqb_spec a b); [lia | ]
          end).
  destruct (N.leb_spec 32 c); [ | lia].
  destruct (N.leb_spec c 126); [lia | ].
  destruct (N.ltb_spec c 65536); [lia | ].
  cbv zeta. cbn [andb].
  rewrite !land_1023, shiftr_10.
  rewrite lor_high_surrogate, lor_low_surrogate by (apply N.mod_lt; lia).
  reflexivity.
Qed.

Lemma escape_cp_ascii (c : N) : ascii_text (escape_cp c).
Proof.
  destruct (N.le_gt_cases 65536 c) as [Hc | Hc].
  - rewrite escape_cp_astral by done.
    assert (((c - 65536) / 1024) mod 1024 < 1024) by (apply N.mod_lt; lia).
    assert ((c - 65536) mod 1024 < 1024) by (apply N.mod_lt; lia).
    apply ascii_text_app; repeat (apply ascii_text_cons; [lia | ]);
      apply hex4_ascii; lia.
  - unfold escape_cp.
    repeat (match goal with
            | |- context [?a =? ?b] =>
              destruct (N.eqb_spec a b); [repeat constructor; lia | ]
            end).
    destruct (N.leb_spec 32 c); destruct (N.leb_spec c 126); cbn [andb];
      try (repeat constructor; lia);
      (destruct (N.ltb_spec c 65536); [ | lia]);
      repeat (apply ascii_text_cons; [lia | ]); by apply hex4_ascii.
Qed.

Lemma encode_str_ascii (s : pystr) : ascii_text (encode_str s).
Proof.
  unfold encode_str. apply ascii_text_cons; [lia | ].
  apply ascii_text_app; [ | repeat constructor; lia].
  induction s as [ | c s IH]; [constructor | ].
  cbn [map concat]. apply ascii_text_app; [apply escape_cp_ascii | exact IH].
Qed.

Lemma uint_chars_ascii (u : Decimal.uint) : ascii_text (uint_chars u).
Proof. induction u; cbn [uint_chars]; try constructor; try lia; done. Qed.

Lemma int_repr_ascii (z : Z) : ascii_text (int_repr z).
Proof.
  unfold int_repr. destruct (Z.to_int z).
  - apply uint_chars_ascii.
  - apply ascii_text_cons; [lia | apply uint_chars_ascii].
Qed.

Lemma newline_indent_ascii (indent level : nat) :
  ascii_text (newline_indent indent level).
Proof.
  unfold newline_indent. apply ascii_text_cons; [lia | ].
  apply Forall_forall. intros c Hc. apply list_elem_of_In, repeat_spec in Hc. lia.
Qed.

(** With [ensure_ascii] the output of [json.dumps] is plain ASCII. *)
Lemma dumps_at_ascii (indent : nat) (v : value) :
  ∀ level, ascii_text (dumps_at indent level v).
Proof.
  induction v as [ | b | z | s | l IH | d IH] using value_ind'; intros level.
  - repeat constructor; lia.
  - destruct b; repeat constructor; lia.
  - apply int_repr_ascii.
  - apply encode_str_ascii.
  - destruct l as [ | x xs]; [repeat constructor; lia | ].
    cbn [dumps_at]. inversion IH as [ | ? ? Hx Hxs]; subst.
    apply ascii_text_cons; [lia | ].
    repeat apply ascii_text_app;
      try apply newline_indent_ascii; try apply Hx; try (repeat constructor; lia).
    induction Hxs as [ | y ys Hy Hys IHys]; [constructor | ].
    cbn [map concat]. apply ascii_text_app; [ | apply IHys; by constructor].
    apply ascii_text_cons; [lia | ].
    apply ascii_text_app; [apply newline_indent_ascii | apply Hy].
  - destruct d as [ | [k x] kxs]; [repeat constructor; lia | ].
    cbn [dumps_at]. inversion IH as [ | ? ? Hx Hxs]; subst.
    apply ascii_text_cons; [lia | ].
    repeat apply ascii_text_app;
      try apply newline_indent_ascii; try apply encode_str_ascii;
      try (repeat constructor; lia).
    + repeat (apply ascii_text_cons; [lia | ]). apply Hx.
    + induction Hxs as [ | [k' y] ys Hy Hys IHys]; [constructor | ].
      cbn [map concat]. apply ascii_text_app; [ | apply IHys; by constructor].
      apply ascii_text_cons; [lia | ].
      repeat apply ascii_text_app;
        try apply newline_indent_ascii; try apply encode_str_ascii.
      repeat (apply ascii_text_cons; [lia | ]). apply Hy.
Qed.

Lemma utf8_decode_N_ascii (s : pystr) : ascii_text s → utf8_decode_N s = Some s.
Proof.
  induction 1 as [ | c s Hc Hs IH]; [reflexivity | ].
  cbn [utf8_decode_N]. destruct (N.ltb_spec c 128); [ | lia].
  rewrite IH. reflexivity.
Qed.

Lemma utf8_encode_ascii (s : pystr) :
  ascii_text s → ∃ bs, utf8_encode s = Some bs ∧ map Byte.to_N bs = s.
Proof.
  induction 1 as [ | c s Hc Hs (bs & Hbs & Hmap)]; [by exists [] | ].
  destruct (Byte.of_N c) as [b | ] eqn:Hb;
    [ | apply Byte.of_N_None_iff in Hb; lia].
  exists (b :: bs). cbn [utf8_encode]. unfold utf8_encode_cp.
  destruct (N.ltb_spec c 128); [ | lia].
  cbn. rewrite Hb. cbn. rewrite Hbs. cbn.
  split; [reflexivity | ]. apply Byte.to_of_N in Hb. cbn [map]. by rewrite Hb, Hmap.
Qed.

(** Encoding ASCII text and decoding the bytes gives the text back. *)
Lemma utf8_roundtrip_ascii (s : pystr) (bs : pybytes) :
  ascii_text s → utf8_encode s = Some bs → utf8_decode bs = Some s.
Proof.
  intros Hs Hbs. destruct (utf8_encode_ascii s Hs) as (bs' & Hbs' & Hmap).
  assert (bs' = bs) by congruence. subst bs'.
  unfold utf8_decode. rewrite Hmap. by apply utf8_decode_N_ascii.
Qed.

(** [json.dumps(...).encode('utf-8')] cannot fail. *)
Lemma encode_dumps (indent : nat) (v : value) :
  ∃ data, utf8_encode (json_dumps indent v) = Some data
          ∧ utf8_decode data = Some (json_dumps indent v).
Proof.
  destruct (utf8_encode_ascii (json_dumps indent v)) as (bs & Hbs & Hmap);
    [apply dumps_at_ascii | ].
  exists bs. split; [done | ].
  apply utf8_roundtrip_ascii; [apply dumps_at_ascii | done].
Qed.

(** ** Properties of the dictionary operations *)

Lemma str_eqb_eq (a b : pystr) : str_eqb a b = true ↔ a = b.
Proof. unfold str_eqb. apply bool_decide_eq_true. Qed.

Lemma str_eqb_refl (a : pystr) : str_eqb a a = true.
Proof. by apply str_eqb_eq. Qed.

Lemma str_eqb_neq (a b : pystr) : str_eqb a b = false ↔ a ≠ b.
Proof. unfold str_eqb. apply bool_decide_eq_false. Qed.

Lemma dict_get_set_eq (d : list (pystr * value)) (k : pystr) (v : value) :
  dict_get (dict_set d k v) k = Some v.
Proof.
  induction d as [ | [k' v'] d IH]; cbn [dict_set dict_get].
  - by rewrite str_eqb_refl.
  - destruct (str_eqb k' k) eqn:E; cbn [dict_get]; by rewrite E.
Qed.

Lemma dict_get_set_ne (d : list (pystr * value)) (k k' : pystr) (v : value) :
  k ≠ k' → dict_get (dict_set d k v) k' = dict_get d k'.
Proof.
  intros Hne. induction d as [ | [k0 v0] d IH]; cbn [dict_set dict_get].
  - assert (str_eqb k k' = false) as -> by by apply str_eqb_neq. done.
  - destruct (str_eqb k0 k) eqn:E; cbn [dict_get]; [ | by rewrite IH].
    apply str_eqb_eq in E. subst k0.
    assert (str_eqb k k' = false) as -> by by apply str_eqb_neq. done.
Qed.

(** Setting a key to the value it holds changes nothing. *)
Lemma dict_set_same (d : list (pystr * value)) (k : pystr) (v : value) :
  dict_get d k = Some v → dict_set d k v = d.
Proof.
  induction d as [ | [k' v'] d IH]; cbn [dict_set dict_get]; [done | ].
  destruct (str_eqb k' k); [congruence | ]. intros H. by rewrite IH.
Qed.

(** The keys of a dictionary, in order. *)
Definition dict_keys (d : list (pystr * value)) : list pystr := map fst d.

Lemma dict_keys_set (d : list (pystr * value)) (k : pystr) (v x : value) :
  dict_get d k = Some x → dict_keys (dict_set d k v) = dict_keys d.
Proof.
  induction d as [ | [k' v'] d IH]; cbn [dict_set dict_get]; [done | ].
  destruct (str_eqb k' k) eqn:E; [done | ].
  intros H. cbn. f_equal. by apply IH.
Qed.

Lemma dict_set_fresh (d : list (pystr * value)) (k : pystr) (v : value) :
  k ∉ dict_keys d → dict_set d k v = d ++ [(k, v)].
Proof.
  induction d as [ | [k' v'] d IH]; cbn [dict_set]; [done | ].
  intros Hk. apply not_elem_of_cons in Hk as [Hne Hk].
  assert (str_eqb k' k = false) as -> by (apply str_eqb_neq; by intros ->).
  cbn. f_equal. by apply IH.
Qed.

(** [dict(pairs)] of pairs with distinct keys is the pairs themselves. *)
Lemma dict_of_pairs_nodup (ps : list (pystr * value)) :
  NoDup (dict_keys ps) → dict_of_pairs ps = ps.
Proof.
  unfold dict_of_pairs.
  assert (∀ acc, NoDup (dict_keys (acc ++ ps)) →
                 fold_left (λ d kv, dict_set d kv.1 kv.2) ps acc = acc ++ ps)
    as H; [ | intros; by apply (H [])].
  induction ps as [ | [k v] ps IH]; intros acc Hnd; cbn [fold_left].
  - by rewrite app_nil_r.
  - cbn [fst snd]. rewrite dict_set_fresh.
    + rewrite IH; rewrite <- app_assoc; done.
    + unfold dict_keys in Hnd. rewrite map_app in Hnd.
      apply NoDup_app in Hnd as (_ & Hd & _).
      intros Hin. apply (Hd k Hin). cbn. left.
Qed.

(** ** [load_catalog] *)

Arguments json_dumps : simpl never.
Arguments json_loads : simpl never.
Arguments utf8_encode : simpl never.
Arguments utf8_decode : simpl never.

(** The world after one client call that left the store alone. *)
Definition after_call (w : world) : world :=
  World (w_store w) (next_fault w).2 (w_clock w) (w_ticks w)
        (w_stdout w) (w_puts w).

Lemma get_object_world (bucket key : pystr) (w : world) :
  (get_object bucket key w).2 = after_call w.
Proof.
  unfold get_object, after_call. destruct (next_fault w) as [[e | ] fs]; cbn.
  - done.
  - by destruct (w_store w !! (bucket, key)).
Qed.

(** [load_catalog] in one piece: the value it returns is decided by the
    fetch, the decoding and the parse, and the only trace it leaves in the
    world is the client call it made. *)
Lemma load_catalog_eq (w : world) :
  load_catalog w =
    (match (get_object MINIO_BUCKET CATALOG_FILE w).1 with
     | Ret body =>
       match decode_utf8 body with
       | Ret text =>
         match json_loads text with
         | Ret v => Ret v
         | Raise _ => Ret empty_catalog
         | Unmodelled => Unmodelled
         end
       | _ => Ret empty_catalog
       end
     | Raise _ => Ret empty_catalog
     | Unmodelled => Unmodelled
     end, after_call w).
Proof.
  unfold load_catalog, try_except, bind, lift, ret.
  rewrite <- (get_object_world MINIO_BUCKET CATALOG_FILE w).
  destruct (get_object MINIO_BUCKET CATALOG_FILE w) as [[body | e | ] w'];
    cbn [fst snd]; try done.
  unfold decode_utf8. destruct (utf8_decode body) as [text | ]; [ | done].
  by destruct (json_loads text).
Qed.

Lemma load_catalog_world (w : world) : (load_catalog w).2 = after_call w.
Proof. by rewrite load_catalog_eq. Qed.

(** [get_object] cannot end [Unmodelled]. *)
Lemma get_object_modelled (bucket key : pystr) (w : world) :
  (get_object bucket key w).1 ≠ Unmodelled.
Proof.
  unfold get_object. destruct (next_fault w) as [[e | ] fs]; cbn; [done | ].
  by destruct (w_store w !! (bucket, key)).
Qed.

(** C3.  [load_catalog] never raises, and whenever the fetch of the backing
    document fails, whatever the reason, it returns the empty catalog
    [{"apps": []}]: when [get_object] raises (any exception: the object is
    missing, the network is down), when the bytes are not UTF-8, and when the
    text is not JSON. *)
Theorem load_catalog_absorbs_failures (w : world) :
  (∀ e, (load_catalog w).1 ≠ Raise e)
  ∧ (∀ e w', get_object MINIO_BUCKET CATALOG_FILE w = (Raise e, w') →
             load_catalog w = (Ret empty_catalog, w'))
  ∧ (w_store w !! (MINIO_BUCKET, CATALOG_FILE) = None →
     (load_catalog w).1 = Ret empty_catalog)
  ∧ (∀ e, (next_fault w).1 = Some e → (load_catalog w).1 = Ret empty_catalog)
  ∧ (∀ body w', get_object MINIO_BUCKET CATALOG_FILE w = (Ret body, w') →
                decode_utf8 body = Raise UnicodeDecodeError →
                load_catalog w = (Ret empty_catalog, w'))
  ∧ (∀ body text w', get_object MINIO_BUCKET CATALOG_FILE w = (Ret body, w') →
                     decode_utf8 body = Ret text →
                     json_loads text = Raise JSONDecodeError →
                     load_catalog w = (Ret empty_catalog, w')).
Proof.
  rewrite load_catalog_eq.
  pose proof (get_object_world MINIO_BUCKET CATALOG_FILE w) as Hw.
  repeat split.
  - intros e. cbn [fst].
    destruct (get_object MINIO_BUCKET CATALOG_FILE w).1 as [body | e' | ];
      try done.
    destruct (decode_utf8 body) as [text | e' | ]; try done.
    by destruct (json_loads text).
  - intros e w' H. rewrite H in Hw |- *. cbn in Hw |- *. by rewrite Hw.
  - intros Hmiss. cbn [fst]. unfold get_object.
    destruct (next_fault w) as [[e | ] fs]; cbn; [done | ]. by rewrite Hmiss.
  - intros e He. cbn [fst]. unfold get_object.
    destruct (next_fault w) as [[e' | ] fs]; cbn in *; done.
  - intros body w' H Hd. rewrite H in Hw |- *. cbn in Hw |- *.
    by rewrite Hd, Hw.
  - intros body text w' H Hd Hj. rewrite H in Hw |- *. cbn in Hw |- *.
    by rewrite Hd, Hj, Hw.
Qed.

(** ** A document of the wrong shape *)

(** The value is an object with an ["apps"] key. *)
Definition has_apps (v : value) : Prop :=
  ∃ d x, v = VDict d ∧ dict_get d k_apps = Some x.

(** What [catalog["apps"]] raises on a value without that key. *)
Definition no_apps_error (v : value) : exn :=
  match v with
  | VDict _ => KeyError (VStr k_apps)
  | _ => TypeError
  end.

Lemma py_getitem_no_apps (v : value) :
  ¬ has_apps v → py_getitem v k_apps = Raise (no_apps_error v).
Proof.
  intros H. destruct v as [ | b | z | s | l | d]; try done.
  cbn [py_getitem no_apps_error].
  destruct (dict_get d k_apps) as [x | ] eqn:E; [ | done].
  exfalso. apply H. by exists d, x.
Qed.

Lemma bind_eq {A B} (m : M A) (k : A → M B) (w w' : world) (a : A) :
  m w = (Ret a, w') → bind m k w = k a w'.
Proof. intros H. unfold bind. by rewrite H. Qed.

Lemma bind_raise {A B} (m : M A) (k : A → M B) (w w' : world) (e : exn) :
  m w = (Raise e, w') → bind m k w = (Raise e, w').
Proof. intros H. unfold bind. by rewrite H. Qed.

Lemma bind_assoc {A B C} (m : M A) (f : A → M B) (g : B → M C) (w : world) :
  bind (bind m f) g w = bind m (λ x, bind (f x) g) w.
Proof. unfold bind. by destruct (m w) as [[a | e | ] w']. Qed.

Lemma bind_ret {A B} (a : A) (k : A → M B) (w : world) :
  bind (ret a) k w = k a w.
Proof. reflexivity. Qed.

Lemma bind_lift_ret {A B} (o : outcome A) (k : A → M B) (w : world) (a : A) :
  o = Ret a → bind (lift o) k w = k a w.
Proof. by intros ->. Qed.

Lemma bind_lift_raise {A B} (o : outcome A) (k : A → M B) (w : world) (e : exn) :
  o = Raise e → bind (lift o) k w = (Raise e, w).
Proof. by intros ->. Qed.

(** Steps of a computation whose first action is a known pure result. *)
Ltac mpure :=
  repeat (repeat rewrite bind_assoc;
          cbn [py_get py_setitem py_append py_iter py_len];
          rewrite (bind_lift_ret _ _ _ _ eq_refl)).

(** One step of a computation whose first action is known. *)
Ltac mstep H :=
  repeat rewrite bind_assoc;
  first [ rewrite (bind_lift_ret _ _ _ _ H)
        | rewrite (bind_eq _ _ _ _ _ H) ].

(** C10.  When the fetched document is valid JSON but not an object with an
    ["apps"] key (an array, a string, an object with other keys, ...),
    [load_catalog] returns that value as it is, not the empty catalog, and
    the access [catalog["apps"]] then raises in [add_app], in [remove_app]
    and in [list_apps]: a [KeyError] on an object, a [TypeError] otherwise.
    Nothing catches it. *)
Theorem wrong_shape_document_raises
  (w w' : world) (body : pybytes) (text : pystr) (v : value)
  (app_id name icon description path : pystr) (featured : bool) :
  get_object MINIO_BUCKET CATALOG_FILE w = (Ret body, w') →
  decode_utf8 body = Ret text →
  json_loads text = Ret v →
  ¬ has_apps v →
  load_catalog w = (Ret v, w')
  ∧ add_app app_id name icon description path featured w
    = (Raise (no_apps_error v), w')
  ∧ remove_app app_id w = (Raise (no_apps_error v), w')
  ∧ list_apps w = (Raise (no_apps_error v), w').
Proof.
  intros Hget Hdec Hjson Hshape.
  assert (load_catalog w = (Ret v, w')) as Hload.
  { rewrite load_catalog_eq, <- (get_object_world MINIO_BUCKET CATALOG_FILE w).
    rewrite Hget. cbn [fst snd]. by rewrite Hdec, Hjson. }
  pose proof (py_getitem_no_apps v Hshape) as Hitem.
  split; [exact Hload | ].
  repeat split.
  - unfold add_app. rewrite (bind_eq _ _ _ _ _ Hload).
    by rewrite (bind_lift_raise _ _ _ _ Hitem).
  - unfold remove_app. rewrite (bind_eq _ _ _ _ _ Hload).
    by rewrite (bind_lift_raise _ _ _ _ Hitem).
  - unfold list_apps. rewrite (bind_eq _ _ _ _ _ Hload).
    by rewrite (bind_lift_raise _ _ _ _ Hitem).
Qed.

(** A world whose store holds the text [doc] under the catalog's key, with
    no faults ahead and a clock that numbers its readings. *)
Definition world_with_document (doc : string) : world :=
  World {[ (MINIO_BUCKET, CATALOG_FILE) :=
             S3Object (list_byte_of_string doc) JSON_CONTENT_TYPE ]}
        [] (λ n, py "2026-01-01T00:00:00+00:00" ++ nat_str n) 0 [] [].

Lemma wrong_shape_document_raises_witness :
  let w := world_with_document "[1, 2]" in
  load_catalog w = (Ret (VList [VInt 1; VInt 2]), after_call w)
  ∧ add_app (py "weather") (py "Weather") (py "W") (py "Shows weather")
            (py "/apps/weather/index.html") false w
    = (Raise TypeError, after_call w)
  ∧ remove_app (py "weather") w = (Raise TypeError, after_call w)
  ∧ list_apps w = (Raise TypeError, after_call w).
Proof.
  cbv zeta.
  apply (wrong_shape_document_raises
           (world_with_document "[1, 2]") _
           (list_byte_of_string "[1, 2]") (py "[1, 2]")
           (VList [VInt 1; VInt 2])).
  - reflexivity.
  - reflexivity.
  - reflexivity.
  - intros (d & x & H & _). discriminate H.
Defined.

(** ** [save_catalog] *)

Lemma put_object_puts (bucket key : pystr) (data : pybytes) (len : nat)
  (ct : pystr) (w : world) :
  w_puts (put_object bucket key data len ct w).2
  = w_puts w ++ [PutCall bucket key data len ct].
Proof. unfold put_object. by destruct (next_fault w) as [[e | ] fs]. Qed.

Lemma save_catalog_eq (catalog : value) (w : world) (data : pybytes) :
  utf8_encode (json_dumps 2 catalog) = Some data →
  save_catalog catalog w
  = put_object MINIO_BUCKET CATALOG_FILE data (length data) JSON_CONTENT_TYPE w.
Proof.
  intros H. unfold save_catalog, encode_utf8. rewrite H. reflexivity.
Qed.

Lemma save_catalog_saved (catalog : value) (w : world) :
  call_succeeds w →
  ∃ w', save_catalog catalog w = (Ret tt, w') ∧ saved catalog w w'.
Proof.
  intros Hok. destruct (encode_dumps 2 catalog) as (data & Henc & _).
  rewrite (save_catalog_eq _ _ _ Henc).
  unfold put_object, call_succeeds, saved in *.
  destruct (next_fault w) as [f fs]. cbn in Hok. subst f.
  eexists. split; [reflexivity | ].
  exists data. split; [done | ]. cbn [snd]. by rewrite firstn_all.
Qed.

(** A text with apostrophes for quotation marks, for the examples. *)
Definition quoted (s : string) : pystr :=
  map (λ c, if c =? 39 then 34 else c) (py s).

(** The layout of [json.dumps(_, indent=2)]: one item per line, two more
    spaces at each level, non-ASCII characters escaped. *)
Example json_dumps_indent_2 :
  json_dumps 2 (VDict [(k_apps,
                        VList [VDict [(k_id, VStr (py "weather"));
                                      (k_icon, VStr (py "☀️"));
                                      (k_featured, VBool false)];
                               VDict []])])
  = quoted "{
  'apps': [
    {
      'id': 'weather',
      'icon': '\u2600\ufe0f',
      'featured': false
    },
    {}
  ]
}".
Proof. vm_compute. reflexivity. Qed.

(** ** [add_app] *)

(** The entry that the update path of [add_app] builds: the literal of
    [new_entry] with ["created_at"] overwritten and ["updated_at"] added at
    the end. *)
Definition updated_entry (app_id name icon description path : pystr)
  (featured : bool) (created_at : value) (updated_at : pystr) : value :=
  VDict [(k_id, VStr app_id); (k_name, VStr name); (k_icon, VStr icon);
         (k_description, VStr description); (k_path, VStr path);
         (k_featured, VBool featured); (k_created_at, created_at);
         (k_updated_at, VStr updated_at)].

(** The end of [add_app]: save, report, return [True]. *)
Definition finish_add (catalog : value) (action name app_id : pystr)
  : M value :=
  run! save_catalog catalog in
  run! print (add_message action name app_id) in
  ret (VBool true).

Lemma find_existing_index (apps : list value) (app_id : pystr) (n : nat) :
  Forall has_id apps →
  find_existing apps app_id n
  = Ret ((λ i, (n + i)%nat) <$> index_of_id apps app_id).
Proof.
  intros H. revert n.
  induction H as [ | e apps (d & i & -> & Hi) _ IH]; intros n; [done | ].
  cbn [find_existing index_of_id py_getitem]. rewrite Hi. cbn [obind].
  unfold id_is. cbn [field]. rewrite Hi.
  destruct (py_eq_str i app_id).
  - cbn. f_equal. f_equal. lia.
  - rewrite IH. f_equal.
    destruct (index_of_id apps app_id) as [j | ]; cbn; [ | done].
    f_equal. lia.
Qed.

Lemma index_of_id_Some (apps : list value) (app_id : pystr) (i : nat) :
  index_of_id apps app_id = Some i →
  ∃ old, apps !! i = Some old ∧ id_is old app_id = true
         ∧ ∀ j e, (j < i)%nat → apps !! j = Some e → id_is e app_id = false.
Proof.
  revert i. induction apps as [ | e apps IH]; intros i; [done | ].
  cbn [index_of_id]. destruct (id_is e app_id) eqn:E.
  - intros [= <-]. exists e. repeat split; [done | ]. intros; lia.
  - destruct (index_of_id apps app_id) as [i' | ]; [ | done].
    intros [= <-]. destruct (IH i' eq_refl) as (old & Hold & Hid & Hbefore).
    exists old. repeat split; [done | done | ].
    intros [ | j] e' Hj; cbn; [congruence | ].
    apply Hbefore. lia.
Qed.

Lemma index_of_id_None (apps : list value) (app_id : pystr) :
  index_of_id apps app_id = None ↔ Forall (λ e, id_is e app_id = false) apps.
Proof.
  induction apps as [ | e apps IH]; [done | ].
  cbn [index_of_id]. destruct (id_is e app_id) eqn:E.
  - split; [done | ]. intros H. inversion H; congruence.
  - destruct (index_of_id apps app_id) as [i' | ]; cbn.
    + split; [done | ]. intros H. inversion H as [ | ? ? _ H']; subst.
      by apply IH in H'.
    + split; [ | done]. intros _. constructor; [done | by apply IH].
Qed.

Lemma now_isoformat_eq (w : world) :
  now_isoformat w = (Ret (w_clock w (w_ticks w)), tick 1 w).
Proof. reflexivity. Qed.

Lemma tick_tick (n m : nat) (w : world) : tick n (tick m w) = tick (n + m) w.
Proof. unfold tick. cbn. f_equal. lia. Qed.

(** The update path of [add_app]. *)
Lemma add_app_update
  (w w1 : world) (d : list (pystr * value)) (apps : list value)
  (app_id name icon description path : pystr) (featured : bool)
  (i : nat) (old : value) :
  load_catalog w = (Ret (VDict d), w1) →
  dict_get d k_apps = Some (VList apps) →
  Forall has_id apps →
  index_of_id apps app_id = Some i →
  apps !! i = Some old →
  add_app app_id name icon description path featured w
  = finish_add
      (VDict (dict_set d k_apps
                (VList (<[i := updated_entry app_id name icon description path
                                featured
                                (default (VStr (w_clock w1 (w_ticks w1)))
                                         (field old k_created_at))
                                (w_clock w1 (S (w_ticks w1)))]> apps))))
      (py "Updated") name app_id (tick 2 w1).
Proof.
  intros Hload Happs Hids Hidx Hold.
  unfold add_app. rewrite (bind_eq _ _ _ _ _ Hload).
  assert (py_getitem (VDict d) k_apps = Ret (VList apps)) as Hitem
    by (cbn [py_getitem]; by rewrite Happs).
  rewrite (bind_lift_ret _ _ _ _ Hitem).
  rewrite (bind_lift_ret _ _ _ (apps) eq_refl).
  rewrite (bind_lift_ret _ _ _ _ (find_existing_index apps app_id 0 Hids)).
  rewrite Hidx. cbn [fmap option_fmap option_map Nat.add].
  rewrite (bind_eq _ _ _ _ _ (now_isoformat_eq w1)).
  assert (∃ od, old = VDict od) as (od & ->).
  { apply (Forall_lookup_1 _ _ _ _ Hids) in Hold as (od & ? & -> & _). by exists od. }
  mstep Hitem.
  unfold py_getitem_idx at 1. rewrite Hold. unfold new_entry.
  mpure.
  mstep (now_isoformat_eq (tick 1 w1)).
  mpure.
  mstep Hitem.
  unfold py_setitem_idx at 1.
  rewrite bool_decide_eq_true_2 by (by eapply lookup_lt_Some).
  mpure.
  rewrite bind_ret.
  rewrite tick_tick. reflexivity.
Qed.

(** The insert path of [add_app]. *)
Lemma add_app_insert
  (w w1 : world) (d : list (pystr * value)) (apps : list value)
  (app_id name icon description path : pystr) (featured : bool) :
  load_catalog w = (Ret (VDict d), w1) →
  dict_get d k_apps = Some (VList apps) →
  Forall has_id apps →
  index_of_id apps app_id = None →
  add_app app_id name icon description path featured w
  = finish_add
      (VDict (dict_set d k_apps
                (VList (apps ++ [new_entry app_id name icon description path
                                           featured
                                           (w_clock w1 (w_ticks w1))]))))
      (py "Added") name app_id (tick 1 w1).
Proof.
  intros Hload Happs Hids Hidx.
  unfold add_app. rewrite (bind_eq _ _ _ _ _ Hload).
  assert (py_getitem (VDict d) k_apps = Ret (VList apps)) as Hitem
    by (cbn [py_getitem]; by rewrite Happs).
  mstep Hitem. mpure.
  mstep (find_existing_index apps app_id 0 Hids).
  rewrite Hidx. cbn [fmap option_fmap option_map].
  mstep (now_isoformat_eq w1).
  mstep Hitem. mpure.
  rewrite bind_ret. reflexivity.
Qed.

(** When the [put_object] call goes through, the end of [add_app] saves the
    catalog, prints the message and returns [True]. *)
Lemma finish_add_saved (catalog : value) (action name app_id : pystr)
  (w : world) :
  call_succeeds w →
  ∃ w', saved catalog w w'
        ∧ finish_add catalog action name app_id w
          = (Ret (VBool true), printed (add_message action name app_id) w').
Proof.
  intros Hok. destruct (save_catalog_saved catalog w Hok) as (w' & Hsave & Hs).
  exists w'. split; [done | ].
  unfold finish_add. by rewrite (bind_eq _ _ _ _ _ Hsave).
Qed.

(** When the [put_object] call raises, so does [add_app], and nothing is
    printed. *)
Lemma finish_add_failed (catalog : value) (action name app_id : pystr)
  (w : world) (e : exn) :
  (next_fault w).1 = Some e →
  (finish_add catalog action name app_id w).1 = Raise e
  ∧ w_stdout (finish_add catalog action name app_id w).2 = w_stdout w.
Proof.
  intros Hf. destruct (encode_dumps 2 catalog) as (data & Henc & _).
  unfold finish_add, bind. rewrite (save_catalog_eq _ _ _ Henc).
  unfold put_object. destruct (next_fault w) as [f fs]. cbn in Hf. by subst f.
Qed.

Lemma call_succeeds_tick (n : nat) (w : world) :
  call_succeeds (tick n w) ↔ call_succeeds w.
Proof. done. Qed.

(** [add_app] on a catalog whose entries all carry an ["id"], when the write
    goes through: what is saved and what the call returns, on either path. *)
Lemma add_app_cases
  (w w1 : world) (d : list (pystr * value)) (apps : list value)
  (app_id name icon description path : pystr) (featured : bool) :
  load_catalog w = (Ret (VDict d), w1) →
  dict_get d k_apps = Some (VList apps) →
  Forall has_id apps →
  call_succeeds w1 →
  match index_of_id apps app_id with
  | Some i =>
    ∃ old w_s,
      apps !! i = Some old
      ∧ saved (VDict (dict_set d k_apps
                        (VList (<[i := updated_entry app_id name icon
                                         description path featured
                                         (default (VStr (w_clock w1 (w_ticks w1)))
                                                  (field old k_created_at))
                                         (w_clock w1 (S (w_ticks w1)))]> apps))))
              (tick 2 w1) w_s
      ∧ add_app app_id name icon description path featured w
        = (Ret (VBool true),
           printed (add_message (py "Updated") name app_id) w_s)
  | None =>
    ∃ w_s,
      saved (VDict (dict_set d k_apps
                      (VList (apps ++ [new_entry app_id name icon description
                                                 path featured
                                                 (w_clock w1 (w_ticks w1))]))))
            (tick 1 w1) w_s
      ∧ add_app app_id name icon description path featured w
        = (Ret (VBool true),
           printed (add_message (py "Added") name app_id) w_s)
  end.
Proof.
  intros Hload Happs Hids Hok.
  destruct (index_of_id apps app_id) as [i | ] eqn:Hidx.
  - destruct (index_of_id_Some _ _ _ Hidx) as (old & Hold & _).
    rewrite (add_app_update _ _ _ _ _ name icon description path featured
               _ _ Hload Happs Hids Hidx Hold).
    match goal with
    | |- context [finish_add ?c ?a ?n ?i ?w] =>
      destruct (finish_add_saved c a n i w) as (w_s & Hsaved & Hfin);
        [done | ]
    end.
    by exists old, w_s.
  - rewrite (add_app_insert _ _ _ _ _ name icon description path featured
               Hload Happs Hids Hidx).
    match goal with
    | |- context [finish_add ?c ?a ?n ?i ?w] =>
      destruct (finish_add_saved c a n i w) as (w_s & Hsaved & Hfin);
        [done | ]
    end.
    by exists w_s.
Qed.

(** C1.  [add_app] on a catalog whose entries all carry an ["id"], when the
    write goes through.  If an entry with the given id exists (the first one,
    at index [i]), the saved catalog has, at the same index [i] of ["apps"]
    and with every other position and the length unchanged, an entry with the
    given fields, the ["created_at"] of the entry it replaces and
    ["updated_at"] set to the reading of the clock taken for it.  If no entry
    has the id, the saved catalog has one more entry, at the end of ["apps"]:
    the given fields with ["created_at"] set to the reading of the clock, and
    no ["updated_at"]. *)
Theorem add_app_upsert
  (w w1 : world) (d : list (pystr * value)) (apps : list value)
  (app_id name icon description path : pystr) (featured : bool) :
  load_catalog w = (Ret (VDict d), w1) →
  dict_get d k_apps = Some (VList apps) →
  Forall has_id apps →
  call_succeeds w1 →
  let now1 := w_clock w1 (w_ticks w1) in
  let now2 := w_clock w1 (S (w_ticks w1)) in
  match index_of_id apps app_id with
  | Some i =>
    ∃ old entry apps' w_s,
      apps !! i = Some old ∧ id_is old app_id = true
      ∧ (∀ j e, (j < i)%nat → apps !! j = Some e → id_is e app_id = false)
      ∧ entry = updated_entry app_id name icon description path featured
                  (default (VStr now1) (field old k_created_at)) now2
      ∧ (∀ c, field old k_created_at = Some c →
              field entry k_created_at = Some c)
      ∧ field entry k_updated_at = Some (VStr now2)
      ∧ apps' = <[i := entry]> apps
      ∧ length apps' = length apps
      ∧ apps' !! i = Some entry
      ∧ (∀ j, j ≠ i → apps' !! j = apps !! j)
      ∧ saved (VDict (dict_set d k_apps (VList apps'))) (tick 2 w1) w_s
      ∧ add_app app_id name icon description path featured w
        = (Ret (VBool true),
           printed (add_message (py "Updated") name app_id) w_s)
  | None =>
    ∃ entry w_s,
      Forall (λ e, id_is e app_id = false) apps
      ∧ entry = new_entry app_id name icon description path featured now1
      ∧ field entry k_created_at = Some (VStr now1)
      ∧ field entry k_updated_at = None
      ∧ saved (VDict (dict_set d k_apps (VList (apps ++ [entry]))))
              (tick 1 w1) w_s
      ∧ add_app app_id name icon description path featured w
        = (Ret (VBool true),
           printed (add_message (py "Added") name app_id) w_s)
  end.
Proof.
  intros Hload Happs Hids Hok now1 now2.
  destruct (index_of_id apps app_id) as [i | ] eqn:Hidx.
  - destruct (index_of_id_Some _ _ _ Hidx) as (old & Hold & Hid & Hfirst).
    set (entry := updated_entry app_id name icon description path featured
                    (default (VStr now1) (field old k_created_at)) now2).
    destruct (finish_add_saved
                (VDict (dict_set d k_apps (VList (<[i := entry]> apps))))
                (py "Updated") name app_id (tick 2 w1))
      as (w_s & Hsaved & Hfin); [done | ].
    exists old, entry, (<[i := entry]> apps), w_s.
    repeat split; try done.
    + intros c Hc. subst entry. rewrite Hc. reflexivity.
    + apply length_insert.
    + apply list_lookup_insert_eq. by eapply lookup_lt_Some.
    + intros j Hj. by apply list_lookup_insert_ne.
    + rewrite <- Hfin. by eapply add_app_update.
  - set (entry := new_entry app_id name icon description path featured now1).
    destruct (finish_add_saved
                (VDict (dict_set d k_apps (VList (apps ++ [entry]))))
                (py "Added") name app_id (tick 1 w1))
      as (w_s & Hsaved & Hfin); [done | ].
    exists entry, w_s.
    repeat split; try done.
    + by apply index_of_id_None.
    + rewrite <- Hfin. by eapply add_app_insert.
Qed.

(** A world whose store holds [catalog] as [save_catalog] writes it, with no
    faults ahead and a clock that numbers its readings. *)
Definition world_with_catalog (catalog : value) : world :=
  World {[ (MINIO_BUCKET, CATALOG_FILE) :=
             S3Object (default [] (utf8_encode (json_dumps 2 catalog)))
                      JSON_CONTENT_TYPE ]}
        [] (λ n, py "2026-01-01T00:00:00+00:00" ++ nat_str n) 0 [] [].

(** The entry of the scenario of the specification, created at an earlier
    date. *)
Definition weather_entry : value :=
  new_entry (py "weather") (py "Weather") (py "☀️") (py "Shows weather")
            (py "/apps/weather/index.html") false
            (py "2025-12-31T23:59:59+00:00").

Lemma add_app_upsert_witness :
  let w := world_with_catalog (VDict [(k_apps, VList [weather_entry])]) in
  ∃ entry w_s,
    add_app (py "weather") (py "Weather") (py "☀️") (py "Shows weather")
            (py "/apps/weather/index.html") true w
    = (Ret (VBool true),
       printed (add_message (py "Updated") (py "Weather") (py "weather")) w_s)
    ∧ field entry k_created_at = Some (VStr (py "2025-12-31T23:59:59+00:00"))
    ∧ field entry k_updated_at
      = Some (VStr (py "2026-01-01T00:00:00+00:001"))
    ∧ field entry k_featured = Some (VBool true)
    ∧ saved (VDict [(k_apps, VList [entry])]) (tick 2 (after_call w)) w_s.
Proof.
  cbv zeta.
  pose proof (add_app_upsert
                (world_with_catalog (VDict [(k_apps, VList [weather_entry])]))
                (after_call
                   (world_with_catalog
                      (VDict [(k_apps, VList [weather_entry])])))
                [(k_apps, VList [weather_entry])] [weather_entry]
                (py "weather") (py "Weather") (py "☀️") (py "Shows weather")
                (py "/apps/weather/index.html") true) as H.
  cbv zeta in H.
  change (index_of_id [weather_entry] (py "weather")) with (Some 0%nat) in H.
  destruct H as (old & entry & apps' & w_s & Hold & _ & _ & -> & _ & _ & ->
                 & _ & _ & _ & Hsaved & Hadd).
  - vm_compute. reflexivity.
  - reflexivity.
  - repeat constructor. eexists _, _. split; reflexivity.
  - reflexivity.
  - injection Hold as <-.
    exists (updated_entry (py "weather") (py "Weather") (py "☀️")
              (py "Shows weather") (py "/apps/weather/index.html") true
              (VStr (py "2025-12-31T23:59:59+00:00"))
              (py "2026-01-01T00:00:00+00:001")).
    exists w_s. split; [exact Hadd | ].
    split; [reflexivity | ]. split; [reflexivity | ]. split; [reflexivity | ].
    exact Hsaved.
Defined.

Lemma bind_inv_ret {A B} (m : M A) (k : A → M B) (w w' : world) (b : B) :
  bind m k w = (Ret b, w') →
  ∃ a w1, m w = (Ret a, w1) ∧ k a w1 = (Ret b, w').
Proof.
  unfold bind. destruct (m w) as [[a | e | ] w1]; try done.
  intros H. by exists a, w1.
Qed.

Lemma lift_inv_ret {A} (o : outcome A) (w w' : world) (a : A) :
  lift o w = (Ret a, w') → o = Ret a ∧ w' = w.
Proof. unfold lift. by intros [= -> ->]. Qed.

(** When the loop of [add_app] ends without raising, it has found the first
    entry with the id, or none. *)
Lemma find_existing_ret (items : list value) (app_id : pystr) (n : nat)
  (r : option nat) :
  find_existing items app_id n = Ret r →
  r = (λ i, (n + i)%nat) <$> index_of_id items app_id.
Proof.
  revert n. induction items as [ | app items IH]; intros n.
  - by intros [= <-].
  - cbn [find_existing index_of_id].
    destruct app as [ | b | z | s | l | d]; try done.
    cbn [py_getitem]. unfold id_is. cbn [field].
    destruct (dict_get d k_id) as [i | ]; [ | done]. cbn [obind].
    destruct (py_eq_str i app_id).
    + intros [= <-]. cbn. f_equal. lia.
    + intros H. apply IH in H as ->.
      destruct (index_of_id items app_id) as [j | ]; cbn; [ | done].
      f_equal. lia.
Qed.

(** A [save_catalog] that returns has saved. *)
Lemma save_catalog_ret (catalog : value) (w w' : world) :
  save_catalog catalog w = (Ret tt, w') → saved catalog w w'.
Proof.
  destruct (encode_dumps 2 catalog) as (data & Henc & _).
  rewrite (save_catalog_eq _ _ _ Henc). unfold put_object, saved.
  destruct (next_fault w) as [[e | ] fs]; [done | ].
  intros [= <-]. exists data. split; [done | ]. cbn [snd].
  by rewrite firstn_all.
Qed.

(** C7, as the script has it.  A call of [add_app] that completes returns
    [True], after an insert and after an update alike: the entry is not
    returned, and whether the call inserted or updated shows only in the
    message it has just printed.  The call loaded an object whose ["apps"] is
    a list.  When no entry had the id, the call is an insert: it saved the
    list with the new entry at its end, and its message, the last line of
    the output, is ["Added app: <name> (<id>)"].  When an entry had the id,
    the first one at index [i], the call is an update: it saved the list
    with the updated entry at index [i], and its message is
    ["Updated app: <name> (<id>)"]. *)
Theorem add_app_returns_true
  (app_id name icon description path : pystr) (featured : bool)
  (w w' : world) (v : value) :
  add_app app_id name icon description path featured w = (Ret v, w') →
  v = VBool true
  ∧ ∃ d apps w_s,
      load_catalog w = (Ret (VDict d), after_call w)
      ∧ dict_get d k_apps = Some (VList apps)
      ∧ match index_of_id apps app_id with
        | None =>
          saved (VDict (dict_set d k_apps
                          (VList (apps ++ [new_entry app_id name icon
                                             description path featured
                                             (w_clock w (w_ticks w))]))))
                (tick 1 (after_call w)) w_s
          ∧ w' = printed (add_message (py "Added") name app_id) w_s
          ∧ last (w_stdout w')
            = Some (py "Added app: " ++ name ++ py " (" ++ app_id ++ py ")")
        | Some i =>
          ∃ old,
            apps !! i = Some old
            ∧ saved (VDict (dict_set d k_apps
                              (VList (<[i := updated_entry app_id name icon
                                               description path featured
                                               (default
                                                  (VStr (w_clock w (w_ticks w)))
                                                  (field old k_created_at))
                                               (w_clock w (S (w_ticks w)))]>
                                        apps))))
                    (tick 2 (after_call w)) w_s
            ∧ w' = printed (add_message (py "Updated") name app_id) w_s
            ∧ last (w_stdout w')
              = Some (py "Updated app: " ++ name ++ py " (" ++ app_id
                      ++ py ")")
        end.
Proof.
  unfold add_app. intros H.
  apply bind_inv_ret in H as (catalog & wa & Hload & H).
  pose proof (load_catalog_world w) as Hwa. rewrite Hload in Hwa.
  cbn [snd] in Hwa. subst wa.
  apply bind_inv_ret in H as (apps_v & wb & Happs & H).
  apply lift_inv_ret in Happs as (Happs & ->).
  apply bind_inv_ret in H as (items & wc & Hitems & H).
  apply lift_inv_ret in Hitems as (Hitems & ->).
  apply bind_inv_ret in H as (idx & wd & Hidx & H).
  apply lift_inv_ret in Hidx as (Hidx & ->).
  apply bind_inv_ret in H as (now & we & Hnow & H).
  rewrite now_isoformat_eq in Hnow. injection Hnow as <- <-.
  apply bind_inv_ret in H as (r & wf & Hr & H).
  apply bind_inv_ret in H as ([] & wg & Hsave & H).
  apply bind_inv_ret in H as ([] & wh & Hprint & H).
  injection H as <- <-. split; [done | ].
  injection Hprint as <-. apply save_catalog_ret in Hsave.
  destruct catalog as [ | b | z | s | l | d]; try done.
  cbn [py_getitem] in Happs.
  destruct (dict_get d k_apps) as [x | ] eqn:Hd; [ | done].
  injection Happs as ->.
  apply find_existing_ret in Hidx. cbn [Nat.add] in Hidx.
  destruct idx as [i | ].
  - apply bind_inv_ret in Hr as (apps1 & w1 & H1 & Hr).
    apply lift_inv_ret in H1 as (H1 & ->).
    cbn [py_getitem] in H1. rewrite Hd in H1. injection H1 as <-.
    apply bind_inv_ret in Hr as (old & w1 & H2 & Hr).
    apply lift_inv_ret in H2 as (H2 & ->).
    apply bind_inv_ret in Hr as (created & w1 & H3 & Hr).
    apply lift_inv_ret in H3 as (H3 & ->).
    apply bind_inv_ret in Hr as (e1 & w1 & H4 & Hr).
    apply lift_inv_ret in H4 as (H4 & ->).
    apply bind_inv_ret in Hr as (now2 & w1 & H5 & Hr).
    rewrite now_isoformat_eq in H5. injection H5 as <- <-.
    apply bind_inv_ret in Hr as (e2 & w1 & H6 & Hr).
    apply lift_inv_ret in H6 as (H6 & ->).
    apply bind_inv_ret in Hr as (apps2 & w1 & H7 & Hr).
    apply lift_inv_ret in H7 as (H7 & ->).
    cbn [py_getitem] in H7. rewrite Hd in H7. injection H7 as <-.
    apply bind_inv_ret in Hr as (apps3 & w1 & H8 & Hr).
    apply lift_inv_ret in H8 as (H8 & ->).
    apply bind_inv_ret in Hr as (catalog' & w1 & H9 & Hr).
    apply lift_inv_ret in H9 as (H9 & ->).
    injection Hr as <- <-. rewrite tick_tick in *. cbn [fst snd Nat.add] in *.
    destruct apps_v as [ | b | z | s | l | d']; try done.
    cbn [py_iter] in Hitems. injection Hitems as <-.
    cbn [py_getitem_idx] in H2.
    destruct (l !! i) as [old' | ] eqn:Hold; [ | done].
    injection H2 as <-.
    destruct old' as [ | b | z | s | l' | od]; try done.
    cbn [py_get] in H3. injection H3 as <-.
    cbn [py_setitem new_entry] in H4. injection H4 as <-.
    cbn [py_setitem] in H6. injection H6 as <-.
    cbn [py_setitem_idx] in H8. case_bool_decide; [ | done].
    injection H8 as <-. cbn [py_setitem] in H9. injection H9 as <-.
    exists d, l, wg. split; [done | ]. split; [done | ].
    destruct (index_of_id l app_id) as [j | ]; [ | done].
    injection Hidx as ->. exists (VDict od).
    split; [done | ]. split; [done | ]. split; [done | ].
    cbn [printed w_stdout]. apply last_snoc.
  - apply bind_inv_ret in Hr as (apps1 & w1 & H1 & Hr).
    apply lift_inv_ret in H1 as (H1 & ->).
    cbn [py_getitem] in H1. rewrite Hd in H1. injection H1 as <-.
    apply bind_inv_ret in Hr as (apps2 & w1 & H2 & Hr).
    apply lift_inv_ret in H2 as (H2 & ->).
    apply bind_inv_ret in Hr as (catalog' & w1 & H3 & Hr).
    apply lift_inv_ret in H3 as (H3 & ->).
    injection Hr as <- <-. cbn [fst snd] in *.
    destruct apps_v as [ | b | z | s | l | d']; try done.
    cbn [py_iter] in Hitems. injection Hitems as <-.
    cbn [py_append] in H2. injection H2 as <-.
    cbn [py_setitem] in H3. injection H3 as <-.
    exists d, l, wg. split; [done | ]. split; [done | ].
    destruct (index_of_id l app_id) as [j | ]; [done | ].
    split; [done | ]. split; [done | ].
    cbn [printed w_stdout]. apply last_snoc.
Qed.

Lemma add_app_returns_true_witness :
  let inserted :=
    add_app (py "weather") (py "Weather") (py "☀️") (py "Shows weather")
            (py "/apps/weather/index.html") false
            (world_with_catalog empty_catalog) in
  let updated :=
    add_app (py "weather") (py "Weather") (py "☀️") (py "Shows weather")
            (py "/apps/weather/index.html") true
            (world_with_catalog (VDict [(k_apps, VList [weather_entry])])) in
  inserted.1 = Ret (VBool true)
  ∧ last (w_stdout inserted.2) = Some (py "Added app: Weather (weather)")
  ∧ updated.1 = Ret (VBool true)
  ∧ last (w_stdout updated.2) = Some (py "Updated app: Weather (weather)").
Proof.
  cbv zeta.
  assert (∀ (A B : Type) (p : A * B) (a : A), p.1 = a → p = (a, p.2)) as Hpair
    by (by intros A B [a' b] a; cbn; intros ->).
  split; [vm_compute; reflexivity | ]. split.
  - destruct (add_app_returns_true
                (py "weather") (py "Weather") (py "☀️") (py "Shows weather")
                (py "/apps/weather/index.html") false
                (world_with_catalog empty_catalog) _ (VBool true)
                (Hpair _ _ _ _ ltac:(vm_compute; reflexivity)))
      as (_ & d & apps & w_s & Hload & Hd & Hcase).
    assert (load_catalog (world_with_catalog empty_catalog)
            = (Ret (VDict [(k_apps, VList [])]),
               after_call (world_with_catalog empty_catalog))) as Hload'
      by (vm_compute; reflexivity).
    rewrite Hload in Hload'. apply (f_equal fst) in Hload'.
    cbn [fst] in Hload'. injection Hload' as ->.
    injection Hd as <-. destruct Hcase as (_ & _ & Hlast). exact Hlast.
  - split; [vm_compute; reflexivity | ].
    destruct (add_app_returns_true
                (py "weather") (py "Weather") (py "☀️") (py "Shows weather")
                (py "/apps/weather/index.html") true
                (world_with_catalog (VDict [(k_apps, VList [weather_entry])]))
                _ (VBool true)
                (Hpair _ _ _ _ ltac:(vm_compute; reflexivity)))
      as (_ & d & apps & w_s & Hload & Hd & Hcase).
    assert (load_catalog
              (world_with_catalog (VDict [(k_apps, VList [weather_entry])]))
            = (Ret (VDict [(k_apps, VList [weather_entry])]),
               after_call
                 (world_with_catalog
                    (VDict [(k_apps, VList [weather_entry])])))) as Hload'
      by (vm_compute; reflexivity).
    rewrite Hload in Hload'. apply (f_equal fst) in Hload'.
    cbn [fst] in Hload'. injection Hload' as ->.
    injection Hd as <-.
    change (index_of_id [weather_entry] (py "weather")) with (Some 0%nat)
      in Hcase.
    destruct Hcase as (old & _ & _ & _ & Hlast). exact Hlast.
Defined.

(** C7 as stated fails: the value returned is [True], which is no entry (no
    [dict]), and it is the same value after an insert (into the empty
    catalog, reported as ["Added"]) and after an update (of the entry the
    catalog holds, reported as ["Updated"]), so it does not tell the two
    apart. *)
Lemma add_app_returns_no_entry :
  let inserted :=
    add_app (py "weather") (py "Weather") (py "☀️") (py "Shows weather")
            (py "/apps/weather/index.html") false
            (world_with_catalog empty_catalog) in
  let updated :=
    add_app (py "weather") (py "Weather") (py "☀️") (py "Shows weather")
            (py "/apps/weather/index.html") false
            (world_with_catalog (VDict [(k_apps, VList [weather_entry])])) in
  inserted.1 = Ret (VBool true)
  ∧ updated.1 = Ret (VBool true)
  ∧ inserted.1 = updated.1
  ∧ (∀ d, inserted.1 ≠ Ret (VDict d))
  ∧ last (w_stdout inserted.2) = Some (py "Added app: Weather (weather)")
  ∧ last (w_stdout updated.2) = Some (py "Updated app: Weather (weather)").
Proof.
  cbv zeta. repeat split; try (vm_compute; reflexivity).
  intros d. vm_compute. discriminate.
Qed.

Lemma saved_stdout (catalog : value) (w w' : world) :
  saved catalog w w' → w_stdout w' = w_stdout w.
Proof. by intros (data & _ & ->). Qed.

Lemma load_catalog_stdout (w w1 : world) (v : outcome value) :
  load_catalog w = (v, w1) → w_stdout w1 = w_stdout w.
Proof.
  intros H. pose proof (load_catalog_world w) as Hw. rewrite H in Hw.
  cbn in Hw. by subst w1.
Qed.

(** C8, as the script has it.  On a catalog whose entries all carry an
    ["id"], when the write goes through, [add_app] prints exactly one line:
    ["Updated app: <name> (<id>)"] when an entry had the id, and
    ["Added app: <name> (<id>)"] when none had. *)
Theorem add_app_message
  (w w1 : world) (d : list (pystr * value)) (apps : list value)
  (app_id name icon description path : pystr) (featured : bool) :
  load_catalog w = (Ret (VDict d), w1) →
  dict_get d k_apps = Some (VList apps) →
  Forall has_id apps →
  call_succeeds w1 →
  w_stdout (add_app app_id name icon description path featured w).2
  = w_stdout w
    ++ [match index_of_id apps app_id with
        | Some _ => py "Updated app: " ++ name ++ py " (" ++ app_id ++ py ")"
        | None => py "Added app: " ++ name ++ py " (" ++ app_id ++ py ")"
        end].
Proof.
  intros Hload Happs Hids Hok.
  pose proof (add_app_cases w w1 d apps app_id name icon description path
                featured Hload Happs Hids Hok) as H.
  rewrite <- (load_catalog_stdout _ _ _ Hload).
  destruct (index_of_id apps app_id) as [i | ].
  - destruct H as (? & w_s & _ & Hsaved & ->).
    cbn [snd printed w_stdout]. by rewrite (saved_stdout _ _ _ Hsaved).
  - destruct H as (w_s & Hsaved & ->).
    cbn [snd printed w_stdout]. by rewrite (saved_stdout _ _ _ Hsaved).
Qed.

Lemma add_app_message_witness :
  w_stdout (add_app (py "weather") (py "Weather") (py "☀️")
                    (py "Shows weather") (py "/apps/weather/index.html")
                    false (world_with_catalog empty_catalog)).2
  = [py "Added app: Weather (weather)"].
Proof.
  apply (add_app_message
           (world_with_catalog empty_catalog)
           (after_call (world_with_catalog empty_catalog))
           [(k_apps, VList [])] [] (py "weather") (py "Weather")).
  - vm_compute. reflexivity.
  - reflexivity.
  - constructor.
  - reflexivity.
Defined.

(** C8 as stated fails: after the insert of the scenario the line printed is
    ["Added app: Weather (weather)"], not ["Added Weather (weather)"]. *)
Lemma add_app_message_has_app_word :
  w_stdout (add_app (py "weather") (py "Weather") (py "☀️")
                    (py "Shows weather") (py "/apps/weather/index.html")
                    false (world_with_catalog empty_catalog)).2
  = [py "Added app: Weather (weather)"]
  ∧ w_stdout (add_app (py "weather") (py "Weather") (py "☀️")
                      (py "Shows weather") (py "/apps/weather/index.html")
                      false (world_with_catalog empty_catalog)).2
    ≠ [py "Added Weather (weather)"].
Proof. split; [vm_compute; reflexivity | vm_compute; discriminate]. Qed.

(** ** [remove_app] *)

(** The ["id"] values of the entries, in order ([None] where there is
    none). *)
Definition ids (apps : list value) : list (option value) :=
  map (λ e, field e k_id) apps.

Lemma py_eq_str_true (v : value) (s : pystr) :
  py_eq_str v s = true ↔ v = VStr s.
Proof.
  destruct v; cbn; try (split; [done | discriminate]).
  rewrite str_eqb_eq. split; [by intros -> | by intros [= ->]].
Qed.

Lemma id_is_true (e : value) (app_id : pystr) :
  id_is e app_id = true ↔ field e k_id = Some (VStr app_id).
Proof.
  unfold id_is. destruct (field e k_id) as [i | ]; [ | split; done].
  rewrite py_eq_str_true. split; [by intros -> | by intros [= ->]].
Qed.

Lemma id_is_false_all (apps : list value) (app_id : pystr) :
  Some (VStr app_id) ∉ ids apps ↔ Forall (λ e, id_is e app_id = false) apps.
Proof.
  unfold ids. rewrite Forall_forall. split.
  - intros H e He. destruct (id_is e app_id) eqn:E; [ | done].
    exfalso. apply H. apply id_is_true in E. rewrite <- E.
    apply list_elem_of_fmap. by exists e.
  - intros H Hin. apply list_elem_of_fmap in Hin as (e & He & Hin).
    apply H in Hin. symmetry in He. apply id_is_true in He. congruence.
Qed.

Lemma keep_others_filter (apps : list value) (app_id : pystr) :
  Forall has_id apps →
  keep_others apps app_id
  = Ret (filter (λ e, id_is e app_id = false) apps).
Proof.
  induction 1 as [ | e apps (d & i & -> & Hi) _ IH]; [done | ].
  cbn [keep_others py_getitem]. rewrite Hi, IH. cbn [obind].
  rewrite filter_cons.
  assert (id_is (VDict d) app_id = py_eq_str i app_id) as ->
    by (unfold id_is; cbn [field]; by rewrite Hi).
  destruct (py_eq_str i app_id); by case_decide.
Qed.

Lemma filter_all (apps : list value) (app_id : pystr) :
  Forall (λ e, id_is e app_id = false) apps →
  filter (λ e, id_is e app_id = false) apps = apps.
Proof.
  induction 1 as [ | e apps He _ IH]; [done | ].
  rewrite filter_cons. case_decide; [by rewrite IH | done].
Qed.

(** With distinct ids, removing a present id removes exactly one entry. *)
Lemma filter_present_length (apps : list value) (app_id : pystr) :
  NoDup (ids apps) →
  Some (VStr app_id) ∈ ids apps →
  length apps = S (length (filter (λ e, id_is e app_id = false) apps)).
Proof.
  induction apps as [ | e apps IH]; intros Hnd Hin.
  - by apply elem_of_nil in Hin.
  - cbn [ids map] in Hnd, Hin. apply NoDup_cons in Hnd as (Hnotin & Hnd).
    rewrite filter_cons. destruct (id_is e app_id) eqn:E.
    + case_decide; [done | ].
      apply id_is_true in E. rewrite E in Hnotin.
      apply id_is_false_all in Hnotin. by rewrite filter_all.
    + case_decide; [ | done]. cbn [length]. f_equal. apply IH; [done | ].
      apply elem_of_cons in Hin as [Hin | Hin]; [ | done].
      symmetry in Hin. apply id_is_true in Hin. congruence.
Qed.

(** Without the assumption of distinct ids, removing a present id removes
    every entry that carries it: one or more. *)
Lemma filter_present_shorter (apps : list value) (app_id : pystr) :
  Some (VStr app_id) ∈ ids apps →
  (length (filter (λ e, id_is e app_id = false) apps) < length apps)%nat.
Proof.
  induction apps as [ | e apps IH]; intros Hin.
  - by apply elem_of_nil in Hin.
  - rewrite filter_cons. cbn [ids map] in Hin.
    pose proof (length_filter (λ e, id_is e app_id = false) apps).
    case_decide as E; cbn [length]; [ | lia].
    apply elem_of_cons in Hin as [Hin | Hin]; [ | apply IH in Hin; lia].
    symmetry in Hin. apply id_is_true in Hin. congruence.
Qed.

(** [remove_app] up to the test of the two counts. *)
Lemma remove_app_eq
  (w w1 : world) (d : list (pystr * value)) (apps : list value)
  (app_id : pystr) :
  load_catalog w = (Ret (VDict d), w1) →
  dict_get d k_apps = Some (VList apps) →
  Forall has_id apps →
  let kept := filter (λ e, id_is e app_id = false) apps in
  remove_app app_id w
  = if (length kept <? length apps)%nat then
      (run! save_catalog (VDict (dict_set d k_apps (VList kept))) in
       run! print (py "Removed app: " ++ app_id) in
       ret (VBool true)) w1
    else
      (run! print (py "App not found: " ++ app_id) in
       ret (VBool false)) w1.
Proof.
  intros Hload Happs Hids kept.
  unfold remove_app. rewrite (bind_eq _ _ _ _ _ Hload).
  assert (py_getitem (VDict d) k_apps = Ret (VList apps)) as Hitem
    by (cbn [py_getitem]; by rewrite Happs).
  mstep Hitem. mpure. mstep Hitem. mpure.
  mstep (keep_others_filter apps app_id Hids). mpure.
  assert (py_getitem (VDict (dict_set d k_apps (VList kept))) k_apps
          = Ret (VList kept)) as Hitem'
    by (cbn [py_getitem]; by rewrite dict_get_set_eq).
  fold kept. mstep Hitem'. mpure.
  by destruct (length kept <? length apps)%nat.
Qed.

(** C2.  [remove_app] on a catalog whose entries all carry an ["id"].  When
    the id is present, the ids are distinct (the invariant of the catalog)
    and the write goes through, the catalog saved has exactly one entry less
    (the others, in their order) and the call returns [True].  When the id is
    absent, the call returns [False] and leaves the store as it was, without
    any [put_object] call: the only thing it does after loading is print. *)
Theorem remove_app_present_absent
  (w w1 : world) (d : list (pystr * value)) (apps : list value)
  (app_id : pystr) :
  load_catalog w = (Ret (VDict d), w1) →
  dict_get d k_apps = Some (VList apps) →
  Forall has_id apps →
  (Some (VStr app_id) ∈ ids apps → NoDup (ids apps) → call_succeeds w1 →
   ∃ kept w_s,
     kept = filter (λ e, id_is e app_id = false) apps
     ∧ S (length kept) = length apps
     ∧ saved (VDict (dict_set d k_apps (VList kept))) w1 w_s
     ∧ remove_app app_id w
       = (Ret (VBool true), printed (py "Removed app: " ++ app_id) w_s))
  ∧ (Some (VStr app_id) ∉ ids apps →
     remove_app app_id w
     = (Ret (VBool false), printed (py "App not found: " ++ app_id) w1)
     ∧ w_puts (remove_app app_id w).2 = w_puts w
     ∧ w_store (remove_app app_id w).2 = w_store w
     ∧ w_faults (remove_app app_id w).2 = w_faults w1).
Proof.
  intros Hload Happs Hids.
  pose proof (remove_app_eq w w1 d apps app_id Hload Happs Hids) as Heq.
  cbv zeta in Heq. split.
  - intros Hin Hnd Hok.
    pose proof (filter_present_length apps app_id Hnd Hin) as Hlen.
    destruct (save_catalog_saved
                (VDict (dict_set d k_apps
                          (VList (filter (λ e, id_is e app_id = false) apps))))
                w1 Hok) as (w_s & Hsave & Hsaved).
    eexists _, w_s. split; [reflexivity | ]. split; [done | ].
    split; [done | ]. rewrite Heq.
    destruct (Nat.ltb_spec
                (length (filter (λ e, id_is e app_id = false) apps))
                (length apps)); [ | lia].
    by rewrite (bind_eq _ _ _ _ _ Hsave).
  - intros Hout. apply id_is_false_all in Hout.
    rewrite Heq, (filter_all _ _ Hout), Nat.ltb_irrefl.
    pose proof (load_catalog_world w) as Hw. rewrite Hload in Hw.
    cbn in Hw. subst w1. done.
Qed.

Lemma remove_app_present_absent_witness :
  let w := world_with_catalog (VDict [(k_apps, VList [weather_entry])]) in
  (∃ w_s,
     saved (VDict [(k_apps, VList [])]) (after_call w) w_s
     ∧ remove_app (py "weather") w
       = (Ret (VBool true), printed (py "Removed app: weather") w_s))
  ∧ remove_app (py "nonexistent") w
    = (Ret (VBool false),
       printed (py "App not found: nonexistent") (after_call w))
  ∧ w_puts (remove_app (py "nonexistent") w).2 = [].
Proof.
  cbv zeta.
  assert (load_catalog
            (world_with_catalog (VDict [(k_apps, VList [weather_entry])]))
          = (Ret (VDict [(k_apps, VList [weather_entry])]),
             after_call
               (world_with_catalog
                  (VDict [(k_apps, VList [weather_entry])])))) as Hload
    by (vm_compute; reflexivity).
  assert (Forall has_id [weather_entry]) as Hids
    by (repeat constructor; eexists _, _; split; reflexivity).
  split.
  - destruct (remove_app_present_absent _ _ _ _ (py "weather")
                Hload eq_refl Hids) as [H _].
    destruct H as (kept & w_s & -> & _ & Hsaved & Hrm).
    + apply list_elem_of_In. left. reflexivity.
    + repeat constructor. apply not_elem_of_nil.
    + reflexivity.
    + exists w_s. split; [exact Hsaved | exact Hrm].
  - destruct (remove_app_present_absent _ _ _ _ (py "nonexistent")
                Hload eq_refl Hids) as [_ H].
    destruct H as (Hrm & Hputs & _).
    + intros Hin. apply list_elem_of_In in Hin. destruct Hin as [Hin | []].
      discriminate Hin.
    + split; [exact Hrm | exact Hputs].
Defined.

(** ** Sorting *)

Lemma str_ltb_asym (a b : pystr) : str_ltb a b = true → str_ltb b a = false.
Proof.
  revert b. induction a as [ | x a IH]; intros [ | y b]; cbn; try done.
  destruct (N.ltb_spec x y), (N.ltb_spec y x), (N.eqb_spec x y),
    (N.eqb_spec y x); cbn; try lia; try done.
  apply IH.
Qed.

(** [<=] on [str] is transitive. *)
Lemma str_leb_trans (a b c : pystr) :
  str_leb a b = true → str_leb b c = true → str_leb a c = true.
Proof.
  unfold str_leb. rewrite !negb_true_iff.
  revert b c. induction a as [ | x a IH]; intros [ | y b] [ | z c]; cbn;
    try done.
  destruct (N.ltb_spec y x), (N.ltb_spec z y), (N.ltb_spec z x),
    (N.eqb_spec y x), (N.eqb_spec z y), (N.eqb_spec z x);
    cbn; try lia; try done.
  apply IH.
Qed.

(** The empty text is below every text. *)
Lemma str_leb_nil (a : pystr) : str_leb [] a = true.
Proof. unfold str_leb. by destruct a. Qed.

Lemma str_leb_nil_inv (a : pystr) : str_leb a [] = true → a = [].
Proof. unfold str_leb. by destruct a. Qed.

Section insertion_sort.
Context {K : Type} (ltb : K → K → bool).
Hypothesis ltb_asym : ∀ a b, ltb a b = true → ltb b a = false.
Hypothesis leb_trans :
  ∀ a b c, ltb b a = false → ltb c b = false → ltb c a = false.

(** [a] may stand before [b]: [b]'s key is not smaller. *)
Definition key_le (a b : K * value) : Prop := ltb b.1 a.1 = false.

Lemma insert_by_perm (x : K * value) (l : list (K * value)) :
  insert_by ltb x l ≡ₚ x :: l.
Proof.
  induction l as [ | y l IH]; cbn [insert_by]; [done | ].
  destruct (ltb y.1 x.1); [ | done].
  rewrite IH. apply Permutation_swap.
Qed.

Lemma sort_by_perm (l : list (K * value)) : sort_by ltb l ≡ₚ l.
Proof.
  induction l as [ | x l IH]; cbn; [done | ].
  fold (sort_by ltb l). by rewrite insert_by_perm, IH.
Qed.

Lemma insert_by_sorted (x : K * value) (l : list (K * value)) :
  StronglySorted key_le l → StronglySorted key_le (insert_by ltb x l).
Proof.
  induction 1 as [ | y l Hl IH Hy]; cbn [insert_by].
  - repeat constructor.
  - destruct (ltb y.1 x.1) eqn:E.
    + constructor; [exact IH | ].
      apply Forall_forall. intros z Hz.
      rewrite (insert_by_perm x l) in Hz.
      apply elem_of_cons in Hz as [-> | Hz].
      * unfold key_le. by apply ltb_asym.
      * rewrite Forall_forall in Hy. by apply Hy.
    + constructor; [by constructor | ].
      constructor; [exact E | ].
      eapply Forall_impl; [exact Hy | ].
      intros z Hz. unfold key_le in *. by eapply leb_trans.
Qed.

Lemma sort_by_sorted (l : list (K * value)) :
  StronglySorted key_le (sort_by ltb l).
Proof.
  induction l as [ | x l IH]; cbn; [constructor | ].
  by apply insert_by_sorted.
Qed.

Lemma sort_by_singleton (x : K * value) : sort_by ltb [x] = [x].
Proof. reflexivity. Qed.
End insertion_sort.

(** ** [list_apps] *)

(** The text under a key of an entry, or [dflt] when the entry has no text
    there. *)
Definition text_field (e : value) (k : pystr) (dflt : pystr) : pystr :=
  match field e k with
  | Some (VStr s) => s
  | _ => dflt
  end.

(** The sort key of an entry: its ["created_at"], the empty text when it has
    none. *)
Definition created_key (e : value) : pystr := text_field e k_created_at [].

Definition is_text (o : option value) : Prop := ∃ s, o = Some (VStr s).

(** An entry that [list_apps] can show: an object whose ["id"], ["name"] and
    ["path"] are text, and whose ["icon"] and ["created_at"], when present,
    are text. *)
Definition listable (e : value) : Prop :=
  (∃ d, e = VDict d)
  ∧ is_text (field e k_id) ∧ is_text (field e k_name)
  ∧ is_text (field e k_path)
  ∧ (field e k_icon = None ∨ is_text (field e k_icon))
  ∧ (field e k_created_at = None ∨ is_text (field e k_created_at)).

(** The line of the table for an entry. *)
Definition row_text (e : value) : pystr :=
  ljust (text_field e k_id []) 20 ++ [32]
  ++ ljust (text_field e k_icon (py "?")) 4 ++ [32]
  ++ ljust (text_field e k_name []) 25 ++ [32]
  ++ text_field e k_path [].

(** The entries in the order of the listing. *)
Definition sorted_apps (apps : list value) : list value :=
  map snd (sort_by str_ltb (map (λ e, (created_key e, e)) apps)).

(** What [list_apps] prints for the entries [apps]. *)
Definition listing (apps : list value) : list pystr :=
  match apps with
  | [] => [py "Catalog is empty"]
  | _ :: _ =>
    [table_header; repeat 45 80] ++ map row_text (sorted_apps apps)
    ++ [10 :: py "Total: " ++ nat_str (length apps) ++ py " apps"]
  end.

Lemma format_row_listable (e : value) :
  listable e → format_row e = Ret (row_text e).
Proof.
  intros ((d & ->) & (i & Hi) & (n & Hn) & (p & Hp) & Hicon & _).
  unfold format_row, row_text, text_field. cbn [field] in *.
  cbn [py_getitem py_get]. rewrite Hi, Hn, Hp. cbn [obind format_left py_str].
  destruct Hicon as [-> | (ic & ->)]; reflexivity.
Qed.

Lemma print_rows_listable (rows : list value) (w : world) :
  Forall listable rows →
  print_rows rows w
  = (Ret tt, World (w_store w) (w_faults w) (w_clock w) (w_ticks w)
                   (w_stdout w ++ map row_text rows) (w_puts w)).
Proof.
  intros H. revert w. induction H as [ | e rows He _ IH]; intros w.
  - cbn. rewrite app_nil_r. by destruct w.
  - cbn [print_rows]. mstep (format_row_listable e He).
    unfold bind at 1. cbn [print]. rewrite IH. cbn. by rewrite <- app_assoc.
Qed.

Lemma with_keys_listable (apps : list value) :
  Forall listable apps →
  with_keys created_at_key apps
  = Ret (map (λ e, (VStr (created_key e), e)) apps).
Proof.
  induction 1 as [ | e apps He _ IH]; [done | ].
  cbn [with_keys map]. rewrite IH.
  destruct He as ((d & ->) & _ & _ & _ & _ & Hc).
  unfold created_at_key, created_key, text_field. cbn [field py_get] in *.
  destruct Hc as [-> | (s & ->)]; reflexivity.
Qed.

Lemma mapM_key_str (apps : list value) :
  mapM (λ kx : value * value, k ← key_str kx.1; Some (k, kx.2))
       (map (λ e, (VStr (created_key e), e)) apps)
  = Some (map (λ e, (created_key e, e)) apps).
Proof.
  apply mapM_Some_2.
  induction apps as [ | e apps IH]; cbn [map]; by constructor.
Qed.

Lemma py_sorted_listable (apps : list value) :
  Forall listable apps →
  py_sorted created_at_key (VList apps) = Ret (sorted_apps apps).
Proof.
  intros H. unfold py_sorted. cbn [py_iter obind].
  rewrite (with_keys_listable apps H). cbn [obind].
  unfold sorted_with_keys, sorted_apps. rewrite length_map.
  case_bool_decide as Hlen.
  - f_equal. destruct apps as [ | e [ | e' apps]]; [done | done | ].
    cbn in Hlen. lia.
  - by rewrite mapM_key_str.
Qed.

Lemma StronglySorted_lookup_lt {A} (R : A → A → Prop) (l : list A)
  (i j : nat) (a b : A) :
  StronglySorted R l → (i < j)%nat → l !! i = Some a → l !! j = Some b →
  R a b.
Proof.
  intros H. revert i j. induction H as [ | x l Hl IH Hx]; intros i j Hij Hi Hj.
  - done.
  - destruct j as [ | j]; [lia | ]. cbn in Hj. destruct i as [ | i].
    + injection Hi as <-. rewrite Forall_forall in Hx. apply Hx.
      by eapply list_elem_of_lookup_2.
    + cbn in Hi. apply (IH i j); [lia | done | done].
Qed.

Lemma StronglySorted_map {A B} (R : A → A → Prop) (R' : B → B → Prop)
  (P : A → Prop) (f : A → B) (l : list A) :
  (∀ a b, P a → P b → R a b → R' (f a) (f b)) →
  Forall P l → StronglySorted R l → StronglySorted R' (map f l).
Proof.
  intros HR HP H. induction H as [ | x l Hl IH Hx]; [constructor | ].
  apply Forall_cons in HP as (Px & HP). cbn [map].
  constructor; [by apply IH | ].
  apply Forall_map. rewrite Forall_forall in Hx, HP |- *.
  intros y Hy. apply HR; [done | by apply HP | by apply Hx].
Qed.

Lemma sorted_apps_perm (apps : list value) : sorted_apps apps ≡ₚ apps.
Proof.
  unfold sorted_apps. rewrite sort_by_perm, map_map. cbn. by rewrite map_id.
Qed.

(** The entries of the listing have ascending keys. *)
Lemma sorted_apps_sorted (apps : list value) :
  StronglySorted (λ a b, str_leb (created_key a) (created_key b) = true)
                 (sorted_apps apps).
Proof.
  unfold sorted_apps.
  apply (StronglySorted_map (key_le str_ltb) _
           (λ p, p.1 = created_key p.2)).
  - intros [ka a] [kb b] Ha Hb Hle. cbn in *. subst ka kb.
    unfold key_le in Hle. cbn in Hle. unfold str_leb. by rewrite Hle.
  - rewrite sort_by_perm. by apply Forall_map, Forall_true.
  - apply sort_by_sorted.
    + apply str_ltb_asym.
    + intros a b c Hab Hbc.
      pose proof (str_leb_trans a b c) as H. unfold str_leb in H.
      rewrite Hab, Hbc in H. specialize (H eq_refl eq_refl).
      by apply negb_true_iff in H.
Qed.

(** What [list_apps] prints and returns on a catalog of entries it can
    show. *)
Lemma list_apps_listing
  (w w1 : world) (d : list (pystr * value)) (apps : list value) :
  load_catalog w = (Ret (VDict d), w1) →
  dict_get d k_apps = Some (VList apps) →
  Forall listable apps →
  list_apps w
  = (Ret VNone,
     World (w_store w1) (w_faults w1) (w_clock w1) (w_ticks w1)
           (w_stdout w ++ listing apps) (w_puts w1)).
Proof.
  intros Hload Happs Hlist.
  rewrite <- (load_catalog_stdout _ _ _ Hload).
  unfold list_apps. rewrite (bind_eq _ _ _ _ _ Hload).
  assert (py_getitem (VDict d) k_apps = Ret (VList apps)) as Hitem
    by (cbn [py_getitem]; by rewrite Happs).
  mstep Hitem. destruct apps as [ | e apps'].
  - cbn. by destruct w1.
  - cbn [py_truth length negb bool_decide decide_rel].
    rewrite bool_decide_eq_false_2 by done. cbn [negb].
    unfold bind at 1. cbn [print]. unfold bind at 1. cbn [print].
    mstep Hitem. mstep (py_sorted_listable _ Hlist).
    assert (Forall listable (sorted_apps (e :: apps'))) as Hrows
      by (by rewrite sorted_apps_perm).
    mstep (print_rows_listable (sorted_apps (e :: apps'))
             (World (w_store w1) (w_faults w1) (w_clock w1) (w_ticks w1)
                    ((w_stdout w1 ++ [table_header]) ++ [repeat 45 80])
                    (w_puts w1)) Hrows).
    mstep Hitem. mpure. unfold bind, print, ret, listing.
    cbn [w_store w_faults w_clock w_ticks w_stdout w_puts length].
    do 2 f_equal. rewrite <- !app_assoc. reflexivity.
Qed.

(** C5.  [list_apps] on a catalog of entries it can show prints, between the
    two lines of the header and the line of the total, one row per entry:
    the entries of the catalog (a permutation of them, whatever their order
    in the document), with ascending ["created_at"], where an entry without
    ["created_at"] counts as having the empty text and so precedes every
    entry that has a non-empty one.  For an empty catalog it prints
    ["Catalog is empty"]. *)
Theorem list_apps_sorted
  (w w1 : world) (d : list (pystr * value)) (apps : list value) :
  load_catalog w = (Ret (VDict d), w1) →
  dict_get d k_apps = Some (VList apps) →
  Forall listable apps →
  let rows := sorted_apps apps in
  rows ≡ₚ apps
  ∧ StronglySorted (λ a b, str_leb (created_key a) (created_key b) = true)
                   rows
  ∧ (∀ a, field a k_created_at = None → created_key a = [])
  ∧ (∀ i j a b, rows !! i = Some a → rows !! j = Some b →
                field a k_created_at = None → created_key b ≠ [] →
                (i < j)%nat)
  ∧ list_apps w
    = (Ret VNone,
       World (w_store w1) (w_faults w1) (w_clock w1) (w_ticks w1)
             (w_stdout w
              ++ match apps with
                 | [] => [py "Catalog is empty"]
                 | _ :: _ =>
                   [table_header; repeat 45 80] ++ map row_text rows
                   ++ [10 :: py "Total: " ++ nat_str (length apps)
                          ++ py " apps"]
                 end)
             (w_puts w1)).
Proof.
  intros Hload Happs Hlist rows.
  pose proof (sorted_apps_sorted apps) as Hsorted. fold rows in Hsorted.
  assert (∀ a, field a k_created_at = None → created_key a = []) as Hmiss.
  { intros a Ha. unfold created_key, text_field. by rewrite Ha. }
  split; [apply sorted_apps_perm | ]. split; [exact Hsorted | ].
  split; [exact Hmiss | ]. split.
  - intros i j a b Hi Hj Ha Hb.
    destruct (Nat.lt_trichotomy i j) as [Hlt | [-> | Hgt]]; [done | | ].
    + rewrite Hi in Hj. injection Hj as <-. by apply Hmiss in Ha.
    + pose proof (StronglySorted_lookup_lt _ _ _ _ _ _ Hsorted Hgt Hj Hi) as H.
      cbn in H. rewrite (Hmiss a Ha) in H. by apply str_leb_nil_inv in H.
  - rewrite (list_apps_listing w w1 d apps Hload Happs Hlist).
    by destruct apps.
Qed.

(** A catalog with three entries out of order, the second one without
    ["created_at"]. *)
Definition unordered_catalog : value :=
  VDict [(k_apps,
          VList [new_entry (py "zeta") (py "Zeta") (py "Z") (py "Last")
                           (py "/apps/zeta/index.html") false
                           (py "2026-03-01T00:00:00+00:00");
                 VDict [(k_id, VStr (py "legacy"));
                        (k_name, VStr (py "Legacy"));
                        (k_path, VStr (py "/apps/legacy/index.html"))];
                 new_entry (py "beta") (py "Beta") (py "B") (py "First")
                           (py "/apps/beta/index.html") true
                           (py "2026-01-15T00:00:00+00:00")])].

(** Settles [listable] for a concrete entry. *)
Ltac solve_listable :=
  split; [eexists; reflexivity | ];
  repeat (split; [eexists; reflexivity | ]);
  split; first [left; reflexivity | right; eexists; reflexivity].

Lemma list_apps_sorted_witness :
  map (λ e, text_field e k_id [])
      (sorted_apps (default [] (catalog_apps unordered_catalog)))
  = [py "legacy"; py "beta"; py "zeta"]
  ∧ (list_apps (world_with_catalog unordered_catalog)).1 = Ret VNone
  ∧ w_stdout (list_apps (world_with_catalog unordered_catalog)).2
    = [table_header; repeat 45 80;
       py "legacy               ?    Legacy                    /apps/legacy/index.html";
       py "beta                 B    Beta                      /apps/beta/index.html";
       py "zeta                 Z    Zeta                      /apps/zeta/index.html";
       10 :: py "Total: 3 apps"].
Proof.
  split; [vm_compute; reflexivity | ].
  pose proof (list_apps_sorted
                (world_with_catalog unordered_catalog)
                (after_call (world_with_catalog unordered_catalog))
                [(k_apps, VList (default [] (catalog_apps unordered_catalog)))]
                (default [] (catalog_apps unordered_catalog))) as H.
  destruct H as (_ & _ & _ & _ & Hlist).
  - vm_compute. reflexivity.
  - reflexivity.
  - repeat (apply Forall_cons_2; [solve_listable | ]). apply Forall_nil_2.
  - rewrite Hlist. split; [reflexivity | vm_compute; reflexivity].
Defined.

(** ** Round trip through [json.dumps] and [json.loads] *)

Lemma hex_val_digit (d : N) : d < 16 → hex_val (hex_digit d) = Some d.
Proof.
  intros Hd. unfold hex_val, hex_digit, is_digit.
  destruct (N.ltb_spec d 10).
  - destruct (N.leb_spec 48 (48 + d)), (N.leb_spec (48 + d) 57); try lia.
    cbn. f_equal. lia.
  - destruct (N.leb_spec 48 (87 + d)), (N.leb_spec (87 + d) 57); try lia.
    cbn. destruct (N.leb_spec 97 (87 + d)), (N.leb_spec (87 + d) 102); try lia.
    cbn. f_equal. lia.
Qed.

Lemma hex4_val_hex4 (c : N) :
  c < 65536 →
  hex4_val (hex_digit (c / 4096)) (hex_digit ((c / 256) mod 16))
           (hex_digit ((c / 16) mod 16)) (hex_digit (c mod 16)) = Some c.
Proof.
  intros Hc. unfold hex4_val.
  assert (c / 4096 < 16) by (apply N.Div0.div_lt_upper_bound; lia).
  rewrite !hex_val_digit by (try apply N.mod_lt; lia).
  cbn. f_equal.
  pose proof (N.div_mod' c 16) as H0.
  pose proof (N.div_mod' (c / 16) 16) as H1.
  pose proof (N.div_mod' (c / 256) 16) as H2.
  replace (c / 16 / 16) with (c / 256) in H1
    by (rewrite N.Div0.div_div; reflexivity).
  replace (c / 256 / 16) with (c / 4096) in H2
    by (rewrite N.Div0.div_div; reflexivity).
  lia.
Qed.

Lemma land_shiftl_low (a b : N) : b < 1024 → N.land (N.shiftl a 10) b = 0.
Proof.
  intros Hb. apply N.bits_inj. intros i.
  rewrite N.land_spec, N.bits_0.
  destruct (N.lt_ge_cases i 10) as [Hi | Hi].
  - by rewrite N.shiftl_spec_low.
  - destruct (N.eq_dec b 0) as [-> | Hb0].
    + by rewrite N.bits_0, andb_false_r.
    + rewrite (N.bits_above_log2 b i), andb_false_r; [done | ].
      apply N.log2_lt_pow2; [lia | ].
      apply N.lt_le_trans with (2 ^ 10); [exact Hb | ].
      apply N.pow_le_mono_r; lia.
Qed.

Lemma lor_shiftl_add (a b : N) :
  b < 1024 → N.lor (N.shiftl a 10) b = a * 1024 + b.
Proof.
  intros Hb. rewrite <- N.lxor_lor by by apply land_shiftl_low.
  rewrite <- N.add_nocarry_lxor by by apply land_shiftl_low.
  by rewrite N.shiftl_mul_pow2.
Qed.

(** Splitting a character beyond the BMP into its surrogates and joining
    them gives the character back. *)
Lemma join_surrogates_split (c : N) :
  65536 ≤ c → c ≤ 1114111 →
  join_surrogates (55296 + ((c - 65536) / 1024) mod 1024)
                  (56320 + (c - 65536) mod 1024) = c.
Proof.
  intros Hlo Hhi. unfold join_surrogates.
  assert ((c - 65536) mod 1024 < 1024) by (apply N.mod_lt; lia).
  assert ((c - 65536) / 1024 < 1024)
    by (apply N.Div0.div_lt_upper_bound; lia).
  rewrite (N.mod_small ((c - 65536) / 1024)) by done.
  pose proof (N.div_mod' (c - 65536) 1024) as Hdm.
  set (hi := (c - 65536) / 1024) in *. set (lo := (c - 65536) mod 1024) in *.
  rewrite (N.add_comm 55296 hi), (N.add_comm 56320 lo), !N.add_sub.
  rewrite lor_shiftl_add by done. lia.
Qed.

(** *** Strings *)

Definition starts_with_low (s : pystr) : bool :=
  match s with
  | c :: _ => is_low_surrogate c
  | [] => false
  end.

(** Text that [json.loads] can have produced and that survives a round trip:
    code points within Unicode, and no high surrogate directly followed by a
    low one (the scanner joins such a pair of escapes into one character, so
    it never yields the two side by side). *)
Fixpoint wf_str (s : pystr) : bool :=
  match s with
  | [] => true
  | c :: t =>
    (c <=? 1114111) && negb (is_high_surrogate c && starts_with_low t)
    && wf_str t
  end.

(** No backslash-u escape of a low surrogate is at the head of [X]. *)
Definition no_low_escape_ahead (X : pystr) : Prop :=
  ∀ a b g1 g2 g3 g4 t3,
    X = a :: b :: g1 :: g2 :: g3 :: g4 :: t3 → a = 92 → b = 117 →
    ∃ u, hex4_val g1 g2 g3 g4 = Some u ∧ is_low_surrogate u = false.

Lemma scan_string_plain (c : N) (X : pystr) :
  c ≠ 34 → c ≠ 92 → 32 ≤ c →
  scan_string (c :: X) = pmap (cons c) (scan_string X).
Proof.
  intros H1 H2 H3. cbn [scan_string].
  destruct (N.eqb_spec c 34); [done | ].
  destruct (N.eqb_spec c 92); [done | ].
  destruct (N.ltb_spec c 32); [lia | done].
Qed.

Lemma scan_string_u_single (h1 h2 h3 h4 uni : N) (X : pystr) :
  hex4_val h1 h2 h3 h4 = Some uni →
  is_high_surrogate uni = false ∨ no_low_escape_ahead X →
  scan_string (92 :: 117 :: h1 :: h2 :: h3 :: h4 :: X)
  = pmap (cons uni) (scan_string X).
Proof.
  intros Hhex Hcase.
  change (scan_string (92 :: 117 :: h1 :: h2 :: h3 :: h4 :: X))
    with (match hex4_val h1 h2 h3 h4 with
          | None => PErr
          | Some uni =>
            if is_high_surrogate uni then
              match X with
              | a :: b :: g1 :: g2 :: g3 :: g4 :: t3 =>
                if (a =? 92) && (b =? 117) then
                  match hex4_val g1 g2 g3 g4 with
                  | None => PErr
                  | Some uni2 =>
                    if is_low_surrogate uni2
                    then pmap (cons (join_surrogates uni uni2)) (scan_string t3)
                    else pmap (cons uni) (scan_string X)
                  end
                else pmap (cons uni) (scan_string X)
              | _ => pmap (cons uni) (scan_string X)
              end
            else pmap (cons uni) (scan_string X)
          end).
  rewrite Hhex. destruct (is_high_surrogate uni) eqn:Ehigh; [ | done].
  destruct Hcase as [? | Hahead]; [done | ].
  destruct X as [ | a [ | b [ | g1 [ | g2 [ | g3 [ | g4 t3]]]]]]; try done.
  destruct (N.eqb_spec a 92) as [-> | ]; [ | done].
  destruct (N.eqb_spec b 117) as [-> | ]; [ | done].
  cbn [andb].
  destruct (Hahead _ _ _ _ _ _ _ eq_refl eq_refl eq_refl) as (u & -> & ->).
  done.
Qed.

Lemma scan_string_u_pair (h1 h2 h3 h4 g1 g2 g3 g4 hi lo : N) (X : pystr) :
  hex4_val h1 h2 h3 h4 = Some hi → is_high_surrogate hi = true →
  hex4_val g1 g2 g3 g4 = Some lo → is_low_surrogate lo = true →
  scan_string (92 :: 117 :: h1 :: h2 :: h3 :: h4
               :: 92 :: 117 :: g1 :: g2 :: g3 :: g4 :: X)
  = pmap (cons (join_surrogates hi lo)) (scan_string X).
Proof.
  intros Hh Hhi Hg Hlo.
  change (scan_string (92 :: 117 :: h1 :: h2 :: h3 :: h4
                       :: 92 :: 117 :: g1 :: g2 :: g3 :: g4 :: X))
    with (match hex4_val h1 h2 h3 h4 with
          | None => PErr
          | Some uni =>
            if is_high_surrogate uni then
              match hex4_val g1 g2 g3 g4 with
              | None => PErr
              | Some uni2 =>
                if is_low_surrogate uni2
                then pmap (cons (join_surrogates uni uni2)) (scan_string X)
                else pmap (cons uni)
                          (scan_string (92 :: 117 :: g1 :: g2 :: g3 :: g4 :: X))
              end
            else pmap (cons uni)
                      (scan_string (92 :: 117 :: g1 :: g2 :: g3 :: g4 :: X))
          end).
  by rewrite Hh, Hhi, Hg, Hlo.
Qed.

(** The four forms of an escaped character, each with what the scanner makes
    of it. *)
Lemma escape_cp_cases (c : N) :
  (∃ e, escape_cp c = [92; e] ∧ e ≠ 117
        ∧ ∀ X, scan_string (92 :: e :: X) = pmap (cons c) (scan_string X))
  ∨ (escape_cp c = [c] ∧ c ≠ 34 ∧ c ≠ 92 ∧ 32 ≤ c)
  ∨ (c < 65536 ∧ escape_cp c = 92 :: 117 :: hex4 c)
  ∨ (65536 ≤ c
     ∧ escape_cp c
       = (92 :: 117 :: hex4 (55296 + ((c - 65536) / 1024) mod 1024))
         ++ (92 :: 117 :: hex4 (56320 + (c - 65536) mod 1024))).
Proof.
  destruct (N.le_gt_cases 65536 c) as [Hc | Hc].
  { right. right. right. split; [done | by apply escape_cp_astral]. }
  unfold escape_cp.
  destruct (N.eqb_spec c 34) as [-> | ];
    [left; exists 34; repeat split; done | ].
  destruct (N.eqb_spec c 92) as [-> | ];
    [left; exists 92; repeat split; done | ].
  destruct (N.eqb_spec c 10) as [-> | ];
    [left; exists 110; repeat split; done | ].
  destruct (N.eqb_spec c 13) as [-> | ];
    [left; exists 114; repeat split; done | ].
  destruct (N.eqb_spec c 9) as [-> | ];
    [left; exists 116; repeat split; done | ].
  destruct (N.eqb_spec c 8) as [-> | ];
    [left; exists 98; repeat split; done | ].
  destruct (N.eqb_spec c 12) as [-> | ];
    [left; exists 102; repeat split; done | ].
  destruct (N.leb_spec 32 c), (N.leb_spec c 126); cbn [andb].
  - right. left. done.
  - right. right. left. destruct (N.ltb_spec c 65536); [done | lia].
  - right. right. left. destruct (N.ltb_spec c 65536); [done | lia].
  - right. right. left. destruct (N.ltb_spec c 65536); [done | lia].
Qed.

Lemma no_low_escape_ahead_escaped (s : pystr) (rest : pystr) :
  starts_with_low s = false →
  no_low_escape_ahead (concat (map escape_cp s) ++ 34 :: rest).
Proof.
  intros Hlow a b g1 g2 g3 g4 t3 HX -> ->.
  destruct s as [ | c s]; [cbn in HX; by injection HX | ].
  cbn [map concat starts_with_low] in HX, Hlow. rewrite <- app_assoc in HX.
  destruct (escape_cp_cases c)
    as [(e & E & He & _) | [(E & _ & Hc & _) | [(Hc & E) | (Hc & E)]]];
    rewrite E in HX.
  - cbn in HX. injection HX as ->. done.
  - cbn in HX. injection HX as ->. done.
  - unfold hex4 in HX. cbn in HX. injection HX as <- <- <- <- _.
    exists c. split; [by apply hex4_val_hex4 | done].
  - unfold hex4 in HX. cbn in HX. injection HX as <- <- <- <- _.
    assert (((c - 65536) / 1024) mod 1024 < 1024) by (apply N.mod_lt; lia).
    set (k1 := ((c - 65536) / 1024) mod 1024) in *.
    eexists. split; [apply hex4_val_hex4; lia | ].
    unfold is_low_surrogate.
    destruct (N.leb_spec 56320 (55296 + k1)); [lia | done].
Qed.

(** The scanner reads an escaped text back. *)
Lemma scan_string_escaped (s : pystr) (rest : pystr) :
  wf_str s = true →
  scan_string (concat (map escape_cp s) ++ 34 :: rest) = POk s rest.
Proof.
  induction s as [ | c s IH]; intros Hwf; [done | ].
  cbn [wf_str] in Hwf. apply andb_true_iff in Hwf as (Hwf & Hs).
  apply andb_true_iff in Hwf as (Hc & Hpair).
  apply N.leb_le in Hc. specialize (IH Hs).
  cbn [map concat]. rewrite <- app_assoc.
  destruct (escape_cp_cases c)
    as [(e & E & _ & He) | [(E & ? & ? & ?) | [(Hlt & E) | (Hge & E)]]];
    rewrite E.
  - cbn [app]. by rewrite He, IH.
  - cbn [app]. by rewrite scan_string_plain, IH.
  - unfold hex4. cbn [app].
    rewrite (scan_string_u_single _ _ _ _ c); [by rewrite IH | | ].
    + by apply hex4_val_hex4.
    + destruct (is_high_surrogate c); [ | by left].
      right. apply no_low_escape_ahead_escaped.
      by destruct (starts_with_low s).
  - assert (((c - 65536) / 1024) mod 1024 < 1024) as H1
      by (apply N.mod_lt; lia).
    assert ((c - 65536) mod 1024 < 1024) as H2 by (apply N.mod_lt; lia).
    rewrite <- (join_surrogates_split c Hge Hc) at 3.
    set (k1 := ((c - 65536) / 1024) mod 1024) in *.
    set (k2 := (c - 65536) mod 1024) in *.
    unfold hex4. cbn [app].
    rewrite (scan_string_u_pair _ _ _ _ _ _ _ _ (55296 + k1) (56320 + k2)).
    + by rewrite IH.
    + apply hex4_val_hex4. lia.
    + unfold is_high_surrogate.
      destruct (N.leb_spec 55296 (55296 + k1)),
        (N.leb_spec (55296 + k1) 56319); try lia; done.
    + apply hex4_val_hex4. lia.
    + unfold is_low_surrogate.
      destruct (N.leb_spec 56320 (56320 + k2)),
        (N.leb_spec (56320 + k2) 57343); try lia; done.
Qed.

(** *** Integers *)

(** What may follow a number in the text without changing how it reads: no
    digit, and no fraction or exponent. *)
Definition value_end (rest : pystr) : bool :=
  negb (starts_with_digit rest) && negb (float_tail rest).

Lemma take_digits_uint_chars (u : Decimal.uint) (rest : pystr) :
  starts_with_digit rest = false →
  take_digits (uint_chars u ++ rest) = (u, rest).
Proof.
  intros Hrest. induction u; cbn [uint_chars app take_digits];
    try (rewrite IHu; reflexivity).
  destruct rest as [ | c rest]; [done | ].
  cbn [starts_with_digit] in Hrest. cbn [take_digits]. by rewrite Hrest.
Qed.

(** The numeral of a positive number starts with a digit that is not zero. *)
Lemma to_uint_head (p : positive) :
  ∃ d ds, uint_chars (Pos.to_uint p) = d :: ds
          ∧ is_digit d = true ∧ d ≠ 48.
Proof.
  pose proof (DecimalPos.Unsigned.to_of (Pos.to_uint p)) as Hnorm.
  rewrite DecimalPos.Unsigned.of_to in Hnorm. cbn [N.to_uint] in Hnorm.
  pose proof (DecimalPos.Unsigned.to_uint_nonzero p) as Hnz.
  destruct (Pos.to_uint p) as [ | u | u | u | u | u | u | u | u | u | u] eqn:E;
    try (eexists _, _; split; [reflexivity | split; [reflexivity | lia]]).
  - by destruct (DecimalPos.Unsigned.to_uint_nonnil p).
  - exfalso. rewrite DecimalFacts.unorm_D0 in Hnorm.
    unfold unorm in Hnorm. destruct (nzhead u) eqn:En;
      try discriminate Hnorm.
    + injection Hnorm as Hu. subst u. by apply Hnz.
    + by apply DecimalFacts.nzhead_nonzero in En.
Qed.

Lemma scan_number_uint (p : positive) (rest : pystr) :
  value_end rest = true →
  scan_number (uint_chars (Pos.to_uint p) ++ rest)
  = POk (VInt (Z.pos p)) rest.
Proof.
  intros Hend. apply andb_true_iff in Hend as (Hd & Hf).
  apply negb_true_iff in Hd, Hf.
  pose proof (take_digits_uint_chars (Pos.to_uint p) rest Hd) as Htake.
  destruct (to_uint_head p) as (d & ds & E & Hdig & Hnz).
  rewrite E in Htake |- *. cbn [app] in Htake |- *. unfold scan_number.
  destruct (N.eqb_spec d 45) as [-> | _]; [done | ].
  rewrite Hdig. destruct (N.eqb_spec d 48); [done | ].
  rewrite Htake, Hf. unfold Z.of_uint.
  by rewrite DecimalPos.Unsigned.of_to.
Qed.

Lemma scan_number_int_repr (z : Z) (rest : pystr) :
  value_end rest = true →
  scan_number (int_repr z ++ rest) = POk (VInt z) rest.
Proof.
  intros Hend. destruct z as [ | p | p]; unfold int_repr; cbn [Z.to_int].
  - apply andb_true_iff in Hend as (_ & Hf). apply negb_true_iff in Hf.
    cbn. by rewrite Hf.
  - by apply scan_number_uint.
  - pose proof (scan_number_uint p rest Hend) as H.
    destruct (to_uint_head p) as (d & ds & E & Hdig & Hnz).
    rewrite E in H |- *. cbn [app] in H |- *. unfold scan_number in *.
    cbn [N.eqb Pos.eqb].
    destruct (N.eqb_spec d 45) as [-> | _]; [done | ].
    rewrite Hdig in H |- *. destruct (N.eqb_spec d 48); [done | ].
    destruct (take_digits (d :: ds ++ rest)) as [u r].
    destruct (float_tail r); [done | ]. by injection H as -> ->.
Qed.

(** The scanner takes the numeral of an [int] for a number. *)
Lemma parse_value_int_repr (fuel : nat) (z : Z) (rest : pystr) :
  value_end rest = true →
  parse_value (S fuel) (int_repr z ++ rest) = POk (VInt z) rest.
Proof.
  intros Hend. rewrite <- (scan_number_int_repr z rest Hend).
  assert (∀ d ds, is_digit d = true →
                  parse_value (S fuel) (d :: ds) = scan_number (d :: ds))
    as Hdigit.
  { intros d ds Hd. unfold is_digit in Hd.
    apply andb_true_iff in Hd as (H1 & H2).
    apply N.leb_le in H1, H2. cbn [parse_value].
    repeat (match goal with
            | |- context [?a =? ?b] => destruct (N.eqb_spec a b); [lia | ]
            end).
    reflexivity. }
  destruct z as [ | p | p]; unfold int_repr; cbn [Z.to_int].
  - by apply Hdigit.
  - destruct (to_uint_head p) as (d & ds & -> & Hdig & _). by apply Hdigit.
  - destruct (to_uint_head p) as (d & ds & -> & Hdig & _).
    cbn [app uint_chars parse_value N.eqb Pos.eqb andb].
    unfold is_digit in Hdig. apply andb_true_iff in Hdig as (H1 & H2).
    apply N.leb_le in H1, H2. cbn [strip_prefix].
    destruct (N.eqb_spec 73 d); [lia | ]. reflexivity.
Qed.

(** *** Containers *)

(** Values that survive a round trip: their texts are [wf_str] and their
    dictionaries hold each key once (as every Python [dict] does). *)
Fixpoint wf_value (v : value) : bool :=
  match v with
  | VStr s => wf_str s
  | VList l => forallb wf_value l
  | VDict d =>
    forallb (λ kv, wf_str kv.1 && wf_value kv.2) d
    && bool_decide (NoDup (map fst d))
  | _ => true
  end.

(** The number of steps the scanner needs for a value. *)
Fixpoint size (v : value) : nat :=
  match v with
  | VList l => S (list_sum (map (λ x, S (size x)) l))
  | VDict d => S (list_sum (map (λ kv, S (size kv.2)) d))
  | _ => 1
  end.

(** A character that can start the text of a value. *)
Definition value_start (c : N) : bool :=
  (c =? 34) || (c =? 123) || (c =? 91) || (c =? 110) || (c =? 116)
  || (c =? 102) || (c =? 45) || is_digit c.

Lemma value_start_spec (c : N) :
  value_start c = true →
  is_ws c = false ∧ c ≠ 93 ∧ c ≠ 125 ∧ c ≠ 44 ∧ c ≠ 58.
Proof.
  unfold value_start, is_ws, is_digit. intros H.
  repeat (match goal with
          | H : (_ || _) = true |- _ => apply orb_true_iff in H as [H | H]
          | H : (_ && _) = true |- _ => apply andb_true_iff in H as [? ?]
          | H : (_ =? _) = true |- _ => apply N.eqb_eq in H; subst
          | H : (_ <=? _) = true |- _ => apply N.leb_le in H
          end);
    try (repeat split; done).
  repeat split; try lia.
  repeat (match goal with
          | |- context [?a =? ?b] => destruct (N.eqb_spec a b); [lia | ]
          end).
  reflexivity.
Qed.

Lemma dumps_head (indent level : nat) (v : value) :
  ∃ c t, dumps_at indent level v = c :: t ∧ value_start c = true.
Proof.
  destruct v as [ | [ | ] | z | s | [ | x xs] | [ | [k x] kxs]];
    try (eexists _, _; split; reflexivity).
  cbn [dumps_at]. unfold int_repr.
  destruct z as [ | p | p]; cbn [Z.to_int];
    try (eexists _, _; split; reflexivity).
  destruct (to_uint_head p) as (d & ds & -> & Hd & _).
  eexists _, _. split; [reflexivity | ].
  unfold value_start. rewrite Hd. by rewrite !orb_true_r.
Qed.

Lemma skip_ws_start (c : N) (t : pystr) :
  is_ws c = false → skip_ws (c :: t) = c :: t.
Proof. intros H. cbn. by rewrite H. Qed.

Lemma skip_ws_spaces (n : nat) (X : pystr) :
  skip_ws (repeat 32 n ++ X) = skip_ws X.
Proof. induction n; [done | ]. cbn. exact IHn. Qed.

Lemma skip_ws_newline_indent (indent level : nat) (X : pystr) :
  skip_ws (newline_indent indent level ++ X) = skip_ws X.
Proof. unfold newline_indent. cbn. apply skip_ws_spaces. Qed.

(** Whitespace before the text of a value is skipped up to that text. *)
Lemma skip_ws_dumps (indent level : nat) (v : value) (X : pystr) :
  skip_ws (dumps_at indent level v ++ X) = dumps_at indent level v ++ X.
Proof.
  destruct (dumps_head indent level v) as (c & t & -> & Hc).
  apply value_start_spec in Hc as (Hws & _). by apply skip_ws_start.
Qed.

Lemma parse_value_list (f : nat) (X : pystr) (c1 : N) (t1 : pystr) :
  skip_ws X = c1 :: t1 → c1 ≠ 93 →
  parse_value (S f) (91 :: X) = pmap VList (parse_elems f (c1 :: t1)).
Proof.
  intros HX Hc. cbn [parse_value N.eqb Pos.eqb]. rewrite HX.
  by destruct (N.eqb_spec c1 93).
Qed.

Lemma parse_value_dict (f : nat) (X : pystr) (c1 : N) (t1 : pystr) :
  skip_ws X = c1 :: t1 → c1 ≠ 125 →
  parse_value (S f) (123 :: X)
  = pmap (λ ps, VDict (dict_of_pairs ps)) (parse_members f (c1 :: t1)).
Proof.
  intros HX Hc. cbn [parse_value N.eqb Pos.eqb]. rewrite HX.
  by destruct (N.eqb_spec c1 125).
Qed.

Lemma parse_elems_more (f : nat) (s r t : pystr) (v : value) :
  parse_value f s = POk v r → skip_ws r = 44 :: t →
  parse_elems (S f) s = pmap (cons v) (parse_elems f (skip_ws t)).
Proof. intros Hv Hr. cbn [parse_elems]. by rewrite Hv, Hr. Qed.

Lemma parse_elems_last (f : nat) (s r t : pystr) (v : value) :
  parse_value f s = POk v r → skip_ws r = 93 :: t →
  parse_elems (S f) s = POk [v] t.
Proof. intros Hv Hr. cbn [parse_elems]. by rewrite Hv, Hr. Qed.

Lemma parse_members_more (f : nat) (s r t X r1 : pystr) (k : pystr)
  (v : value) :
  scan_string s = POk k r → skip_ws r = 58 :: X →
  parse_value f (skip_ws X) = POk v r1 → skip_ws r1 = 44 :: t →
  parse_members (S f) (34 :: s)
  = pmap (cons (k, v)) (parse_members f (skip_ws t)).
Proof.
  intros Hk Hr Hv Hr1. cbn [parse_members N.eqb Pos.eqb].
  by rewrite Hk, Hr, Hv, Hr1.
Qed.

Lemma parse_members_last (f : nat) (s r t X r1 : pystr) (k : pystr)
  (v : value) :
  scan_string s = POk k r → skip_ws r = 58 :: X →
  parse_value f (skip_ws X) = POk v r1 → skip_ws r1 = 125 :: t →
  parse_members (S f) (34 :: s) = POk [(k, v)] t.
Proof.
  intros Hk Hr Hv Hr1. cbn [parse_members N.eqb Pos.eqb].
  by rewrite Hk, Hr, Hv, Hr1.
Qed.

(** The scanner reads the text of [v] back, whatever follows it. *)
Definition roundtrips (v : value) : Prop :=
  wf_value v = true →
  ∀ indent level rest fuel,
    value_end rest = true → (size v ≤ fuel)%nat →
    parse_value fuel (dumps_at indent level v ++ rest) = POk v rest.

Lemma parse_elems_dumps (indent level : nat) (xs : list value) :
  Forall roundtrips xs → forallb wf_value xs = true →
  ∀ x rest fuel,
    roundtrips x → wf_value x = true →
    (S (size x) + list_sum (map (λ y, S (size y)) xs) ≤ fuel)%nat →
    parse_elems fuel
      (dumps_at indent (S level) x
       ++ concat (map (λ y, 44 :: newline_indent indent (S level)
                              ++ dumps_at indent (S level) y) xs)
       ++ newline_indent indent level ++ 93 :: rest)
    = POk (x :: xs) rest.
Proof.
  induction 1 as [ | y ys Hy _ IH]; intros Hwf x rest fuel Hx Hwx Hfuel.
  - destruct fuel as [ | f]; [cbn in Hfuel; lia | ].
    cbn [map concat app list_sum] in *.
    eapply parse_elems_last.
    + apply Hx; [done | done | lia].
    + by rewrite skip_ws_newline_indent.
  - destruct fuel as [ | f]; [cbn in Hfuel; lia | ].
    cbn [forallb] in Hwf. apply andb_true_iff in Hwf as (Hwy & Hwys).
    cbn [map concat] in *.
    change (list_sum (?a :: ?l)) with (a + list_sum l)%nat in Hfuel.
    rewrite <- !app_assoc. cbn [app]. rewrite <- !app_assoc.
    erewrite parse_elems_more.
    + rewrite skip_ws_newline_indent, skip_ws_dumps.
      rewrite (IH Hwys y rest f Hy Hwy); [done | lia].
    + apply Hx; [done | done | lia].
    + reflexivity.
Qed.

Lemma parse_members_dumps (indent level : nat) (kxs : list (pystr * value)) :
  Forall (λ kv, roundtrips kv.2) kxs →
  forallb (λ kv, wf_str kv.1 && wf_value kv.2) kxs = true →
  ∀ k x rest fuel,
    roundtrips x → wf_str k = true → wf_value x = true →
    (S (size x) + list_sum (map (λ kv, S (size kv.2)) kxs) ≤ fuel)%nat →
    parse_members fuel
      ((encode_str k ++ 58 :: 32 :: dumps_at indent (S level) x)
       ++ concat (map (λ ky, 44 :: newline_indent indent (S level)
                               ++ encode_str ky.1 ++ 58 :: 32
                               :: dumps_at indent (S level) ky.2) kxs)
       ++ newline_indent indent level ++ 125 :: rest)
    = POk ((k, x) :: kxs) rest.
Proof.
  induction 1 as [ | [k' y] ys Hy _ IH];
    intros Hwf k x rest fuel Hx Hwk Hwx Hfuel.
  - destruct fuel as [ | f]; [cbn in Hfuel; lia | ].
    cbn [map concat app list_sum] in *. unfold encode_str.
    rewrite <- !app_assoc. cbn [app]. rewrite <- !app_assoc. cbn [app].
    eapply parse_members_last.
    + by apply scan_string_escaped.
    + reflexivity.
    + change (skip_ws (32 :: ?X)) with (skip_ws X). rewrite skip_ws_dumps.
      apply Hx; [done | done | lia].
    + by rewrite skip_ws_newline_indent.
  - destruct fuel as [ | f]; [cbn in Hfuel; lia | ].
    cbn [forallb fst snd] in Hwf. apply andb_true_iff in Hwf as (Hwy & Hwys).
    apply andb_true_iff in Hwy as (Hwk' & Hwy).
    cbn [map concat fst snd] in *.
    change (list_sum (?a :: ?l)) with (a + list_sum l)%nat in Hfuel.
    unfold encode_str at 1.
    rewrite <- !app_assoc. cbn [app]. rewrite <- !app_assoc. cbn [app].
    erewrite parse_members_more.
    + rewrite skip_ws_newline_indent.
      specialize (IH Hwys k' y rest f Hy Hwk' Hwy).
      rewrite <- ?app_assoc in IH. cbn [app] in IH.
      rewrite <- ?app_assoc in IH.
      assert (skip_ws (encode_str k' ++ 58 :: 32
                       :: dumps_at indent (S level) y
                       ++ concat (map (λ ky, 44 :: newline_indent indent (S level)
                                               ++ encode_str ky.1 ++ 58 :: 32
                                               :: dumps_at indent (S level) ky.2)
                                      ys)
                       ++ newline_indent indent level ++ 125 :: rest)
              = encode_str k' ++ 58 :: 32
                :: dumps_at indent (S level) y
                ++ concat (map (λ ky, 44 :: newline_indent indent (S level)
                                        ++ encode_str ky.1 ++ 58 :: 32
                                        :: dumps_at indent (S level) ky.2)
                               ys)
                ++ newline_indent indent level ++ 125 :: rest) as ->
        by reflexivity.
      rewrite IH; [done | lia].
    + by apply scan_string_escaped.
    + reflexivity.
    + change (skip_ws (32 :: ?X)) with (skip_ws X). rewrite skip_ws_dumps.
      apply Hx; [done | done | lia].
    + done.
Qed.

Lemma Forall_wf_list (P : value → Prop) (l : list value) :
  Forall (λ v, wf_value v = true → P v) l → forallb wf_value l = true →
  Forall P l.
Proof.
  induction 1 as [ | x l Hx _ IH]; [done | ].
  cbn [forallb]. intros H. apply andb_true_iff in H as (Hwx & Hwl).
  constructor; [by apply Hx | by apply IH].
Qed.

(** Every well-formed value is read back from its text. *)
Lemma roundtrips_all (v : value) : roundtrips v.
Proof.
  induction v as [ | b | z | s | l IH | d IH] using value_ind';
    intros Hwf indent level rest fuel Hend Hfuel;
    (destruct fuel as [ | f]; [cbn in Hfuel; lia | ]).
  - reflexivity.
  - by destruct b.
  - by apply parse_value_int_repr.
  - cbn [dumps_at wf_value] in *. unfold encode_str.
    cbn [app]. rewrite <- app_assoc. cbn [app parse_value N.eqb Pos.eqb].
    by rewrite scan_string_escaped.
  - destruct l as [ | x xs]; [reflexivity | ].
    cbn [dumps_at wf_value forallb] in *.
    apply andb_true_iff in Hwf as (Hwx & Hwxs).
    apply Forall_cons in IH as (Hx & Hxs).
    cbn [app]. rewrite <- !app_assoc.
    destruct (dumps_head indent (S level) x) as (c & t & E & Hc).
    apply value_start_spec in Hc as (Hws & Hc93 & _).
    set (tail := concat (map (λ y, 44 :: newline_indent indent (S level)
                                     ++ dumps_at indent (S level) y) xs)
                 ++ newline_indent indent level ++ [93] ++ rest).
    rewrite (parse_value_list f _ c (t ++ tail));
      [ | rewrite skip_ws_newline_indent, E; by apply skip_ws_start | done].
    change (c :: t ++ tail) with ((c :: t) ++ tail). rewrite <- E.
    unfold tail. change (?a ++ [93] ++ rest) with (a ++ 93 :: rest).
    rewrite (parse_elems_dumps indent level xs); try done.
    cbn [size map] in Hfuel.
    change (list_sum (?a :: ?l)) with (a + list_sum l)%nat in Hfuel. lia.
  - destruct d as [ | [k x] kxs]; [reflexivity | ].
    cbn [dumps_at wf_value forallb fst snd] in *.
    apply andb_true_iff in Hwf as (Hwf & Hnd).
    apply andb_true_iff in Hwf as (Hwkx & Hwkxs).
    apply andb_true_iff in Hwkx as (Hwk & Hwx).
    apply bool_decide_eq_true in Hnd.
    apply Forall_cons in IH as (Hx & Hxs). cbn [snd] in Hx.
    pose proof (parse_members_dumps indent level kxs Hxs Hwkxs k x rest f
                  Hx Hwk Hwx) as Hm.
    set (A := encode_str k ++ 58 :: 32 :: dumps_at indent (S level) x) in *.
    set (C := concat (map (λ ky, 44 :: newline_indent indent (S level)
                                  ++ encode_str ky.1 ++ 58 :: 32
                                  :: dumps_at indent (S level) ky.2) kxs))
      in *.
    assert ((123 :: newline_indent indent (S level) ++ A ++ C
                 ++ newline_indent indent level ++ [125]) ++ rest
            = 123 :: newline_indent indent (S level)
                  ++ A ++ C ++ newline_indent indent level ++ 125 :: rest)
      as -> by (cbn [app]; by rewrite <- !app_assoc).
    rewrite (parse_value_dict f _ 34
               (tl (A ++ C ++ newline_indent indent level ++ 125 :: rest)));
      [ | rewrite skip_ws_newline_indent; reflexivity | done].
    change (34 :: tl (A ++ C ++ newline_indent indent level ++ 125 :: rest))
      with (A ++ C ++ newline_indent indent level ++ 125 :: rest).
    rewrite Hm.
    + cbn [pmap]. by rewrite dict_of_pairs_nodup.
    + cbn [size map snd] in Hfuel.
      change (list_sum (?a :: ?l)) with (a + list_sum l)%nat in Hfuel. lia.
Qed.

Lemma length_concat_ge {A} (f : A → pystr) (g : A → nat) (l : list A) :
  Forall (λ a, (g a ≤ length (f a))%nat) l →
  (list_sum (map g l) ≤ length (concat (map f l)))%nat.
Proof.
  induction 1 as [ | a l Ha _ IH]; [done | ].
  cbn [map concat].
  change (list_sum (?a :: ?l)) with (a + list_sum l)%nat.
  rewrite length_app. lia.
Qed.

(** The text of a value has at least as many characters as the scanner
    needs steps. *)
Lemma size_le_length (indent : nat) (v : value) :
  ∀ level, (size v ≤ length (dumps_at indent level v))%nat.
Proof.
  induction v as [ | b | z | s | l IH | d IH] using value_ind'; intros level.
  - cbn. lia.
  - destruct b; cbn; lia.
  - destruct (dumps_head indent level (VInt z)) as (c & t & -> & _). cbn. lia.
  - cbn. lia.
  - destruct l as [ | x xs]; [cbn; lia | ].
    apply Forall_cons in IH as (Hx & Hxs).
    cbn [dumps_at size map].
    change (list_sum (?a :: ?l)) with (a + list_sum l)%nat.
    cbn [length]. rewrite !length_app. cbn [length newline_indent].
    specialize (Hx (S level)).
    pose proof (length_concat_ge
                  (λ y, 44 :: newline_indent indent (S level)
                           ++ dumps_at indent (S level) y)
                  (λ y, S (size y)) xs) as Hsum.
    cbn beta in Hsum.
    match type of Hsum with ?P → _ => assert P as Hall end.
    { eapply Forall_impl; [exact Hxs | ]. intros y Hy. cbn [length].
      rewrite length_app. specialize (Hy (S level)). lia. }
    specialize (Hsum Hall). lia.
  - destruct d as [ | [k x] kxs]; [cbn; lia | ].
    apply Forall_cons in IH as (Hx & Hxs).
    cbn [dumps_at size map snd].
    change (list_sum (?a :: ?l)) with (a + list_sum l)%nat.
    cbn [length]. rewrite !length_app. cbn [length newline_indent].
    specialize (Hx (S level)). cbn [snd] in Hx.
    pose proof (length_concat_ge
                  (λ ky : pystr * value,
                     44 :: newline_indent indent (S level)
                        ++ encode_str ky.1 ++ 58 :: 32
                        :: dumps_at indent (S level) ky.2)
                  (λ ky, S (size ky.2)) kxs) as Hsum.
    cbn beta in Hsum.
    match type of Hsum with ?P → _ => assert P as Hall end.
    { eapply Forall_impl; [exact Hxs | ]. intros y Hy. cbn [length].
      rewrite !length_app. cbn [length]. specialize (Hy (S level)). lia. }
    specialize (Hsum Hall). lia.
Qed.

(** [json.loads(json.dumps(v, indent=n)) == v]. *)
Lemma json_loads_dumps (indent : nat) (v : value) :
  wf_value v = true → json_loads (json_dumps indent v) = Ret v.
Proof.
  intros Hwf. unfold json_loads, json_dumps.
  pose proof (skip_ws_dumps indent 0 v []) as Hskip.
  rewrite app_nil_r in Hskip. rewrite Hskip.
  pose proof (roundtrips_all v Hwf indent 0%nat []
                (S (2 * length (dumps_at indent 0 v))) eq_refl) as H.
  rewrite app_nil_r in H. rewrite H; [done | ].
  pose proof (size_le_length indent v 0). lia.
Qed.

(** ** What the scanner yields *)

(** A Unicode scalar value: what a character of decoded UTF-8 text is. *)
Definition scalar (c : N) : Prop := c ≤ 1114111 ∧ is_surrogate c = false.

(** The text starts with the backslash-u escape of a low surrogate. *)
Definition low_escape_head (s : pystr) : Prop :=
  ∃ g1 g2 g3 g4 t lo,
    s = 92 :: 117 :: g1 :: g2 :: g3 :: g4 :: t
    ∧ hex4_val g1 g2 g3 g4 = Some lo ∧ is_low_surrogate lo = true.

(** What holds of a result of [scan_string] on [s]: the text read is
    well-formed, it starts with a low surrogate only if [s] starts with the
    escape of one, and the rest is a proper suffix. *)
Definition scanned (s : pystr) (r : pres pystr) : Prop :=
  match r with
  | POk out rest =>
    wf_str out = true
    ∧ (starts_with_low out = true → low_escape_head s)
    ∧ Forall scalar rest ∧ (length rest < length s)%nat
  | PFuel => False
  | _ => True
  end.

Lemma surrogate_split (c : N) :
  is_surrogate c = false →
  is_high_surrogate c = false ∧ is_low_surrogate c = false.
Proof.
  unfold is_surrogate, is_high_surrogate, is_low_surrogate.
  destruct (N.leb_spec 55296 c), (N.leb_spec c 57343),
    (N.leb_spec c 56319), (N.leb_spec 56320 c); cbn; try done; lia.
Qed.

Lemma high_not_low (c : N) :
  is_high_surrogate c = true → is_low_surrogate c = false.
Proof.
  unfold is_high_surrogate, is_low_surrogate.
  destruct (N.leb_spec 55296 c), (N.leb_spec c 57343),
    (N.leb_spec c 56319), (N.leb_spec 56320 c); cbn; try done; lia.
Qed.

Lemma hex_val_bound (c d : N) : hex_val c = Some d → d < 16.
Proof.
  unfold hex_val, is_digit.
  destruct (N.leb_spec 48 c), (N.leb_spec c 57); cbn [andb];
    try (intros [= <-]; lia);
    (destruct (N.leb_spec 97 c), (N.leb_spec c 102); cbn [andb];
     try (intros [= <-]; lia);
     (destruct (N.leb_spec 65 c), (N.leb_spec c 70); cbn [andb];
      try (intros [= <-]; lia); done)).
Qed.

Lemma hex4_val_bound (a b c d u : N) : hex4_val a b c d = Some u → u < 65536.
Proof.
  unfold hex4_val.
  destruct (hex_val a) as [x | ] eqn:Ea; [ | done].
  destruct (hex_val b) as [y | ] eqn:Eb; [ | done].
  destruct (hex_val c) as [z | ] eqn:Ec; [ | done].
  destruct (hex_val d) as [w | ] eqn:Ed; [ | done].
  apply hex_val_bound in Ea, Eb, Ec, Ed. cbn. intros [= <-]. lia.
Qed.

Lemma join_surrogates_bound (hi lo : N) :
  is_high_surrogate hi = true → is_low_surrogate lo = true →
  65536 ≤ join_surrogates hi lo ≤ 1114111.
Proof.
  unfold is_high_surrogate, is_low_surrogate, join_surrogates.
  intros Hhi Hlo.
  apply andb_true_iff in Hhi as (H1 & H2).
  apply andb_true_iff in Hlo as (H3 & H4).
  apply N.leb_le in H1, H2, H3, H4.
  rewrite lor_shiftl_add by lia. lia.
Qed.

Lemma scanned_step (s t : pystr) (x : N) :
  scanned t (scan_string t) → (length t < length s)%nat →
  x ≤ 1114111 →
  is_high_surrogate x = false ∨ ¬ low_escape_head t →
  (is_low_surrogate x = true → low_escape_head s) →
  scanned s (pmap (cons x) (scan_string t)).
Proof.
  intros Ht Hlen Hx Hpair Hhead.
  destruct (scan_string t) as [out rest | | | ]; cbn [pmap scanned] in *;
    try done.
  destruct Ht as (Hwf & Hlow & Hrest & Hlen').
  repeat split; [ | done | done | lia].
  cbn [wf_str]. rewrite Hwf, andb_true_r.
  apply andb_true_iff. split; [by apply N.leb_le | ].
  apply negb_true_iff, andb_false_iff.
  destruct Hpair as [? | Hno]; [by left | right].
  destruct (starts_with_low out); [ | done]. exfalso. by apply Hno, Hlow.
Qed.

Lemma scan_string_scanned_aux (n : nat) :
  ∀ s, (length s ≤ n)%nat → Forall scalar s → scanned s (scan_string s).
Proof.
  induction n as [ | n IH]; intros s Hn Hs.
  { destruct s; [exact I | cbn in Hn; lia]. }
  destruct s as [ | c t]; [exact I | ].
  cbn [length] in Hn. apply Forall_cons in Hs as (Hc & Ht).
  cbn [scan_string].
  destruct (N.eqb_spec c 34) as [-> | Hc34].
  { cbn. repeat split; [done | done | lia]. }
  destruct (N.eqb_spec c 92) as [-> | Hc92].
  - destruct t as [ | e t1]; [exact I | ].
    cbn [length] in Hn. apply Forall_cons in Ht as (He & Ht1).
    destruct (N.eqb_spec e 117) as [-> | He117].
    + destruct t1 as [ | h1 [ | h2 [ | h3 [ | h4 t2]]]]; try exact I.
      cbn [length] in Hn.
      assert (Forall scalar t2) as Ht2.
      { repeat (apply Forall_cons in Ht1 as (_ & Ht1)). done. }
      destruct (hex4_val h1 h2 h3 h4) as [uni | ] eqn:Eh; [ | exact I].
      pose proof (hex4_val_bound _ _ _ _ _ Eh) as Huni.
      assert (scanned t2 (scan_string t2)) as IH2 by (apply IH; [lia | done]).
      destruct (is_high_surrogate uni) eqn:Ehigh.
      * assert (∀ t2', t2' = t2 → ¬ low_escape_head t2 →
                  scanned (92 :: 117 :: h1 :: h2 :: h3 :: h4 :: t2)
                          (pmap (cons uni) (scan_string t2'))) as Hsingle.
        { intros t2' -> Hno. apply scanned_step; try done.
          - cbn [length]. lia.
          - lia.
          - by right.
          - intros Hlow. apply high_not_low in Ehigh. congruence. }
        destruct t2 as [ | a [ | b [ | g1 [ | g2 [ | g3 [ | g4 t3]]]]]];
          try (apply Hsingle; [done | ];
               intros (? & ? & ? & ? & ? & ? & [=] & _)).
        destruct (N.eqb_spec a 92) as [-> | Ha];
          [ | apply Hsingle; [done | ];
              by intros (? & ? & ? & ? & ? & ? & [= ->] & _)].
        destruct (N.eqb_spec b 117) as [-> | Hb];
          [ | apply Hsingle; [done | ];
              by intros (? & ? & ? & ? & ? & ? & [= ->] & _)].
        cbn [andb].
        destruct (hex4_val g1 g2 g3 g4) as [uni2 | ] eqn:Eg; [ | exact I].
        destruct (is_low_surrogate uni2) eqn:Elow.
        -- pose proof (join_surrogates_bound _ _ Ehigh Elow) as Hj.
           apply scanned_step.
           ++ apply IH; [cbn [length] in Hn; lia | ].
              repeat (apply Forall_cons in Ht2 as (_ & Ht2)). done.
           ++ cbn [length]. lia.
           ++ lia.
           ++ left. unfold is_high_surrogate.
              destruct (N.leb_spec (join_surrogates uni uni2) 56319); [lia | ].
              by rewrite andb_false_r.
           ++ unfold is_low_surrogate.
              destruct (N.leb_spec (join_surrogates uni uni2) 57343); [lia | ].
              by rewrite andb_false_r.
        -- apply Hsingle; [done | ].
           intros (? & ? & ? & ? & ? & lo & [= <- <- <- <- <-] & Hlo & Hislo).
           congruence.
      * apply scanned_step; try done.
        -- cbn [length]. lia.
        -- lia.
        -- by left.
        -- intros Hlow. by exists h1, h2, h3, h4, t2, uni.
    + assert (scanned t1 (scan_string t1)) as IH1 by (apply IH; [lia | done]).
      assert (∀ x, x < 128 →
                scanned (92 :: e :: t1) (pmap (cons x) (scan_string t1)))
        as Hsimple.
      { intros x Hx. apply scanned_step; try done.
        - cbn [length]. lia.
        - lia.
        - left. unfold is_high_surrogate.
          destruct (N.leb_spec 55296 x); [lia | done].
        - unfold is_low_surrogate.
          destruct (N.leb_spec 56320 x); [lia | done]. }
      repeat (match goal with
              | |- context [e =? ?k] =>
                destruct (N.eqb_spec e k); [apply Hsimple; lia | ]
              end).
      exact I.
  - destruct (N.ltb_spec c 32); [exact I | ].
    destruct Hc as (Hc & Hsur). apply surrogate_split in Hsur as (Hh & Hl).
    apply scanned_step; try done.
    + apply IH; [lia | done].
    + cbn [length]. lia.
    + by left.
    + congruence.
Qed.

(** [scan_string] on decoded text yields well-formed text and a proper
    suffix. *)
Lemma scan_string_scanned (s : pystr) :
  Forall scalar s → scanned s (scan_string s).
Proof. by apply (scan_string_scanned_aux (length s)). Qed.

(** What holds of a result of the scanner on decoded text [s]: the item read
    satisfies [P], the rest is a proper suffix, and the recursion bound was
    not reached. *)
Definition parsed_ok {A} (P : A → Prop) (s : pystr) (r : pres A) : Prop :=
  match r with
  | POk a rest => P a ∧ Forall scalar rest ∧ (length rest < length s)%nat
  | PFuel => False
  | _ => True
  end.

Lemma parsed_ok_pmap {A B} (P : A → Prop) (Q : B → Prop) (f : A → B)
  (s s' : pystr) (r : pres A) :
  (∀ a, P a → Q (f a)) → (length s' ≤ length s)%nat →
  parsed_ok P s' r → parsed_ok Q s (pmap f r).
Proof.
  intros HPQ Hlen. destruct r as [a rest | | | ]; cbn; try done.
  intros (Ha & Hrest & Hl). repeat split; [by apply HPQ | done | lia].
Qed.

Lemma skip_ws_suffix (s : pystr) :
  (length (skip_ws s) ≤ length s)%nat
  ∧ (Forall scalar s → Forall scalar (skip_ws s)).
Proof.
  induction s as [ | c s (IH1 & IH2)]; [done | ].
  cbn [skip_ws]. destruct (is_ws c).
  - split; [cbn [length]; lia | ]. intros H.
    apply Forall_cons in H as (_ & H). by apply IH2.
  - done.
Qed.

Lemma strip_prefix_suffix (p s r : pystr) :
  strip_prefix p s = Some r →
  (length r ≤ length s)%nat ∧ (Forall scalar s → Forall scalar r).
Proof.
  revert s. induction p as [ | x p IH]; intros [ | y s]; cbn; try done.
  - by intros [= <-].
  - by intros [= <-].
  - destruct (x =? y); [ | done]. intros H. apply IH in H as (H1 & H2).
    split; [lia | ]. intros Hs. apply Forall_cons in Hs as (_ & Hs). auto.
Qed.

Lemma take_digits_suffix (s : pystr) :
  (length (take_digits s).2 ≤ length s)%nat
  ∧ (Forall scalar s → Forall scalar (take_digits s).2).
Proof.
  induction s as [ | c s (IH1 & IH2)]; [done | ].
  cbn [take_digits]. destruct (is_digit c); [ | done].
  destruct (take_digits s) as [u r]. cbn [snd length] in *.
  split; [lia | ]. intros H. apply Forall_cons in H as (_ & H). auto.
Qed.

Lemma scan_number_ok (s : pystr) :
  Forall scalar s → parsed_ok (λ v, wf_value v = true) s (scan_number s).
Proof.
  intros Hs. unfold scan_number.
  assert (∀ s1, (length s1 ≤ length s)%nat → Forall scalar s1 →
                ∀ neg : bool,
                  parsed_ok (λ v, wf_value v = true) s
                    match s1 with
                    | [] => PErr
                    | d :: t =>
                      if is_digit d then
                        let '(u, r) :=
                          if d =? 48 then (D0 Nil, t) else take_digits s1 in
                        if float_tail r then PFloat
                        else POk (VInt (if neg then - Z.of_uint u
                                        else Z.of_uint u)%Z) r
                      else PErr
                    end) as Hbody.
  { intros [ | d t] Hlen Hs1 neg; [exact I | ].
    destruct (is_digit d) eqn:Hd; [ | exact I].
    apply Forall_cons in Hs1 as (_ & Ht). cbn [length] in Hlen.
    destruct (d =? 48).
    - destruct (float_tail t); [exact I | ]. cbn. repeat split; [done | lia].
    - pose proof (take_digits_suffix t) as (H1 & H2).
      cbn [take_digits]. rewrite Hd.
      destruct (take_digits t) as [u r]. cbn [snd] in *.
      destruct (float_tail r); [exact I | ]. cbn.
      repeat split; [by apply H2 | lia]. }
  destruct s as [ | c t]; [exact I | ].
  destruct (c =? 45).
  - apply Forall_cons in Hs as (_ & Ht).
    exact (Hbody t ltac:(cbn; lia) Ht true).
  - exact (Hbody (c :: t) ltac:(lia) Hs false).
Qed.

Lemma dict_set_wf (d : list (pystr * value)) (k : pystr) (v : value) :
  forallb (λ kv, wf_str kv.1 && wf_value kv.2) d = true →
  NoDup (map fst d) → wf_str k = true → wf_value v = true →
  forallb (λ kv, wf_str kv.1 && wf_value kv.2) (dict_set d k v) = true
  ∧ NoDup (map fst (dict_set d k v))
  ∧ ∀ k', k' ∈ map fst (dict_set d k v) → k' = k ∨ k' ∈ map fst d.
Proof.
  intros Hd Hnd Hk Hv. induction d as [ | [k0 v0] d IH]; cbn [dict_set].
  - cbn. rewrite Hk, Hv. repeat split; [repeat constructor; set_solver | ].
    intros k' Hin. left. by apply list_elem_of_singleton in Hin.
  - cbn [forallb fst snd map] in *.
    apply andb_true_iff in Hd as (Hkv0 & Hd).
    apply andb_true_iff in Hkv0 as (Hk0 & Hv0).
    apply NoDup_cons in Hnd as (Hnotin & Hnd).
    destruct (str_eqb k0 k) eqn:E.
    + cbn [forallb fst snd map]. rewrite Hk0, Hv, Hd.
      repeat split; [by constructor | ]. intros k' Hin. by right.
    + destruct (IH Hd Hnd) as (IH1 & IH2 & IH3).
      cbn [forallb fst snd map]. rewrite Hk0, Hv0, IH1.
      repeat split.
      * constructor; [ | done]. intros Hin. apply IH3 in Hin as [-> | Hin].
        -- by rewrite str_eqb_refl in E.
        -- done.
      * intros k' Hin. apply elem_of_cons in Hin as [-> | Hin].
        -- right. left.
        -- apply IH3 in Hin as [-> | Hin]; [by left | right; by right].
Qed.

Lemma dict_of_pairs_wf (ps : list (pystr * value)) :
  forallb (λ kv, wf_str kv.1 && wf_value kv.2) ps = true →
  wf_value (VDict (dict_of_pairs ps)) = true.
Proof.
  unfold dict_of_pairs.
  assert (∀ acc,
            forallb (λ kv, wf_str kv.1 && wf_value kv.2) acc = true →
            NoDup (map fst acc) →
            forallb (λ kv, wf_str kv.1 && wf_value kv.2) ps = true →
            wf_value (VDict (fold_left (λ d kv, dict_set d kv.1 kv.2) ps acc))
            = true) as H; [ | intros; apply H; [done | constructor | done]].
  induction ps as [ | [k v] ps IH]; intros acc Hacc Hnd Hps.
  - cbn [fold_left wf_value]. rewrite Hacc. by apply bool_decide_eq_true.
  - cbn [forallb fst snd] in Hps. apply andb_true_iff in Hps as (Hkv & Hps).
    apply andb_true_iff in Hkv as (Hk & Hv).
    destruct (dict_set_wf acc k v Hacc Hnd Hk Hv) as (H1 & H2 & _).
    cbn [fold_left fst snd]. by apply IH.
Qed.

Lemma scanned_parsed_ok (s : pystr) (r : pres pystr) :
  scanned s r → parsed_ok (λ out, wf_str out = true) s r.
Proof. destruct r; cbn; try done. tauto. Qed.

(** The scanner on decoded text: with a bound of twice the length of the
    text (and one or two more) it never runs out of steps, what it reads is
    well-formed, and what it leaves is a proper suffix. *)
Lemma parse_ok (fuel : nat) :
  ∀ s, Forall scalar s →
    ((2 * length s + 1 ≤ fuel)%nat →
     parsed_ok (λ v, wf_value v = true) s (parse_value fuel s))
    ∧ ((2 * length s + 2 ≤ fuel)%nat →
       parsed_ok (λ vs, forallb wf_value vs = true) s (parse_elems fuel s))
    ∧ ((2 * length s + 2 ≤ fuel)%nat →
       parsed_ok (λ ps, forallb (λ kv, wf_str kv.1 && wf_value kv.2) ps = true)
                 s (parse_members fuel s)).
Proof.
  induction fuel as [ | f IH]; intros s Hs; [repeat split; intros; lia | ].
  assert (∀ r, Forall scalar r →
               (length (skip_ws r) ≤ length r)%nat
               ∧ Forall scalar (skip_ws r)) as Hskip.
  { intros r Hr. destruct (skip_ws_suffix r). auto. }
  repeat split; intros Hfuel.
  - (* parse_value *)
    destruct s as [ | c t]; [exact I | ].
    apply Forall_cons in Hs as (Hc & Ht). cbn [length] in Hfuel.
    destruct (Hskip t Ht) as (Hlen & Hsk).
    cbn [parse_value].
    destruct (c =? 34).
    { eapply parsed_ok_pmap;
        [ | | apply scanned_parsed_ok, scan_string_scanned, Ht];
        [done | cbn [length]; lia]. }
    destruct (c =? 123).
    { destruct (skip_ws t) as [ | c1 t1] eqn:E; [exact I | ].
      cbn [length] in Hlen. destruct (c1 =? 125).
      - cbn. apply Forall_cons in Hsk as (_ & Hsk).
        repeat split; [done | lia].
      - eapply parsed_ok_pmap;
          [ | | apply (IH (c1 :: t1) Hsk); cbn [length]; lia].
        + intros ps Hps. by apply dict_of_pairs_wf.
        + cbn [length]. lia. }
    destruct (c =? 91).
    { destruct (skip_ws t) as [ | c1 t1] eqn:E; [exact I | ].
      cbn [length] in Hlen. destruct (c1 =? 93).
      - cbn. apply Forall_cons in Hsk as (_ & Hsk).
        repeat split; [done | lia].
      - eapply parsed_ok_pmap;
          [ | | apply (IH (c1 :: t1) Hsk); cbn [length]; lia].
        + done.
        + cbn [length]. lia. }
    assert (∀ p v, wf_value v = true →
                   parsed_ok (λ v, wf_value v = true) (c :: t)
                     match strip_prefix p t with
                     | Some r => POk v r
                     | None => PErr
                     end) as Hlit.
    { intros p v Hv. destruct (strip_prefix p t) as [r | ] eqn:E; [ | exact I].
      apply strip_prefix_suffix in E as (H1 & H2). cbn.
      repeat split; [done | by apply H2 | lia]. }
    destruct (c =? 110); [by apply Hlit | ].
    destruct (c =? 116); [by apply Hlit | ].
    destruct (c =? 102); [by apply Hlit | ].
    destruct (c =? 78); [by destruct (strip_prefix _ t) | ].
    destruct (c =? 73); [by destruct (strip_prefix _ t) | ].
    match goal with
    | |- context [if ?b then _ else _] => destruct b; [exact I | ]
    end.
    apply scan_number_ok. by constructor.
  - (* parse_elems *)
    cbn [parse_elems].
    destruct (IH s Hs) as (IHv & _ & _). specialize (IHv ltac:(lia)).
    destruct (parse_value f s) as [v r | | | ]; try done.
    destruct IHv as (Hv & Hr & Hlr).
    destruct (Hskip r Hr) as (Hlen & Hsk).
    destruct (skip_ws r) as [ | c t] eqn:E; [exact I | ].
    cbn [length] in Hlen. apply Forall_cons in Hsk as (_ & Ht).
    destruct (c =? 44).
    + destruct (Hskip t Ht) as (Hlen' & Hsk').
      eapply parsed_ok_pmap;
        [ | | apply (IH (skip_ws t) Hsk'); lia].
      * intros vs Hvs. cbn [forallb]. by rewrite Hv, Hvs.
      * lia.
    + destruct (c =? 93); [ | exact I]. cbn.
      rewrite Hv. repeat split; [done | lia].
  - (* parse_members *)
    cbn [parse_members].
    destruct s as [ | q t]; [exact I | ].
    apply Forall_cons in Hs as (_ & Ht). cbn [length] in Hfuel.
    destruct (q =? 34); [ | exact I].
    pose proof (scan_string_scanned t Ht) as Hk.
    destruct (scan_string t) as [k r | | | ]; try done.
    destruct Hk as (Hwk & _ & Hr & Hlr).
    destruct (Hskip r Hr) as (Hlen & Hsk).
    destruct (skip_ws r) as [ | c t1] eqn:E; [exact I | ].
    cbn [length] in Hlen. apply Forall_cons in Hsk as (_ & Ht1).
    destruct (c =? 58); [ | exact I].
    destruct (Hskip t1 Ht1) as (Hlen1 & Hsk1).
    destruct (IH (skip_ws t1) Hsk1) as (IHv & _ & _).
    specialize (IHv ltac:(lia)).
    destruct (parse_value f (skip_ws t1)) as [v r1 | | | ]; try done.
    destruct IHv as (Hv & Hr1 & Hlr1).
    destruct (Hskip r1 Hr1) as (Hlen2 & Hsk2).
    destruct (skip_ws r1) as [ | c1 t2] eqn:E1; [exact I | ].
    cbn [length] in Hlen2. apply Forall_cons in Hsk2 as (_ & Ht2).
    destruct (c1 =? 44).
    + destruct (Hskip t2 Ht2) as (Hlen3 & Hsk3).
      eapply parsed_ok_pmap;
        [ | | apply (IH (skip_ws t2) Hsk3); lia].
      * intros ps Hps. cbn [forallb fst snd]. by rewrite Hwk, Hv, Hps.
      * cbn [length]. lia.
    + destruct (c1 =? 125); [ | exact I]. cbn.
      rewrite Hwk, Hv. repeat split; [done | lia].
Qed.

Lemma utf8_decode_N_scalar_aux (n : nat) :
  ∀ bs s, (length bs ≤ n)%nat → utf8_decode_N bs = Some s → Forall scalar s.
Proof.
  induction n as [ | n IH]; intros bs s Hn.
  { destruct bs; [by intros [= <-] | cbn in Hn; lia]. }
  destruct bs as [ | b0 r0]; [by intros [= <-] | ].
  cbn [length] in Hn. cbn [utf8_decode_N].
  assert (∀ c r s, (length r ≤ n)%nat → scalar c →
                   cons c <$> utf8_decode_N r = Some s → Forall scalar s)
    as Hstep.
  { intros c r s' Hr Hc H.
    destruct (utf8_decode_N r) as [s0 | ] eqn:E; [ | done].
    injection H as <-. constructor; [done | by eapply IH]. }
  destruct (N.ltb_spec b0 128).
  { apply Hstep; [lia | ]. split; [lia | ]. unfold is_surrogate.
    destruct (N.leb_spec 55296 b0); [lia | done]. }
  destruct (N.ltb_spec b0 194); [done | ].
  destruct (N.ltb_spec b0 224).
  { destruct r0 as [ | b1 r1]; [done | ].
    destruct (is_cont b1) eqn:E1; [ | done].
    unfold is_cont in E1. apply andb_true_iff in E1 as (Hb1 & Hb2).
    apply N.leb_le in Hb1. apply N.ltb_lt in Hb2. cbn [length] in Hn.
    apply Hstep; [lia | ]. split; [lia | ]. unfold is_surrogate.
    destruct (N.leb_spec 55296 ((b0 - 192) * 64 + (b1 - 128))); [lia | done]. }
  destruct (N.ltb_spec b0 240).
  { destruct r0 as [ | b1 [ | b2 r2]]; try done. cbv zeta.
    match goal with
    | |- context [if ?b then _ else _] => destruct b eqn:E; [ | done]
    end.
    apply andb_true_iff in E as (E & Hsur).
    apply andb_true_iff in E as (E & Hmin).
    apply andb_true_iff in E as (E1 & E2).
    unfold is_cont in E1, E2.
    apply andb_true_iff in E1 as (Hb1 & Hb2).
    apply andb_true_iff in E2 as (Hb3 & Hb4).
    apply N.leb_le in Hb1, Hb3. apply N.ltb_lt in Hb2, Hb4.
    apply negb_true_iff in Hsur. cbn [length] in Hn.
    apply Hstep; [lia | ]. split; [lia | done]. }
  destruct (N.ltb_spec b0 245); [ | done].
  destruct r0 as [ | b1 [ | b2 [ | b3 r3]]]; try done. cbv zeta.
  match goal with
  | |- context [if ?b then _ else _] => destruct b eqn:E; [ | done]
  end.
  apply andb_true_iff in E as (E & Hmax).
  apply andb_true_iff in E as (E & Hmin).
  apply N.leb_le in Hmax, Hmin. cbn [length] in Hn.
  apply Hstep; [lia | ]. split; [done | ]. unfold is_surrogate.
  match goal with
  | |- (_ && (?c <=? 57343)) = false =>
    destruct (N.leb_spec c 57343); [lia | by rewrite andb_false_r]
  end.
Qed.

(** Decoded UTF-8 text consists of scalar values. *)
Lemma utf8_decode_scalar (bs : pybytes) (s : pystr) :
  utf8_decode bs = Some s → Forall scalar s.
Proof.
  unfold utf8_decode.
  apply (utf8_decode_N_scalar_aux (length (map Byte.to_N bs))). done.
Qed.

(** On decoded text [json_loads] never reaches its recursion bound: it ends
    [Unmodelled] only on a float literal. *)
Lemma json_loads_fuel (s : pystr) :
  Forall scalar s → parse_value (S (2 * length s)) (skip_ws s) ≠ PFuel.
Proof.
  intros Hs. destruct (skip_ws_suffix s) as (Hlen & Hsk).
  destruct (parse_ok (S (2 * length s)) (skip_ws s) (Hsk Hs)) as (H & _).
  specialize (H ltac:(lia)). intros E. by rewrite E in H.
Qed.

(** What [json_loads] returns on decoded text is well-formed. *)
Lemma json_loads_wf (s : pystr) (v : value) :
  Forall scalar s → json_loads s = Ret v → wf_value v = true.
Proof.
  intros Hs. unfold json_loads.
  destruct (skip_ws_suffix s) as (Hlen & Hsk).
  destruct (parse_ok (S (2 * length s)) (skip_ws s) (Hsk Hs)) as (H & _).
  specialize (H ltac:(lia)).
  destruct (parse_value (S (2 * length s)) (skip_ws s)) as [v' r | | | ];
    try done.
  destruct H as (Hv & _). destruct (skip_ws r); [ | done]. by intros [= <-].
Qed.

(** What [load_catalog] returns is well-formed. *)
Lemma load_catalog_wf (w w1 : world) (v : value) :
  load_catalog w = (Ret v, w1) → wf_value v = true.
Proof.
  rewrite load_catalog_eq. intros [= H _].
  destruct (get_object MINIO_BUCKET CATALOG_FILE w).1 as [body | e | ];
    [ | by injection H as <- | done].
  unfold decode_utf8 in H. destruct (utf8_decode body) as [text | ] eqn:Ed;
    [ | by injection H as <-].
  destruct (json_loads text) as [v' | e | ] eqn:Ej;
    [ | by injection H as <- | done].
  injection H as <-. eapply json_loads_wf; [ | exact Ej].
  by eapply utf8_decode_scalar.
Qed.

(** ** The layout of the saved document *)

(** What the specification asks of the saved text, pretty-printed JSON with
    a 2-space indentation, written out on its own, line by line, to compare
    the encoder with: [pretty_lines] gives the lines of a value with their
    nesting depth, [indented] puts two spaces for each level before a line,
    [join_lines] makes the text of the lines. *)

(** A line of a pretty-printed document: its nesting depth and its text. *)
Definition doc_line : Type := nat * pystr.

(** The lines of a block, with a comma after the last one. *)
Fixpoint comma_last (block : list doc_line) : list doc_line :=
  match block with
  | [] => []
  | [(depth, text)] => [(depth, text ++ [44])]
  | l :: block' => l :: comma_last block'
  end.

(** The blocks of the items of a container, one after the other, a comma
    after each but the last. *)
Fixpoint commas (blocks : list (list doc_line)) : list doc_line :=
  match blocks with
  | [] => []
  | [block] => block
  | block :: blocks' => comma_last block ++ commas blocks'
  end.

(** The block of a member of an object: the key in quotes, a colon and a
    space go before the text of the first line of the value. *)
Definition keyed (k : pystr) (block : list doc_line) : list doc_line :=
  match block with
  | (depth, text) :: block' =>
    (depth, encode_str k ++ [58; 32] ++ text) :: block'
  | [] => []
  end.

(** The JSON text of a value that is no container. *)
Definition scalar_text (v : value) : pystr :=
  match v with
  | VNone => [110; 117; 108; 108]
  | VBool true => [116; 114; 117; 101]
  | VBool false => [102; 97; 108; 115; 101]
  | VInt z => int_repr z
  | VStr s => encode_str s
  | _ => []
  end.

(** Pretty-printed JSON, line by line: a value that is no container is one
    line; an empty container is the one line of its two brackets; any other
    container opens with its bracket, has each item on lines of its own, one
    level deeper, and closes with its bracket on a line at its own level. *)
Fixpoint pretty_lines (depth : nat) (v : value) {struct v} : list doc_line :=
  match v with
  | VList [] => [(depth, [91; 93])]
  | VList (x :: xs) =>
    [(depth, [91])]
    ++ commas (pretty_lines (S depth) x :: map (pretty_lines (S depth)) xs)
    ++ [(depth, [93])]
  | VDict [] => [(depth, [123; 125])]
  | VDict ((k, x) :: kxs) =>
    [(depth, [123])]
    ++ commas (keyed k (pretty_lines (S depth) x)
               :: map (λ ky, keyed ky.1 (pretty_lines (S depth) ky.2)) kxs)
    ++ [(depth, [125])]
  | _ => [(depth, scalar_text v)]
  end.

(** A line as text, with the 2-space indentation: two spaces for each level
    of nesting, then the text of the line. *)
Definition indented (l : doc_line) : pystr := repeat 32 (2 * l.1) ++ l.2.

(** The lines as one text, a line feed between two lines. *)
Definition join_lines (ls : list doc_line) : pystr :=
  match ls with
  | [] => []
  | l :: ls' => indented l ++ concat (map (λ l', 10 :: indented l') ls')
  end.

(** The text of a block from the second character position of its first
    line on, that is without the indentation of the first line. *)
Definition block_text (block : list doc_line) : pystr :=
  match block with
  | [] => []
  | l :: block' => l.2 ++ concat (map (λ l', 10 :: indented l') block')
  end.

(** A block whose first line is at [depth]. *)
Definition starts_at (depth : nat) (block : list doc_line) : Prop :=
  ∃ text block', block = (depth, text) :: block'.

Lemma comma_last_text (depth : nat) (block : list doc_line) :
  starts_at depth block →
  starts_at depth (comma_last block)
  ∧ block_text (comma_last block) = block_text block ++ [44].
Proof.
  intros (text & block' & ->). revert depth text.
  induction block' as [ | [d' t'] block' IH]; intros depth text.
  - split; [by eexists _, _ | ]. cbn. by rewrite !app_nil_r.
  - destruct (IH d' t') as ((t'' & b'' & Heq) & Htext).
    change (comma_last ((depth, text) :: (d', t') :: block'))
      with ((depth, text) :: comma_last ((d', t') :: block')).
    split; [by eexists _, _ | ].
    rewrite Heq in Htext |- *. cbn [block_text fst snd map concat] in *.
    unfold indented at 1. cbn [fst snd].
    unfold indented at 2. cbn [fst snd]. 
    rewrite <- !app_assoc. cbn [app]. rewrite <- !app_assoc.
    do 3 f_equal. rewrite <- app_assoc in Htext. exact Htext.
Qed.

Lemma keyed_text (depth : nat) (k : pystr) (block : list doc_line) :
  starts_at depth block →
  starts_at depth (keyed k block)
  ∧ block_text (keyed k block)
    = encode_str k ++ 58 :: 32 :: block_text block.
Proof.
  intros (text & block' & ->). split; [by eexists _, _ | ].
  cbn [keyed block_text fst snd]. by rewrite <- !app_assoc.
Qed.

(** The text of a block, from the line feed before its first line on. *)
Lemma block_lines_text (depth : nat) (block : list doc_line) :
  starts_at depth block →
  concat (map (λ l, 10 :: indented l) block)
  = 10 :: repeat 32 (2 * depth) ++ block_text block.
Proof.
  intros (text & block' & ->). cbn [map concat block_text fst snd].
  unfold indented at 1. cbn [fst snd app]. by rewrite <- app_assoc.
Qed.

(** The text of the blocks of a container, from the line feed before the
    first one on. *)
Lemma commas_text (depth : nat) (block : list doc_line)
  (blocks : list (list doc_line)) :
  starts_at depth block → Forall (starts_at depth) blocks →
  concat (map (λ l, 10 :: indented l) (commas (block :: blocks)))
  = (10 :: repeat 32 (2 * depth) ++ block_text block)
    ++ concat (map (λ b, 44 :: 10 :: repeat 32 (2 * depth) ++ block_text b)
                   blocks).
Proof.
  intros Hb Hbs. revert block Hb.
  induction Hbs as [ | b' blocks Hb' _ IH]; intros block Hb.
  - cbn [commas map concat]. by rewrite app_nil_r, (block_lines_text depth).
  - change (commas (block :: b' :: blocks))
      with (comma_last block ++ commas (b' :: blocks)).
    rewrite map_app, concat_app, (IH b' Hb').
    destruct (comma_last_text depth block Hb) as (Hstart & Htext).
    rewrite (block_lines_text depth _ Hstart), Htext.
    cbn [map concat app]. rewrite <- !app_assoc. reflexivity.
Qed.

(** The encoder with [indent=2] writes the lines of [pretty_lines]. *)
Lemma dumps_at_pretty (v : value) :
  ∀ depth, starts_at depth (pretty_lines depth v)
           ∧ block_text (pretty_lines depth v) = dumps_at 2 depth v.
Proof.
  induction v as [ | b | z | s | l IH | d IH] using value_ind'; intros depth.
  - split; [by eexists _, _ | ]. cbn. reflexivity.
  - split; [by eexists _, _ | ]. destruct b; cbn; reflexivity.
  - split; [by eexists _, _ | ]. cbn. by rewrite app_nil_r.
  - split; [by eexists _, _ | ]. cbn. by rewrite app_nil_r.
  - destruct l as [ | x xs]; [split; [by eexists _, _ | reflexivity] | ].
    split; [by eexists _, _ | ].
    inversion IH as [ | ? ? Hx Hxs]; subst.
    cbn [pretty_lines dumps_at app block_text fst snd].
    rewrite map_app, concat_app, (commas_text (S depth)).
    + destruct (Hx (S depth)) as (_ & ->). unfold newline_indent.
      cbn [map concat]. rewrite app_nil_r. unfold indented. cbn [fst snd].
      rewrite map_map.
      match goal with
      | |- context [map ?f xs] =>
        assert (map f xs
                = map (λ y, 44 :: (10 :: repeat 32 (2 * S depth))
                               ++ dumps_at 2 (S depth) y) xs) as ->
      end.
      * apply map_ext_Forall. eapply Forall_impl; [exact Hxs | ].
        intros y Hy. cbn [app]. by destruct (Hy (S depth)) as (_ & ->).
      * cbn [app]. rewrite <- !app_assoc. reflexivity.
    + apply Hx.
    + apply Forall_map. eapply Forall_impl; [exact Hxs | ].
      intros y Hy. apply Hy.
  - destruct d as [ | [k x] kxs]; [split; [by eexists _, _ | reflexivity] | ].
    split; [by eexists _, _ | ].
    inversion IH as [ | ? ? Hx Hxs]; subst. cbn [fst snd] in Hx.
    cbn [pretty_lines dumps_at app block_text fst snd].
    rewrite map_app, concat_app, (commas_text (S depth)).
    + destruct (keyed_text (S depth) k _ (proj1 (Hx (S depth)))) as (_ & ->).
      destruct (Hx (S depth)) as (_ & ->). unfold newline_indent.
      cbn [map concat]. rewrite app_nil_r. unfold indented. cbn [fst snd].
      rewrite map_map.
      match goal with
      | |- context [map ?f kxs] =>
        assert (map f kxs
                = map (λ ky, 44 :: (10 :: repeat 32 (2 * S depth))
                                ++ encode_str ky.1 ++ 58 :: 32
                                :: dumps_at 2 (S depth) ky.2) kxs) as ->
      end.
      * apply map_ext_Forall. eapply Forall_impl; [exact Hxs | ].
        intros [k' y] Hy. cbn [fst snd app] in *.
        destruct (keyed_text (S depth) k' _ (proj1 (Hy (S depth))))
          as (_ & ->).
        by destruct (Hy (S depth)) as (_ & ->).
      * cbn [app]. rewrite <- !app_assoc. reflexivity.
    + apply keyed_text, Hx.
    + apply Forall_map. eapply Forall_impl; [exact Hxs | ].
      intros [k' y] Hy. apply keyed_text, Hy.
Qed.

Lemma json_dumps_pretty (v : value) :
  json_dumps 2 v = join_lines (pretty_lines 0 v).
Proof.
  destruct (dumps_at_pretty v 0) as ((text & block & Heq) & Htext).
  unfold json_dumps. rewrite <- Htext, Heq. reflexivity.
Qed.

(** *** The lines are lines *)

(** Text of visible ASCII characters: no line feed, no control character. *)
Definition visible (s : pystr) : Prop := Forall (λ c, 32 ≤ c ∧ c < 127) s.

(** A line of the document: its text is visible (so the line feeds of the
    document are those between the lines) and starts with a character that
    is not a space (so the indentation of the line is exactly the two spaces
    per level that [indented] puts before it). *)
Definition proper_line (l : doc_line) : Prop :=
  visible l.2 ∧ ∃ c t, l.2 = c :: t ∧ c ≠ 32.

Lemma visible_app (a b : pystr) : visible a → visible b → visible (a ++ b).
Proof. intros. by apply Forall_app. Qed.

Lemma hex_digit_visible (d : N) :
  d < 16 → 32 ≤ hex_digit d ∧ hex_digit d < 127.
Proof. unfold hex_digit. intros. destruct (d <? 10); lia. Qed.

Lemma hex4_visible (c : N) : c < 65536 → visible (hex4 c).
Proof.
  intros Hc. unfold hex4.
  assert (c / 4096 < 16) by (apply N.Div0.div_lt_upper_bound; lia).
  repeat constructor; apply hex_digit_visible; try apply N.mod_lt; lia.
Qed.

Lemma escape_cp_visible (c : N) : visible (escape_cp c).
Proof.
  destruct (N.le_gt_cases 65536 c) as [Hc | Hc].
  - rewrite escape_cp_astral by done.
    assert (((c - 65536) / 1024) mod 1024 < 1024) by (apply N.mod_lt; lia).
    assert ((c - 65536) mod 1024 < 1024) by (apply N.mod_lt; lia).
    apply visible_app; repeat (apply Forall_cons_2; [lia | ]);
      apply hex4_visible; lia.
  - unfold escape_cp.
    repeat (match goal with
            | |- context [?a =? ?b] =>
              destruct (N.eqb_spec a b); [repeat constructor; lia | ]
            end).
    destruct (N.leb_spec 32 c); destruct (N.leb_spec c 126); cbn [andb];
      try (repeat constructor; lia);
      (destruct (N.ltb_spec c 65536); [ | lia]);
      repeat (apply Forall_cons_2; [lia | ]); by apply hex4_visible.
Qed.

Lemma encode_str_visible (s : pystr) : visible (encode_str s).
Proof.
  unfold encode_str. apply Forall_cons_2; [lia | ].
  apply visible_app; [ | repeat constructor; lia].
  induction s as [ | c s IH]; [constructor | ].
  cbn [map concat]. apply visible_app; [apply escape_cp_visible | exact IH].
Qed.

Lemma uint_chars_visible (u : Decimal.uint) : visible (uint_chars u).
Proof.
  induction u; cbn [uint_chars]; try constructor; try lia; done.
Qed.

Lemma scalar_text_proper (depth : nat) (v : value) :
  (∀ l, v ≠ VList l) → (∀ d, v ≠ VDict d) →
  proper_line (depth, scalar_text v).
Proof.
  intros Hl Hd. destruct v as [ | b | z | s | l | d]; cbn [scalar_text].
  - split; [repeat constructor; lia | by eexists _, _].
  - destruct b; (split; [repeat constructor; lia | by eexists _, _]).
  - unfold int_repr. destruct z as [ | p | p]; cbn [Z.to_int].
    + split; [repeat constructor; lia | by eexists _, _].
    + split; [apply uint_chars_visible | ]. cbn [snd].
      destruct (to_uint_head p) as (c & t & -> & Hdig & _).
      exists c, t. split; [done | ]. intros ->. done.
    + split; [ | by eexists _, _].
      apply Forall_cons_2; [cbn; lia | apply uint_chars_visible].
  - split; [apply encode_str_visible | by eexists _, _].
  - by destruct (Hl l).
  - by destruct (Hd d).
Qed.

Lemma comma_last_proper (block : list doc_line) :
  Forall proper_line block → Forall proper_line (comma_last block).
Proof.
  induction 1 as [ | [d t] block (Hv & c & t' & Ht & Hc) Hb IH]; [done | ].
  destruct block as [ | l block].
  - cbn. constructor; [ | done]. split.
    + apply visible_app; [done | repeat constructor; lia].
    + cbn [snd] in *. subst t. by eexists _, _.
  - change (comma_last ((d, t) :: l :: block))
      with ((d, t) :: comma_last (l :: block)).
    constructor; [ | exact IH]. split; [done | by eexists _, _].
Qed.

Lemma commas_proper (blocks : list (list doc_line)) :
  Forall (Forall proper_line) blocks → Forall proper_line (commas blocks).
Proof.
  induction 1 as [ | block blocks Hb Hbs IH]; [done | ].
  destruct blocks as [ | b' blocks]; [done | ].
  change (commas (block :: b' :: blocks))
    with (comma_last block ++ commas (b' :: blocks)).
  apply Forall_app. split; [by apply comma_last_proper | exact IH].
Qed.

Lemma keyed_proper (k : pystr) (block : list doc_line) :
  Forall proper_line block → Forall proper_line (keyed k block).
Proof.
  intros H. destruct H as [ | [d t] block (Hv & _) Hb]; [done | ].
  cbn [keyed]. constructor; [ | done]. split.
  - cbn [snd] in *. apply visible_app; [apply encode_str_visible | ].
    apply visible_app; [repeat constructor; lia | done].
  - by eexists _, _.
Qed.

(** Every line of [pretty_lines] is a line. *)
Lemma pretty_lines_proper (v : value) :
  ∀ depth, Forall proper_line (pretty_lines depth v).
Proof.
  induction v as [ | b | z | s | l IH | d IH] using value_ind'; intros depth;
    try (constructor; [by apply scalar_text_proper | constructor]).
  - destruct l as [ | x xs].
    { repeat constructor; [lia | lia | by eexists _, _]. }
    cbn [pretty_lines]. inversion IH as [ | ? ? Hx Hxs]; subst.
    apply Forall_app. split.
    { repeat constructor; [lia | by eexists _, _]. }
    apply Forall_app. split.
    + apply commas_proper. constructor; [apply Hx | ].
      apply Forall_map. eapply Forall_impl; [exact Hxs | ].
      intros y Hy. apply Hy.
    + repeat constructor; [lia | by eexists _, _].
  - destruct d as [ | [k x] kxs].
    { repeat constructor; [lia | lia | by eexists _, _]. }
    cbn [pretty_lines]. inversion IH as [ | ? ? Hx Hxs]; subst.
    apply Forall_app. split.
    { repeat constructor; [lia | by eexists _, _]. }
    apply Forall_app. split.
    + apply commas_proper. constructor; [apply keyed_proper, Hx | ].
      apply Forall_map. eapply Forall_impl; [exact Hxs | ].
      intros [k' y] Hy. apply keyed_proper, Hy.
    + repeat constructor; [lia | by eexists _, _].
Qed.

(** C6.  [save_catalog] serializes the catalog as pretty-printed JSON with a
    2-space indentation: the text of [json.dumps(catalog, indent=2)] is the
    lines of [pretty_lines] (one line for each scalar item, each opening and
    each closing bracket), every one indented by two spaces for each level
    of nesting and none of them containing a line feed or starting with a
    space; read back by [json.loads] it gives the catalog.  The text is
    encoded as UTF-8 (which cannot fail, and decodes back to the text), and
    [save_catalog] makes exactly one [put_object] call, to the configured
    bucket and key, with the length of the data and the content type
    [application/json].  When the call goes through, the object under that
    key is the new data, whatever was there before.  When the call raises,
    [save_catalog] raises the same exception: it neither retries nor wraps
    it. *)
Theorem save_catalog_single_put (catalog : value) (w : world) :
  ∃ data lines,
    lines = pretty_lines 0 catalog
    ∧ Forall proper_line lines
    ∧ json_dumps 2 catalog = join_lines lines
    ∧ (wf_value catalog = true → json_loads (join_lines lines) = Ret catalog)
    ∧ utf8_encode (json_dumps 2 catalog) = Some data
    ∧ utf8_decode data = Some (json_dumps 2 catalog)
    ∧ w_puts (save_catalog catalog w).2
      = w_puts w ++ [PutCall MINIO_BUCKET CATALOG_FILE data (length data)
                             (py "application/json")]
    ∧ (call_succeeds w →
       (save_catalog catalog w).1 = Ret tt
       ∧ w_store (save_catalog catalog w).2
         = <[(MINIO_BUCKET, CATALOG_FILE) :=
               S3Object data (py "application/json")]> (w_store w)
       ∧ w_store (save_catalog catalog w).2 !! (MINIO_BUCKET, CATALOG_FILE)
         = Some (S3Object data (py "application/json")))
    ∧ (∀ e w', put_object MINIO_BUCKET CATALOG_FILE data (length data)
                          (py "application/json") w = (Raise e, w') →
               save_catalog catalog w = (Raise e, w')
               ∧ w_store w' = w_store w).
Proof.
  destruct (encode_dumps 2 catalog) as (data & Henc & Hdec).
  exists data, (pretty_lines 0 catalog).
  rewrite (save_catalog_eq _ _ _ Henc).
  split; [done | ]. split; [apply pretty_lines_proper | ].
  split; [apply json_dumps_pretty | ].
  split.
  { intros Hwf. rewrite <- json_dumps_pretty. by apply json_loads_dumps. }
  split; [done | ]. split; [done | ].
  split; [apply put_object_puts | ].
  split.
  - intros Hok. unfold put_object, call_succeeds in *.
    destruct (next_fault w) as [f fs]. cbn in Hok. subst f.
    cbn [fst snd w_store]. rewrite firstn_all.
    split; [done | ]. split; [done | ]. apply lookup_insert_eq.
  - intros e w' H. split; [done | ].
    unfold put_object in H. destruct (next_fault w) as [[e' | ] fs]; [ | done].
    by injection H as _ <-.
Qed.

Lemma save_catalog_single_put_witness :
  let catalog :=
    VDict [(k_apps,
            VList [VDict [(k_id, VStr (py "weather"));
                          (k_icon, VStr (py "☀️"));
                          (k_featured, VBool false)];
                   VDict []])] in
  let w := world_with_catalog empty_catalog in
  ∃ data,
    utf8_decode data = Some (quoted "{
  'apps': [
    {
      'id': 'weather',
      'icon': '\u2600\ufe0f',
      'featured': false
    },
    {}
  ]
}")
    ∧ w_store (save_catalog catalog w).2 !! (MINIO_BUCKET, CATALOG_FILE)
      = Some (S3Object data (py "application/json"))
    ∧ obind (decode_utf8 data) json_loads = Ret catalog.
Proof.
  cbv zeta.
  destruct (save_catalog_single_put
              (VDict [(k_apps,
                       VList [VDict [(k_id, VStr (py "weather"));
                                     (k_icon, VStr (py "☀️"));
                                     (k_featured, VBool false)];
                              VDict []])])
              (world_with_catalog empty_catalog))
    as (data & lines & -> & _ & Htext & Hloads & _ & Hdec & _ & Hok & _).
  exists data. split; [ | split].
  - rewrite Hdec, Htext. vm_compute. reflexivity.
  - apply Hok. reflexivity.
  - unfold decode_utf8. rewrite Hdec, Htext. cbn [obind].
    apply Hloads. vm_compute. reflexivity.
Defined.

(** ** Saving and loading again *)

Lemma get_object_stored (w : world) (data : pybytes) (ct : pystr) :
  call_succeeds w →
  w_store w !! (MINIO_BUCKET, CATALOG_FILE) = Some (S3Object data ct) →
  get_object MINIO_BUCKET CATALOG_FILE w = (Ret data, after_call w).
Proof.
  unfold call_succeeds, get_object, after_call. intros Hok Hst.
  destruct (next_fault w) as [f fs]. cbn in Hok. subst f. by rewrite Hst.
Qed.

(** Reading the bytes of a saved value back gives the value. *)
Lemma reparse_saved (v : value) (data : pybytes) :
  wf_value v = true →
  utf8_encode (json_dumps 2 v) = Some data →
  obind (decode_utf8 data) json_loads = Ret v.
Proof.
  intros Hwf Henc. unfold decode_utf8.
  rewrite (utf8_roundtrip_ascii _ _ (dumps_at_ascii 2 v 0) Henc).
  cbn [obind]. by apply json_loads_dumps.
Qed.

(** After a save, the next load that goes through returns what was saved. *)
Lemma load_after_saved (v : value) (w w' : world) :
  wf_value v = true → saved v w w' → call_succeeds w' →
  load_catalog w' = (Ret v, after_call w').
Proof.
  intros Hwf (data & Henc & Hw') Hok.
  assert (w_store w' !! (MINIO_BUCKET, CATALOG_FILE)
          = Some (S3Object data JSON_CONTENT_TYPE)) as Hst.
  { rewrite Hw'. cbn [w_store]. apply lookup_insert_eq. }
  rewrite load_catalog_eq, (get_object_stored _ _ _ Hok Hst). cbn [fst].
  pose proof (reparse_saved v data Hwf Henc) as Hre.
  destruct (decode_utf8 data) as [text | e | ]; try done.
  cbn [obind] in Hre. by rewrite Hre.
Qed.

(** C9.  Round trip of [save_catalog] after [load_catalog].  Whatever
    [load_catalog] returned from the store (the parsed document, or the empty
    catalog), saving it writes bytes that decode and parse to a structure
    equal to it, so a second [load_catalog] returns the same structure again,
    and saving that a second time writes the same bytes. *)
Theorem save_load_roundtrip (w w1 : world) (v : value) :
  load_catalog w = (Ret v, w1) →
  call_succeeds w1 →
  ∃ data w2,
    save_catalog v w1 = (Ret tt, w2)
    ∧ w_store w2 !! (MINIO_BUCKET, CATALOG_FILE)
      = Some (S3Object data JSON_CONTENT_TYPE)
    ∧ obind (decode_utf8 data) json_loads = Ret v
    ∧ (call_succeeds w2 →
       load_catalog w2 = (Ret v, after_call w2)
       ∧ (call_succeeds (after_call w2) →
          ∃ w3, save_catalog v (after_call w2) = (Ret tt, w3)
                ∧ w_store w3 !! (MINIO_BUCKET, CATALOG_FILE)
                  = Some (S3Object data JSON_CONTENT_TYPE))).
Proof.
  intros Hload Hok.
  pose proof (load_catalog_wf _ _ _ Hload) as Hwf.
  destruct (save_catalog_saved v w1 Hok) as (w2 & Hsave & Hsaved).
  pose proof Hsaved as (data & Henc & Hw2).
  exists data, w2. split; [done | ].
  split; [rewrite Hw2; cbn [w_store]; apply lookup_insert_eq | ].
  split; [by apply reparse_saved | ].
  intros Hok2. split; [by eapply load_after_saved | ].
  intros Hok3.
  destruct (save_catalog_saved v (after_call w2) Hok3)
    as (w3 & Hsave3 & data3 & Henc3 & Hw3).
  exists w3. split; [done | ].
  assert (data3 = data) as -> by congruence.
  rewrite Hw3. cbn [w_store]. apply lookup_insert_eq.
Qed.

Lemma save_load_roundtrip_witness :
  let w := world_with_catalog unordered_catalog in
  ∃ data w2,
    save_catalog unordered_catalog (after_call w) = (Ret tt, w2)
    ∧ w_store w2 !! (MINIO_BUCKET, CATALOG_FILE)
      = Some (S3Object data JSON_CONTENT_TYPE)
    ∧ obind (decode_utf8 data) json_loads = Ret unordered_catalog
    ∧ load_catalog w2 = (Ret unordered_catalog, after_call w2).
Proof.
  cbv zeta.
  destruct (save_load_roundtrip
              (world_with_catalog unordered_catalog)
              (after_call (world_with_catalog unordered_catalog))
              unordered_catalog)
    as (data & w2 & Hsave & Hstore & Hparse & Hagain).
  - vm_compute. reflexivity.
  - reflexivity.
  - exists data, w2. split; [exact Hsave | ]. split; [exact Hstore | ].
    split; [exact Hparse | ]. apply Hagain.
    destruct (save_catalog_saved unordered_catalog
                (after_call (world_with_catalog unordered_catalog)) eq_refl)
      as (w2' & Hsave' & data' & _ & Hw2').
    rewrite Hsave in Hsave'. injection Hsave' as ->. rewrite Hw2'. reflexivity.
Defined.

(** ** Distinct ids *)

Lemma ids_insert (apps : list value) (i : nat) (e : value) :
  ids (<[i := e]> apps) = <[i := field e k_id]> (ids apps).
Proof. unfold ids. by rewrite list_fmap_insert. Qed.

Lemma has_id_field (e : value) (i : value) :
  field e k_id = Some i → has_id e.
Proof. destruct e; try done. intros H. by eexists _, _. Qed.

(** The update path keeps the ids as they are. *)
Lemma ids_update (apps : list value) (app_id : pystr) (i : nat) (e : value) :
  index_of_id apps app_id = Some i →
  field e k_id = Some (VStr app_id) →
  ids (<[i := e]> apps) = ids apps.
Proof.
  intros Hidx He. apply index_of_id_Some in Hidx as (old & Hold & Hid & _).
  rewrite ids_insert, He. apply list_insert_id.
  unfold ids. rewrite list_lookup_fmap, Hold. cbn.
  by apply id_is_true in Hid as ->.
Qed.

(** The insert path adds the new id, which no entry had. *)
Lemma ids_insert_new (apps : list value) (app_id : pystr) (e : value) :
  index_of_id apps app_id = None →
  field e k_id = Some (VStr app_id) →
  NoDup (ids apps) → NoDup (ids (apps ++ [e])).
Proof.
  intros Hidx He Hnd. unfold ids. rewrite fmap_app. cbn. rewrite He.
  apply NoDup_app. repeat split; [done | | apply NoDup_singleton].
  intros x Hx Hx'. apply list_elem_of_singleton in Hx' as ->.
  apply index_of_id_None, id_is_false_all in Hidx. done.
Qed.

(** Removing entries keeps the remaining ids distinct. *)
Lemma ids_filter (apps : list value) (P : value → Prop)
  `{∀ e, Decision (P e)} :
  NoDup (ids apps) → NoDup (ids (filter P apps)).
Proof.
  induction apps as [ | e apps IH]; [done | ].
  cbn [ids map]. intros Hnd. apply NoDup_cons in Hnd as (Hnotin & Hnd).
  rewrite filter_cons. destruct (decide (P e)); [ | by apply IH].
  cbn [ids map]. apply NoDup_cons. split; [ | by apply IH].
  intros Hin. apply Hnotin. unfold ids in *.
  apply list_elem_of_fmap in Hin as (x & Hx & Hin).
  apply list_elem_of_filter in Hin as (_ & Hin).
  apply list_elem_of_fmap. by exists x.
Qed.

(** ** Sequences of [add_app] calls *)

(** The arguments of one call of [add_app]. *)
Record add_call : Type := AddCall {
  c_id : pystr;
  c_name : pystr;
  c_icon : pystr;
  c_description : pystr;
  c_path : pystr;
  c_featured : bool }.

(** The world after the call. *)
Definition run_add (w : world) (c : add_call) : world :=
  (add_app (c_id c) (c_name c) (c_icon c) (c_description c) (c_path c)
           (c_featured c) w).2.

(** The world after the calls, in order. *)
Definition run_adds (cs : list add_call) (w : world) : world :=
  fold_left run_add cs w.

(** The texts of the call survive a round trip through JSON (as all text
    that a command line can deliver does). *)
Definition wf_call (c : add_call) : Prop :=
  wf_str (c_id c) = true ∧ wf_str (c_name c) = true
  ∧ wf_str (c_icon c) = true ∧ wf_str (c_description c) = true
  ∧ wf_str (c_path c) = true.

(** The last call of [cs] for an id. *)
Definition last_call (cs : list add_call) (app_id : pystr) : option add_call :=
  last (filter (λ c, c_id c = app_id) cs).

(** [e] is an entry that [add_app] builds for the call [c]: by insertion, or
    by update of an entry created at [created]. *)
Definition entry_of (c : add_call) (e : value) : Prop :=
  ∃ created,
    wf_str created = true
    ∧ (e = new_entry (c_id c) (c_name c) (c_icon c) (c_description c)
                     (c_path c) (c_featured c) created
       ∨ ∃ updated,
           wf_str updated = true
           ∧ e = updated_entry (c_id c) (c_name c) (c_icon c)
                               (c_description c) (c_path c) (c_featured c)
                               (VStr created) updated).

(** The index of the first call with the id. *)
Fixpoint index_of_call (m : list add_call) (app_id : pystr) : option nat :=
  match m with
  | [] => None
  | c :: m' =>
    if str_eqb (c_id c) app_id then Some 0%nat
    else S <$> index_of_call m' app_id
  end.

(** The calls that the catalog reflects after one more call: the call takes
    the place of the one with its id, or goes last. *)
Definition model_step (m : list add_call) (c : add_call) : list add_call :=
  match index_of_call m (c_id c) with
  | Some i => <[i := c]> m
  | None => m ++ [c]
  end.

Definition model (cs : list add_call) : list add_call :=
  fold_left model_step cs [].

Lemma entry_of_fields (c : add_call) (e : value) :
  entry_of c e →
  field e k_id = Some (VStr (c_id c))
  ∧ field e k_name = Some (VStr (c_name c))
  ∧ field e k_icon = Some (VStr (c_icon c))
  ∧ field e k_description = Some (VStr (c_description c))
  ∧ field e k_path = Some (VStr (c_path c))
  ∧ field e k_featured = Some (VBool (c_featured c))
  ∧ ∃ created, field e k_created_at = Some (VStr created)
               ∧ wf_str created = true.
Proof.
  intros (created & Hc & [-> | (updated & Hu & ->)]);
    repeat split; by exists created.
Qed.

Lemma entry_of_has_id (c : add_call) (e : value) : entry_of c e → has_id e.
Proof.
  intros H. apply entry_of_fields in H as (H & _). by eapply has_id_field.
Qed.

Lemma entry_of_listable (c : add_call) (e : value) :
  entry_of c e → listable e.
Proof.
  intros (created & Hc & [-> | (updated & Hu & ->)]);
    (split; [by eexists | ]);
    repeat (split; [by eexists | ]);
    split; right; by eexists.
Qed.

Lemma entry_of_wf (c : add_call) (e : value) :
  wf_call c → entry_of c e → wf_value e = true.
Proof.
  intros (H1 & H2 & H3 & H4 & H5) (created & Hc & [-> | (updated & Hu & ->)]).
  - unfold new_entry. cbn [wf_value forallb fst snd].
    rewrite H1, H2, H3, H4, H5, Hc. reflexivity.
  - unfold updated_entry. cbn [wf_value forallb fst snd].
    rewrite H1, H2, H3, H4, H5, Hc, Hu. reflexivity.
Qed.

Lemma entry_of_id_is (c : add_call) (e : value) (app_id : pystr) :
  entry_of c e → id_is e app_id = str_eqb (c_id c) app_id.
Proof.
  intros H. apply entry_of_fields in H as (H & _). unfold id_is.
  by rewrite H.
Qed.

Lemma index_of_id_model (m : list add_call) (apps : list value)
  (app_id : pystr) :
  Forall2 entry_of m apps →
  index_of_id apps app_id = index_of_call m app_id.
Proof.
  induction 1 as [ | c e m apps He _ IH]; [done | ].
  cbn [index_of_id index_of_call]. rewrite (entry_of_id_is c e _ He).
  by rewrite IH.
Qed.

Lemma index_of_call_Some (m : list add_call) (app_id : pystr) (i : nat) :
  index_of_call m app_id = Some i →
  ∃ c, m !! i = Some c ∧ c_id c = app_id.
Proof.
  revert i. induction m as [ | c m IH]; intros i; [done | ].
  cbn [index_of_call]. destruct (str_eqb (c_id c) app_id) eqn:E.
  - intros [= <-]. exists c. split; [done | by apply str_eqb_eq].
  - destruct (index_of_call m app_id) as [j | ]; [ | done].
    intros [= <-]. by apply IH.
Qed.

Lemma index_of_call_None (m : list add_call) (app_id : pystr) :
  index_of_call m app_id = None ↔ app_id ∉ map c_id m.
Proof.
  induction m as [ | c m IH]; cbn [index_of_call map].
  - split; [intros _; apply not_elem_of_nil | done].
  - destruct (str_eqb (c_id c) app_id) eqn:E.
    + apply str_eqb_eq in E. split; [done | ]. intros H. exfalso. apply H.
      rewrite E. left.
    + apply str_eqb_neq in E.
      destruct (index_of_call m app_id) as [j | ]; cbn.
      * split; [done | ]. intros H. exfalso.
        apply not_elem_of_cons in H as (_ & H). by apply IH in H.
      * split; [ | done]. intros _. apply not_elem_of_cons.
        split; [done | by apply IH].
Qed.

Lemma model_snoc (cs : list add_call) (c : add_call) :
  model (cs ++ [c]) = model_step (model cs) c.
Proof. unfold model. by rewrite fold_left_app. Qed.

Lemma last_call_snoc (cs : list add_call) (c : add_call) (app_id : pystr) :
  last_call (cs ++ [c]) app_id
  = if decide (c_id c = app_id) then Some c else last_call cs app_id.
Proof.
  unfold last_call. rewrite filter_app, filter_cons, filter_nil.
  destruct (decide (c_id c = app_id)).
  - apply last_snoc.
  - by rewrite app_nil_r.
Qed.

(** The ids of the model after one more call. *)
Lemma model_step_ids (m : list add_call) (c : add_call) :
  map c_id (model_step m c)
  = match index_of_call m (c_id c) with
    | Some _ => map c_id m
    | None => map c_id m ++ [c_id c]
    end.
Proof.
  unfold model_step. destruct (index_of_call m (c_id c)) as [i | ] eqn:E.
  - apply index_of_call_Some in E as (c' & Hc' & Hid).
    change (map c_id (<[i:=c]> m)) with (c_id <$> <[i:=c]> m).
    rewrite list_fmap_insert. apply list_insert_id.
    rewrite list_lookup_fmap, Hc'. cbn. by rewrite Hid.
  - by rewrite map_app.
Qed.

(** The model holds each id once, holds the ids of the calls, and holds for
    each id the last call that named it. *)
Lemma model_spec (cs : list add_call) :
  NoDup (map c_id (model cs))
  ∧ (∀ app_id, app_id ∈ map c_id (model cs) ↔ app_id ∈ map c_id cs)
  ∧ (∀ c, c ∈ model cs → last_call cs (c_id c) = Some c).
Proof.
  induction cs as [ | c cs (IHnd & IHids & IHlast)] using rev_ind.
  { repeat split; try constructor; try done.
    intros c Hc. by apply elem_of_nil in Hc. }
  rewrite model_snoc. pose proof (model_step_ids (model cs) c) as Hids.
  repeat split.
  - rewrite Hids.
    destruct (index_of_call (model cs) (c_id c)) eqn:E; [done | ].
    apply index_of_call_None in E.
    apply NoDup_app. repeat split; [done | | apply NoDup_singleton].
    intros x Hx Hx'. by apply list_elem_of_singleton in Hx' as ->.
  - rewrite Hids, map_app, elem_of_app. cbn.
    rewrite list_elem_of_singleton, <- IHids.
    destruct (index_of_call (model cs) (c_id c)) as [i | ] eqn:E.
    + intros H. by left.
    + rewrite elem_of_app, list_elem_of_singleton. tauto.
  - rewrite Hids, map_app, elem_of_app. cbn.
    rewrite list_elem_of_singleton, <- IHids.
    destruct (index_of_call (model cs) (c_id c)) as [i | ] eqn:E.
    + intros [H | ->]; [done | ].
      apply index_of_call_Some in E as (c' & Hc' & <-).
      apply list_elem_of_fmap. exists c'. split; [done | ].
      by eapply list_elem_of_lookup_2.
    + rewrite elem_of_app, list_elem_of_singleton. tauto.
  - intros c' Hc'. rewrite last_call_snoc. unfold model_step in Hc'.
    destruct (decide (c_id c = c_id c')) as [Heq | Hne].
    + f_equal. destruct (index_of_call (model cs) (c_id c)) as [i | ] eqn:E.
      * apply index_of_call_Some in E as (c0 & Hc0 & Hid0).
        apply list_elem_of_lookup in Hc' as (j & Hj).
        destruct (decide (i = j)) as [-> | Hij].
        -- rewrite list_lookup_insert_eq in Hj by (by eapply lookup_lt_Some).
           congruence.
        -- rewrite list_lookup_insert_ne in Hj by done.
           exfalso. apply Hij.
           apply (NoDup_lookup (map c_id (model cs)) i j (c_id c)); [done | | ].
           ++ change (map c_id (model cs)) with (c_id <$> model cs).
              rewrite list_lookup_fmap, Hc0. cbn. by rewrite Hid0.
           ++ change (map c_id (model cs)) with (c_id <$> model cs).
              rewrite list_lookup_fmap, Hj. cbn. by rewrite Heq.
      * apply elem_of_app in Hc' as [Hin | Hin].
        -- apply index_of_call_None in E. exfalso. apply E.
           rewrite Heq. apply list_elem_of_fmap. by exists c'.
        -- by apply list_elem_of_singleton in Hin.
    + apply IHlast.
      destruct (index_of_call (model cs) (c_id c)) as [i | ] eqn:E.
      * apply list_elem_of_lookup in Hc' as (j & Hj).
        destruct (decide (i = j)) as [-> | Hij].
        -- apply index_of_call_Some in E as (c0 & Hc0 & Hid0).
           rewrite list_lookup_insert_eq in Hj by (by eapply lookup_lt_Some).
           congruence.
        -- rewrite list_lookup_insert_ne in Hj by done.
           by eapply list_elem_of_lookup_2.
      * apply elem_of_app in Hc' as [Hin | Hin]; [done | ].
        apply list_elem_of_singleton in Hin. congruence.
Qed.

(** The store holds [v], as [save_catalog] writes it, under the catalog's
    key. *)
Definition stored (w : world) (v : value) : Prop :=
  ∃ data,
    utf8_encode (json_dumps 2 v) = Some data
    ∧ w_store w !! (MINIO_BUCKET, CATALOG_FILE)
      = Some (S3Object data JSON_CONTENT_TYPE).

(** The store holds the catalog of the entries [apps]; the catalog without
    entries is also the one of a store without the object. *)
Definition holds (w : world) (apps : list value) : Prop :=
  stored w (VDict [(k_apps, VList apps)])
  ∨ (apps = [] ∧ w_store w !! (MINIO_BUCKET, CATALOG_FILE) = None).

Lemma after_call_no_faults (w : world) : w_faults w = [] → after_call w = w.
Proof.
  intros H. unfold after_call, next_fault. rewrite H. cbn.
  destruct w. cbn in *. by subst.
Qed.

Lemma call_succeeds_no_faults (w : world) : w_faults w = [] → call_succeeds w.
Proof. intros H. unfold call_succeeds, next_fault. by rewrite H. Qed.

Lemma load_holds (w : world) (apps : list value) :
  w_faults w = [] → holds w apps → forallb wf_value apps = true →
  load_catalog w = (Ret (VDict [(k_apps, VList apps)]), w).
Proof.
  intros Hf Hholds Hwf. rewrite load_catalog_eq, (after_call_no_faults _ Hf).
  f_equal. destruct Hholds as [(data & Henc & Hst) | (-> & Hnone)].
  - rewrite (get_object_stored _ _ _ (call_succeeds_no_faults _ Hf) Hst).
    cbn [fst].
    assert (wf_value (VDict [(k_apps, VList apps)]) = true) as Hwfc
      by (cbn [wf_value forallb fst snd]; rewrite Hwf; reflexivity).
    pose proof (reparse_saved _ data Hwfc Henc) as Hre.
    destruct (decode_utf8 data) as [text | e | ]; try done.
    cbn [obind] in Hre. by rewrite Hre.
  - unfold get_object, next_fault. rewrite Hf, Hnone. reflexivity.
Qed.

Lemma saved_holds (apps : list value) (w w' : world) (line : pystr) :
  w_faults w = [] →
  saved (VDict [(k_apps, VList apps)]) w w' →
  w_faults (printed line w') = []
  ∧ holds (printed line w') apps
  ∧ w_clock (printed line w') = w_clock w.
Proof.
  intros Hf (data & Henc & ->). unfold next_fault. rewrite Hf.
  repeat split. left. exists data. split; [done | ].
  cbn [printed w_store]. apply lookup_insert_eq.
Qed.

(** One call of [add_app] on a world without faults ahead: the store holds
    the entries of the model after the call. *)
Lemma run_add_step (w : world) (apps : list value) (m : list add_call)
  (c : add_call) :
  w_faults w = [] → holds w apps →
  Forall2 entry_of m apps → Forall wf_call m → wf_call c →
  (∀ n, wf_str (w_clock w n) = true) →
  ∃ apps',
    w_faults (run_add w c) = []
    ∧ holds (run_add w c) apps'
    ∧ w_clock (run_add w c) = w_clock w
    ∧ Forall2 entry_of (model_step m c) apps'
    ∧ Forall wf_call (model_step m c).
Proof.
  intros Hf Hholds Hm Hwfm Hwfc Hclock.
  assert (forallb wf_value apps = true) as Hwf.
  { apply forallb_forall. intros e He. apply list_elem_of_In in He.
    apply list_elem_of_lookup in He as (i & He).
    destruct (Forall2_lookup_r _ _ _ _ _ Hm He) as (c' & Hc' & Hce).
    eapply entry_of_wf; [ | exact Hce].
    eapply Forall_lookup_1; [exact Hwfm | exact Hc']. }
  pose proof (load_holds w apps Hf Hholds Hwf) as Hload.
  assert (Forall has_id apps) as Hids.
  { apply Forall_forall. intros e He.
    apply list_elem_of_lookup in He as (i & He).
    destruct (Forall2_lookup_r _ _ _ _ _ Hm He) as (c' & _ & Hce).
    by eapply entry_of_has_id. }
  pose proof (add_app_cases w w [(k_apps, VList apps)] apps
                (c_id c) (c_name c) (c_icon c) (c_description c) (c_path c)
                (c_featured c) Hload eq_refl Hids
                (call_succeeds_no_faults _ Hf)) as Hadd.
  unfold run_add, model_step.
  rewrite (index_of_id_model m apps (c_id c) Hm) in Hadd.
  destruct (index_of_call m (c_id c)) as [i | ] eqn:Hidx.
  - destruct Hadd as (old & w_s & Hold & Hsaved & ->). cbn [snd].
    destruct (Forall2_lookup_r _ _ _ _ _ Hm Hold) as (c' & Hc' & Hce).
    destruct (entry_of_fields _ _ Hce)
      as (_ & _ & _ & _ & _ & _ & created & Hcreated & Hwfcr).
    rewrite Hcreated in Hsaved. cbn [default from_option id] in Hsaved.
    change (dict_set [(k_apps, VList apps)] k_apps ?x)
      with [(k_apps, x)] in Hsaved.
    eexists. pose proof (saved_holds _ _ _
                           (add_message (py "Updated") (c_name c) (c_id c))
                           (Hf : w_faults (tick 2 w) = []) Hsaved)
      as (H1 & H2 & H3).
    split; [exact H1 | ]. split; [exact H2 | ]. split; [exact H3 | ].
    split.
    + apply Forall2_insert; [done | ].
      exists created. split; [done | ]. right.
      exists (w_clock w (S (w_ticks w))). split; [apply Hclock | done].
    + apply Forall_insert; done.
  - destruct Hadd as (w_s & Hsaved & ->). cbn [snd].
    change (dict_set [(k_apps, VList apps)] k_apps ?x)
      with [(k_apps, x)] in Hsaved.
    eexists. pose proof (saved_holds _ _ _
                           (add_message (py "Added") (c_name c) (c_id c))
                           (Hf : w_faults (tick 1 w) = []) Hsaved)
      as (H1 & H2 & H3).
    split; [exact H1 | ]. split; [exact H2 | ]. split; [exact H3 | ].
    split.
    + apply Forall2_app; [done | ]. constructor; [ | constructor].
      exists (w_clock w (w_ticks w)). split; [apply Hclock | by left].
    + apply Forall_app. split; [done | by constructor].
Qed.

(** The calls, one after the other, from a world without faults ahead. *)
Lemma run_adds_inv (cs : list add_call) :
  ∀ (w : world) (apps : list value) (m : list add_call),
    w_faults w = [] → holds w apps →
    Forall2 entry_of m apps → Forall wf_call m → Forall wf_call cs →
    (∀ n, wf_str (w_clock w n) = true) →
    ∃ apps',
      w_faults (run_adds cs w) = []
      ∧ holds (run_adds cs w) apps'
      ∧ Forall2 entry_of (fold_left model_step cs m) apps'
      ∧ Forall wf_call (fold_left model_step cs m).
Proof.
  induction cs as [ | c cs IH]; intros w apps m Hf Hholds Hm Hwfm Hwfcs Hclock.
  - by exists apps.
  - apply Forall_cons in Hwfcs as (Hwfc & Hwfcs).
    destruct (run_add_step w apps m c Hf Hholds Hm Hwfm Hwfc Hclock)
      as (apps1 & Hf1 & Hholds1 & Hclock1 & Hm1 & Hwfm1).
    cbn [run_adds fold_left].
    apply (IH (run_add w c) apps1 (model_step m c)); try done.
    intros n. rewrite Hclock1. apply Hclock.
Qed.

Lemma ids_model (m : list add_call) (apps : list value) :
  Forall2 entry_of m apps →
  ids apps = map (λ c, Some (VStr (c_id c))) m.
Proof.
  induction 1 as [ | c e m apps He _ IH]; [done | ].
  cbn [ids map]. apply entry_of_fields in He as (-> & _).
  f_equal. exact IH.
Qed.

(** C4.  Distinct ids are an invariant.  (1) [add_app] on a catalog whose
    entries carry distinct ids saves a catalog whose entries carry distinct
    ids.  (2) So does [remove_app], which saves the entries it keeps (and
    saves nothing when the id is absent).  (3) From a store without catalog,
    after any sequence of [add_app] calls (none failing), the catalog that
    [load_catalog] returns and [list_apps] lists has exactly one entry for
    each id that was passed, and each entry carries the fields of the last
    call that passed its id. *)
Theorem ids_stay_distinct :
  (∀ (w w1 : world) (d : list (pystr * value)) (apps : list value)
     (app_id name icon description path : pystr) (featured : bool),
      load_catalog w = (Ret (VDict d), w1) →
      dict_get d k_apps = Some (VList apps) →
      Forall has_id apps → NoDup (ids apps) → call_succeeds w1 →
      ∃ apps' w_s n action,
        saved (VDict (dict_set d k_apps (VList apps'))) (tick n w1) w_s
        ∧ add_app app_id name icon description path featured w
          = (Ret (VBool true), printed (add_message action name app_id) w_s)
        ∧ Forall has_id apps' ∧ NoDup (ids apps'))
  ∧ (∀ (w w1 : world) (d : list (pystr * value)) (apps : list value)
       (app_id : pystr),
        load_catalog w = (Ret (VDict d), w1) →
        dict_get d k_apps = Some (VList apps) →
        Forall has_id apps → NoDup (ids apps) → call_succeeds w1 →
        let kept := filter (λ e, id_is e app_id = false) apps in
        Forall has_id kept ∧ NoDup (ids kept)
        ∧ (Some (VStr app_id) ∈ ids apps →
           ∃ w_s,
             saved (VDict (dict_set d k_apps (VList kept))) w1 w_s
             ∧ remove_app app_id w
               = (Ret (VBool true),
                  printed (py "Removed app: " ++ app_id) w_s))
        ∧ (Some (VStr app_id) ∉ ids apps →
           kept = apps
           ∧ w_store (remove_app app_id w).2 = w_store w
           ∧ w_puts (remove_app app_id w).2 = w_puts w))
  ∧ (∀ (w0 : world) (cs : list add_call),
        w_store w0 !! (MINIO_BUCKET, CATALOG_FILE) = None →
        w_faults w0 = [] →
        (∀ n, wf_str (w_clock w0 n) = true) →
        Forall wf_call cs →
        let w := run_adds cs w0 in
        ∃ apps,
          load_catalog w = (Ret (VDict [(k_apps, VList apps)]), w)
          ∧ list_apps w
            = (Ret VNone,
               World (w_store w) (w_faults w) (w_clock w) (w_ticks w)
                     (w_stdout w ++ listing apps) (w_puts w))
          ∧ sorted_apps apps ≡ₚ apps
          ∧ NoDup (ids apps)
          ∧ (∀ app_id, Some (VStr app_id) ∈ ids apps ↔ app_id ∈ map c_id cs)
          ∧ (∀ e, e ∈ apps →
                  ∃ c, last_call cs (c_id c) = Some c
                       ∧ field e k_id = Some (VStr (c_id c))
                       ∧ field e k_name = Some (VStr (c_name c))
                       ∧ field e k_icon = Some (VStr (c_icon c))
                       ∧ field e k_description = Some (VStr (c_description c))
                       ∧ field e k_path = Some (VStr (c_path c))
                       ∧ field e k_featured = Some (VBool (c_featured c)))).
Proof.
  split; [ | split].
  - intros w w1 d apps app_id name icon description path featured
           Hload Happs Hids Hnd Hok.
    pose proof (add_app_cases w w1 d apps app_id name icon description path
                  featured Hload Happs Hids Hok) as H.
    destruct (index_of_id apps app_id) as [i | ] eqn:Hidx.
    + destruct H as (old & w_s & Hold & Hsaved & Hadd).
      eexists _, w_s, 2%nat, (py "Updated").
      split; [exact Hsaved | ]. split; [exact Hadd | ]. split.
      * apply Forall_insert; [done | ]. by eapply has_id_field.
      * by rewrite (ids_update apps app_id).
    + destruct H as (w_s & Hsaved & Hadd).
      eexists _, w_s, 1%nat, (py "Added").
      split; [exact Hsaved | ]. split; [exact Hadd | ]. split.
      * apply Forall_app. split; [done | ].
        constructor; [ | constructor]. by eapply has_id_field.
      * by apply (ids_insert_new apps app_id).
  - intros w w1 d apps app_id Hload Happs Hids Hnd Hok kept.
    pose proof (remove_app_eq w w1 d apps app_id Hload Happs Hids) as Heq.
    cbv zeta in Heq. fold kept in Heq.
    split.
    { apply Forall_forall. intros e He.
      apply list_elem_of_filter in He as (_ & He).
      rewrite Forall_forall in Hids. by apply Hids. }
    split; [by apply ids_filter | ].
    split.
    + intros Hin.
      pose proof (filter_present_shorter apps app_id Hin) as Hlen.
      fold kept in Hlen.
      destruct (save_catalog_saved
                  (VDict (dict_set d k_apps (VList kept))) w1 Hok)
        as (w_s & Hsave & Hsaved).
      exists w_s. split; [done | ]. rewrite Heq.
      destruct (Nat.ltb_spec (length kept) (length apps)); [ | lia].
      by rewrite (bind_eq _ _ _ _ _ Hsave).
    + intros Hout. apply id_is_false_all in Hout.
      assert (kept = apps) as Hkept by (by apply filter_all).
      split; [done | ]. rewrite Heq, Hkept, Nat.ltb_irrefl.
      pose proof (load_catalog_world w) as Hw. rewrite Hload in Hw.
      cbn in Hw. by subst w1.
  - intros w0 cs Hnone Hf Hclock Hwfcs w.
    destruct (run_adds_inv cs w0 [] [] Hf (or_intror (conj eq_refl Hnone))
                (Forall2_nil_2 _ _ entry_of) (Forall_nil_2 _) Hwfcs Hclock)
      as (apps & Hf' & Hholds & Hm & Hwfm).
    fold w in Hf', Hholds. fold (model cs) in Hm, Hwfm.
    destruct (model_spec cs) as (Mnd & Mids & Mlast).
    assert (forallb wf_value apps = true) as Hwf.
    { apply forallb_forall. intros e He. apply list_elem_of_In in He.
      apply list_elem_of_lookup in He as (i & He).
      destruct (Forall2_lookup_r _ _ _ _ _ Hm He) as (c' & Hc' & Hce).
      eapply entry_of_wf; [ | exact Hce].
      eapply Forall_lookup_1; [exact Hwfm | exact Hc']. }
    pose proof (load_holds w apps Hf' Hholds Hwf) as Hload.
    exists apps. split; [exact Hload | ]. split.
    { apply (list_apps_listing w w [(k_apps, VList apps)] apps Hload eq_refl).
      apply Forall_forall. intros e He.
      apply list_elem_of_lookup in He as (i & He).
      destruct (Forall2_lookup_r _ _ _ _ _ Hm He) as (c' & _ & Hce).
      by eapply entry_of_listable. }
    split; [apply sorted_apps_perm | ].
    rewrite (ids_model _ _ Hm).
    split; [ | split].
    + rewrite <- (map_map c_id (λ s, Some (VStr s))).
      assert (Inj eq eq (λ s : pystr, Some (VStr s))) as Hinj
        by (by intros x y [= ->]).
      by apply (NoDup_fmap_2 (λ s : pystr, Some (VStr s))).
    + intros app_id. rewrite <- Mids.
      rewrite <- (map_map c_id (λ s, Some (VStr s))).
      split.
      * intros H. apply list_elem_of_fmap in H as (x & [= ->] & Hx). done.
      * intros H. apply list_elem_of_fmap. by exists app_id.
    + intros e He. apply list_elem_of_lookup in He as (i & He).
      destruct (Forall2_lookup_r _ _ _ _ _ Hm He) as (c & Hc & Hce).
      exists c. split; [apply Mlast; by eapply list_elem_of_lookup_2 | ].
      destruct (entry_of_fields _ _ Hce) as (? & ? & ? & ? & ? & ? & _).
      done.
Qed.

Lemma ascii_wf_str (s : pystr) : ascii_text s → wf_str s = true.
Proof.
  induction 1 as [ | c s Hc _ IH]; [done | ].
  cbn [wf_str]. rewrite IH, andb_true_r.
  apply andb_true_iff. split; [apply N.leb_le; lia | ].
  unfold is_high_surrogate. destruct (N.leb_spec 55296 c); [lia | done].
Qed.

Lemma ascii_text_check (s : pystr) :
  forallb (λ c, c <? 128) s = true → ascii_text s.
Proof.
  intros H. apply Forall_forall. intros c Hc.
  rewrite forallb_forall in H. apply N.ltb_lt, H. by apply list_elem_of_In.
Qed.

(** The scenario of the specification: from an empty store, an insert, a
    second insert and an update of the first entry. *)
Definition scenario_calls : list add_call :=
  [AddCall (py "weather") (py "Weather") (py "☀️") (py "Shows weather")
           (py "/apps/weather/index.html") false;
   AddCall (py "notes") (py "Notes") (py "N") (py "Takes notes")
           (py "/apps/notes/index.html") false;
   AddCall (py "weather") (py "Weather") (py "☀️") (py "Shows weather")
           (py "/apps/weather/index.html") true].

(** A world with an empty store, no faults ahead and a clock that numbers
    its readings. *)
Definition empty_world : world :=
  World ∅ [] (λ n, py "2026-01-01T00:00:00+00:00" ++ nat_str n) 0 [] [].

Lemma ids_stay_distinct_witness :
  let w := run_adds scenario_calls empty_world in
  ∃ apps,
    load_catalog w = (Ret (VDict [(k_apps, VList apps)]), w)
    ∧ length apps = 2%nat
    ∧ NoDup (ids apps)
    ∧ (∀ e, e ∈ apps →
            field e k_id = Some (VStr (py "weather")) →
            field e k_featured = Some (VBool true)).
Proof.
  cbv zeta.
  destruct (proj2 (proj2 ids_stay_distinct) empty_world scenario_calls)
    as (apps & Hload & _ & _ & Hnd & _ & Hlast).
  - reflexivity.
  - reflexivity.
  - intros n. apply ascii_wf_str, ascii_text_app.
    + by apply ascii_text_check.
    + apply int_repr_ascii.
  - repeat (apply Forall_cons_2; [repeat split; reflexivity | ]).
    apply Forall_nil_2.
  - exists apps. split; [exact Hload | ].
    assert (load_catalog (run_adds scenario_calls empty_world)
            = (Ret (VDict [(k_apps,
                            VList [updated_entry (py "weather") (py "Weather")
                                     (py "☀️") (py "Shows weather")
                                     (py "/apps/weather/index.html") true
                                     (VStr (py "2026-01-01T00:00:00+00:000"))
                                     (py "2026-01-01T00:00:00+00:003");
                                   new_entry (py "notes") (py "Notes") (py "N")
                                     (py "Takes notes")
                                     (py "/apps/notes/index.html") false
                                     (py "2026-01-01T00:00:00+00:001")])]),
               run_adds scenario_calls empty_world)) as Hload'
      by (vm_compute; reflexivity).
    rewrite Hload in Hload'. apply (f_equal fst) in Hload'.
    cbn [fst] in Hload'. injection Hload' as ->.
    split; [reflexivity | ]. split; [exact Hnd | ].
    intros e He Hid. destruct (Hlast e He) as (c & Hc & Hcid & _ & _ & _ & _ & Hf).
    rewrite Hf. rewrite Hid in Hcid. injection Hcid as Hcid.
    rewrite <- Hcid in Hc. vm_compute in Hc. by injection Hc as <-.
Defined.

(** * Further properties of the operations

    What the operations do on every path (what they write, print and leave
    alone), how they end when the read or the write fails or the document
    has an unexpected shape, the order and the layout of the listing, and
    how calls compose through the store. *)

(** ** What the operations leave alone *)

(** Computations whose every run, however it ends, leaves the world in the
    relation [R] to the one it started in. *)
Definition keeps {A} (R : world → world → Prop) (m : M A) : Prop :=
  ∀ w, R w (m w).2.

Section keeps_lemmas.
Context (R : world → world → Prop) `{!PreOrder R}.

Lemma keeps_ret {A} (a : A) : keeps R (ret a).
Proof. intros w. reflexivity. Qed.

Lemma keeps_lift {A} (o : outcome A) : keeps R (lift o).
Proof. intros w. reflexivity. Qed.

Lemma keeps_bind {A B} (m : M A) (k : A → M B) :
  keeps R m → (∀ a, keeps R (k a)) → keeps R (bind m k).
Proof.
  intros Hm Hk w. unfold bind. specialize (Hm w).
  destruct (m w) as [[a | e | ] w']; cbn [snd] in *; [ | done | done].
  etrans; [exact Hm | apply Hk].
Qed.
End keeps_lemmas.

(** The run made no [put_object] call, printed nothing and left the store
    and the clock function alone: all it may have done is make a read call
    and take readings of the clock. *)
Definition quiet (w w' : world) : Prop :=
  w_store w' = w_store w ∧ w_puts w' = w_puts w
  ∧ w_stdout w' = w_stdout w ∧ w_clock w' = w_clock w.

(** The run did nothing but print. *)
Definition only_printed (w w' : world) : Prop :=
  ∃ out, w' = World (w_store w) (w_faults w) (w_clock w) (w_ticks w)
                    (w_stdout w ++ out) (w_puts w).

#[local] Instance quiet_preorder : PreOrder quiet.
Proof.
  split.
  - by intros w.
  - intros w1 w2 w3 (? & ? & ? & ?) (? & ? & ? & ?).
    repeat split; congruence.
Qed.

#[local] Instance only_printed_preorder : PreOrder only_printed.
Proof.
  split.
  - intros w. exists []. rewrite app_nil_r. by destruct w.
  - intros w1 w2 w3 (out1 & ->) (out2 & ->). exists (out1 ++ out2).
    cbn. by rewrite app_assoc.
Qed.



Lemma keeps_print (line : pystr) : keeps only_printed (print line).
Proof. intros w. by exists [line]. Qed.

Lemma keeps_print_rows (rows : list value) : keeps only_printed (print_rows rows).
Proof.
  induction rows as [ | e rows IH]; cbn [print_rows].
  - apply keeps_ret, _.
  - apply keeps_bind; [apply _ | apply keeps_lift, _ | intros row].
    apply keeps_bind; [apply _ | apply keeps_print | intros _; exact IH].
Qed.

(** The steps of a computation that only prints. *)
Ltac keeps_printed :=
  repeat first
    [ apply keeps_print | apply keeps_print_rows
    | apply (keeps_lift only_printed) | apply (keeps_ret only_printed)
    | apply (keeps_bind only_printed); [ | intros ? ] ].

(** X1.  [list_apps] only reads and prints.  However it ends (with the table,
    with ["Catalog is empty"], or with an exception part of the way), it has
    made one client call, the read; it has made no [put_object] call, the
    store and the clock are as they were, and the lines printed before are
    still there, followed by its own. *)
Theorem list_apps_read_only (w : world) :
  ∃ out,
    (list_apps w).2
    = World (w_store w) (next_fault w).2 (w_clock w) (w_ticks w)
            (w_stdout w ++ out) (w_puts w).
Proof.
  assert (∀ catalog, keeps only_printed
            (let! apps := lift (py_getitem catalog k_apps) in
             if negb (py_truth apps) then
               run! print (py "Catalog is empty") in
               ret VNone
             else
               run! print table_header in
               run! print (repeat 45 80) in
               let! apps := lift (py_getitem catalog k_apps) in
               let! rows := lift (py_sorted created_at_key apps) in
               run! print_rows rows in
               let! apps := lift (py_getitem catalog k_apps) in
               let! n := lift (py_len apps) in
               run! print (10 :: py "Total: " ++ nat_str n ++ py " apps") in
               ret VNone)) as Hrest.
  { intros catalog. apply (keeps_bind only_printed);
      [apply keeps_lift, _ | intros apps].
    destruct (negb (py_truth apps)); keeps_printed. }
  unfold list_apps, bind at 1.
  pose proof (load_catalog_world w) as Hw.
  destruct (load_catalog w) as [[catalog | e | ] w1]; cbn [snd] in Hw; subst w1.
  - destruct (Hrest catalog (after_call w)) as (out & ->). by exists out.
  - exists []. by rewrite app_nil_r.
  - exists []. by rewrite app_nil_r.
Qed.




(** ** An output that can refuse a line *)

(** [print(line)] on an output that may refuse lines: [out line] is the
    exception that writing [line] raises ([UnicodeEncodeError] when the
    encoding of the output has no bytes for a character of the line, a
    [ConnectionError] when the pipe is broken, ...), or [None] when the line
    goes out.  A refused line leaves no trace in the output. *)
Definition print_on (out : pystr → option exn) (line : pystr) : M unit :=
  λ w, match out line with
       | None => print line w
       | Some e => (Raise e, w)
       end.

(** The output that takes every line. *)
Definition accepting : pystr → option exn := λ _, None.

(** An output that encodes to UTF-8 and is strict about it, as the standard
    output of a UTF-8 terminal is: a line with a surrogate is refused. *)
Definition utf8_output (line : pystr) : option exn :=
  match utf8_encode line with
  | Some _ => None
  | None => Some UnicodeEncodeError
  end.

(** [def add_app(...)], printing to the output [out]. *)
Definition add_app_on (out : pystr → option exn)
  (app_id name icon description path : pystr) (featured : bool) : M value :=
  let! catalog := load_catalog in
  let! apps := lift (py_getitem catalog k_apps) in
  let! items := lift (py_iter apps) in
  let! existing_idx := lift (find_existing items app_id 0) in
  let! now := now_isoformat in
  let app_entry := new_entry app_id name icon description path featured now in
  let! r :=
    match existing_idx with
    | Some idx =>
      let! apps := lift (py_getitem catalog k_apps) in
      let! old := lift (py_getitem_idx apps idx) in
      let! created := lift (py_get old k_created_at (VStr now)) in
      let! app_entry := lift (py_setitem app_entry k_created_at created) in
      let! now2 := now_isoformat in
      let! app_entry := lift (py_setitem app_entry k_updated_at (VStr now2)) in
      let! apps := lift (py_getitem catalog k_apps) in
      let! apps := lift (py_setitem_idx apps idx app_entry) in
      let! catalog := lift (py_setitem catalog k_apps apps) in
      ret (catalog, py "Updated")
    | None =>
      let! apps := lift (py_getitem catalog k_apps) in
      let! apps := lift (py_append apps app_entry) in
      let! catalog := lift (py_setitem catalog k_apps apps) in
      ret (catalog, py "Added")
    end in
  run! save_catalog r.1 in
  run! print_on out (add_message r.2 name app_id) in
  ret (VBool true).

(** [def remove_app(client, app_id)], printing to the output [out]. *)
Definition remove_app_on (out : pystr → option exn) (app_id : pystr)
  : M value :=
  let! catalog := load_catalog in
  let! apps := lift (py_getitem catalog k_apps) in
  let! original_count := lift (py_len apps) in
  let! apps := lift (py_getitem catalog k_apps) in
  let! items := lift (py_iter apps) in
  let! kept := lift (keep_others items app_id) in
  let! catalog := lift (py_setitem catalog k_apps (VList kept)) in
  let! apps := lift (py_getitem catalog k_apps) in
  let! count := lift (py_len apps) in
  if (count <? original_count)%nat then
    run! save_catalog catalog in
    run! print_on out (py "Removed app: " ++ app_id) in
    ret (VBool true)
  else
    run! print_on out (py "App not found: " ++ app_id) in
    ret (VBool false).

(** On the output that takes every line these are [add_app] and
    [remove_app]. *)
Lemma add_app_on_accepting
  (app_id name icon description path : pystr) (featured : bool) :
  add_app_on accepting app_id name icon description path featured
  = add_app app_id name icon description path featured.
Proof. reflexivity. Qed.

Lemma remove_app_on_accepting (app_id : pystr) :
  remove_app_on accepting app_id = remove_app app_id.
Proof. reflexivity. Qed.


(** The run that shows ending (4): on a UTF-8 output, a name that is a lone
    surrogate.  The catalog is written, with the name as an escape; then the
    message cannot be encoded. *)
Example add_app_on_utf8_surrogate :
  let w := world_with_catalog empty_catalog in
  let r := add_app_on utf8_output (py "weather") [55357] (py "W")
                      (py "Shows weather") (py "/apps/weather/index.html")
                      false w in
  r.1 = Raise UnicodeEncodeError
  ∧ w_stdout r.2 = []
  ∧ length (w_puts r.2) = 1%nat
  ∧ w_store r.2 ≠ w_store w
  ∧ load_catalog r.2
    = (Ret (VDict [(k_apps,
                    VList [new_entry (py "weather") [55357] (py "W")
                             (py "Shows weather")
                             (py "/apps/weather/index.html") false
                             (py "2026-01-01T00:00:00+00:000")])]),
       r.2).
Proof.
  cbv zeta. repeat split; try (vm_compute; reflexivity).
  intros H. apply (f_equal (λ m, o_data <$> m !! (MINIO_BUCKET, CATALOG_FILE)))
    in H. vm_compute in H. discriminate H.
Qed.


(** ** When the write fails *)

(** The world with other fates for the coming client calls. *)
Definition with_faults (fs : list (option exn)) (w : world) : world :=
  World (w_store w) fs (w_clock w) (w_ticks w) (w_stdout w) (w_puts w).

(** When the [put_object] call raises, the end of [add_app] raises the same
    exception after the one call, with the store as it was and nothing
    printed. *)
Lemma finish_add_raises (catalog : value) (action name app_id : pystr)
  (w : world) (e : exn) :
  (next_fault w).1 = Some e →
  ∃ data,
    finish_add catalog action name app_id w
    = (Raise e,
       World (w_store w) (next_fault w).2 (w_clock w) (w_ticks w) (w_stdout w)
             (w_puts w ++ [PutCall MINIO_BUCKET CATALOG_FILE data
                                   (length data) JSON_CONTENT_TYPE])).
Proof.
  intros Hf. destruct (encode_dumps 2 catalog) as (data & Henc & _).
  exists data. unfold finish_add, bind. rewrite (save_catalog_eq _ _ _ Henc).
  unfold put_object. destruct (next_fault w) as [f fs]. cbn in Hf. by subst f.
Qed.

(** X4.  A failing write is fatal to [add_app].  On a catalog whose entries
    all carry an ["id"], when the [put_object] call raises [e] (the store is
    unreachable, access is denied, ...), [add_app] raises [e] itself: it has
    made that one call, the store is as it was, and neither the ["Added"] nor
    the ["Updated"] message is printed. *)
Theorem add_app_write_failure
  (w w1 : world) (d : list (pystr * value)) (apps : list value)
  (app_id name icon description path : pystr) (featured : bool) (e : exn) :
  load_catalog w = (Ret (VDict d), w1) →
  dict_get d k_apps = Some (VList apps) →
  Forall has_id apps →
  (next_fault w1).1 = Some e →
  let r := add_app app_id name icon description path featured w in
  r.1 = Raise e
  ∧ w_store r.2 = w_store w
  ∧ w_stdout r.2 = w_stdout w
  ∧ length (w_puts r.2) = S (length (w_puts w))
  ∧ w_faults r.2 = (next_fault w1).2.
Proof.
  intros Hload Happs Hids Hf. cbv zeta.
  pose proof (load_catalog_world w) as Hw. rewrite Hload in Hw. cbn in Hw.
  destruct (index_of_id apps app_id) as [i | ] eqn:Hidx.
  - destruct (index_of_id_Some _ _ _ Hidx) as (old & Hold & _).
    rewrite (add_app_update _ _ _ _ _ name icon description path featured
               _ _ Hload Happs Hids Hidx Hold).
    match goal with
    | |- context [finish_add ?c ?a ?n ?i ?w] =>
      destruct (finish_add_raises c a n i w e Hf) as (data & ->)
    end.
    subst w1. cbn. rewrite length_app. cbn. repeat split; lia.
  - rewrite (add_app_insert _ _ _ _ _ name icon description path featured
               Hload Happs Hids Hidx).
    match goal with
    | |- context [finish_add ?c ?a ?n ?i ?w] =>
      destruct (finish_add_raises c a n i w e Hf) as (data & ->)
    end.
    subst w1. cbn. rewrite length_app. cbn. repeat split; lia.
Qed.

Lemma add_app_write_failure_witness :
  let w := with_faults [None; Some (ConnectionError "connection refused")]
             (world_with_catalog (VDict [(k_apps, VList [weather_entry])])) in
  let r := add_app (py "notes") (py "Notes") (py "N") (py "Takes notes")
                   (py "/apps/notes/index.html") false w in
  r.1 = Raise (ConnectionError "connection refused")
  ∧ w_store r.2 = w_store w
  ∧ w_stdout r.2 = []
  ∧ length (w_puts r.2) = 1%nat
  ∧ w_faults r.2 = [].
Proof.
  cbv zeta.
  apply (add_app_write_failure
           (with_faults [None; Some (ConnectionError "connection refused")]
              (world_with_catalog (VDict [(k_apps, VList [weather_entry])])))
           (with_faults [Some (ConnectionError "connection refused")]
              (world_with_catalog (VDict [(k_apps, VList [weather_entry])])))
           [(k_apps, VList [weather_entry])] [weather_entry]).
  - vm_compute. reflexivity.
  - reflexivity.
  - repeat constructor. eexists _, _. split; reflexivity.
  - reflexivity.
Defined.

(** X5.  A failing write is fatal to [remove_app].  On a catalog whose
    entries all carry an ["id"], one of them the id to remove, when the
    [put_object] call raises [e], [remove_app] raises [e] itself: it has made
    that one call, the store is as it was (the entry is still there), and
    ["Removed app"] is not printed. *)
Theorem remove_app_write_failure
  (w w1 : world) (d : list (pystr * value)) (apps : list value)
  (app_id : pystr) (e : exn) :
  load_catalog w = (Ret (VDict d), w1) →
  dict_get d k_apps = Some (VList apps) →
  Forall has_id apps →
  Some (VStr app_id) ∈ ids apps →
  (next_fault w1).1 = Some e →
  let r := remove_app app_id w in
  r.1 = Raise e
  ∧ w_store r.2 = w_store w
  ∧ w_stdout r.2 = w_stdout w
  ∧ length (w_puts r.2) = S (length (w_puts w))
  ∧ w_faults r.2 = (next_fault w1).2.
Proof.
  intros Hload Happs Hids Hin Hf. cbv zeta.
  pose proof (load_catalog_world w) as Hw. rewrite Hload in Hw. cbn in Hw.
  rewrite (remove_app_eq _ _ _ _ _ Hload Happs Hids).
  apply filter_present_shorter in Hin. apply Nat.ltb_lt in Hin. rewrite Hin.
  match goal with
  | |- context [save_catalog ?c] =>
    destruct (encode_dumps 2 c) as (data & Henc & _)
  end.
  unfold bind. rewrite (save_catalog_eq _ _ _ Henc).
  unfold put_object. destruct (next_fault w1) as [f fs]. cbn in Hf. subst f.
  subst w1. cbn. rewrite length_app. cbn. repeat split; lia.
Qed.

Lemma remove_app_write_failure_witness :
  let w := with_faults [None; Some (S3Error "AccessDenied")]
             (world_with_catalog (VDict [(k_apps, VList [weather_entry])])) in
  let r := remove_app (py "weather") w in
  r.1 = Raise (S3Error "AccessDenied")
  ∧ w_store r.2 = w_store w
  ∧ w_stdout r.2 = []
  ∧ length (w_puts r.2) = 1%nat
  ∧ w_faults r.2 = [].
Proof.
  cbv zeta.
  apply (remove_app_write_failure
           (with_faults [None; Some (S3Error "AccessDenied")]
              (world_with_catalog (VDict [(k_apps, VList [weather_entry])])))
           (with_faults [Some (S3Error "AccessDenied")]
              (world_with_catalog (VDict [(k_apps, VList [weather_entry])])))
           [(k_apps, VList [weather_entry])] [weather_entry]).
  - vm_compute. reflexivity.
  - reflexivity.
  - repeat constructor. eexists _, _. split; reflexivity.
  - apply list_elem_of_In. left. reflexivity.
  - reflexivity.
Defined.

(** ** When the read fails *)

(** The body of the [try] of [load_catalog]: fetch, decode, parse. *)
Definition fetch_document : M value :=
  let! body := get_object MINIO_BUCKET CATALOG_FILE in
  let! text := lift (decode_utf8 body) in
  lift (json_loads text).

Lemma load_catalog_try :
  load_catalog = try_except fetch_document (λ _, ret empty_catalog).
Proof. reflexivity. Qed.

(** Whatever exception the body of the [try] raises, [load_catalog] answers
    with the empty catalog. *)
Lemma load_catalog_failed (w : world) (e : exn) :
  (fetch_document w).1 = Raise e →
  load_catalog w = (Ret empty_catalog, after_call w).
Proof.
  intros H. pose proof (load_catalog_world w) as Hw.
  rewrite load_catalog_try in Hw |- *. unfold try_except in *.
  destruct (fetch_document w) as [o w1]. cbn [fst] in H. subst o.
  cbn in Hw |- *. by rewrite Hw.
Qed.

(** X6.  [add_app] after a failed read replaces the catalog.  When the fetch
    of the document fails (the read call raises, whatever the reason and
    whatever the store holds; or the bytes are not UTF-8; or the text is not
    JSON) and the write goes through, [add_app] saves a catalog whose only
    entry is the new one and reports it as ["Added"]: the entries that the
    stored document had are gone. *)
Theorem add_app_after_failed_read
  (w : world) (e : exn)
  (app_id name icon description path : pystr) (featured : bool) :
  (fetch_document w).1 = Raise e →
  call_succeeds (after_call w) →
  ∃ w_s,
    saved (VDict [(k_apps,
                   VList [new_entry app_id name icon description path
                                    featured (w_clock w (w_ticks w))])])
          (tick 1 (after_call w)) w_s
    ∧ add_app app_id name icon description path featured w
      = (Ret (VBool true),
         printed (add_message (py "Added") name app_id) w_s).
Proof.
  intros Hfail Hok.
  pose proof (add_app_cases w (after_call w) [(k_apps, VList [])] []
                app_id name icon description path featured
                (load_catalog_failed w e Hfail) eq_refl
                (Forall_nil_2 _) Hok) as H.
  exact H.
Qed.

(** A store that holds the catalog of the one entry [weather_entry], and a
    read call that is going to time out. *)
Definition world_with_read_fault : world :=
  with_faults [Some (ConnectionError "timed out")]
    (world_with_catalog (VDict [(k_apps, VList [weather_entry])])).

Lemma add_app_after_failed_read_witness :
  let w := world_with_read_fault in
  ∃ w_s,
    saved (VDict [(k_apps,
                   VList [new_entry (py "notes") (py "Notes") (py "N")
                                    (py "Takes notes")
                                    (py "/apps/notes/index.html") false
                                    (py "2026-01-01T00:00:00+00:000")])])
          (tick 1 (after_call w)) w_s
    ∧ add_app (py "notes") (py "Notes") (py "N") (py "Takes notes")
              (py "/apps/notes/index.html") false w
      = (Ret (VBool true),
         printed (add_message (py "Added") (py "Notes") (py "notes")) w_s).
Proof.
  cbv zeta.
  apply (add_app_after_failed_read world_with_read_fault
           (ConnectionError "timed out")).
  - reflexivity.
  - reflexivity.
Defined.

(** X7.  [remove_app] and [list_apps] after a failed read see an empty
    catalog.  When the fetch of the document fails, [remove_app] prints
    ["App not found: <id>"] and returns [False] without writing, also when
    the stored document has an entry with that id; [list_apps] prints
    ["Catalog is empty"]. *)
Theorem failed_read_looks_empty (w : world) (e : exn) (app_id : pystr) :
  (fetch_document w).1 = Raise e →
  remove_app app_id w
  = (Ret (VBool false),
     printed (py "App not found: " ++ app_id) (after_call w))
  ∧ list_apps w
    = (Ret VNone, printed (py "Catalog is empty") (after_call w)).
Proof.
  intros Hfail. pose proof (load_catalog_failed w e Hfail) as Hload. split.
  - by rewrite (remove_app_eq _ _ _ _ app_id Hload eq_refl (Forall_nil_2 _)).
  - unfold list_apps. by rewrite (bind_eq _ _ _ _ _ Hload).
Qed.

Lemma failed_read_looks_empty_witness :
  let w := world_with_read_fault in
  remove_app (py "weather") w
  = (Ret (VBool false),
     printed (py "App not found: weather") (after_call w))
  ∧ list_apps w
    = (Ret VNone, printed (py "Catalog is empty") (after_call w)).
Proof.
  cbv zeta.
  apply (failed_read_looks_empty world_with_read_fault
           (ConnectionError "timed out") (py "weather")).
  reflexivity.
Defined.

(** ** A document whose ["apps"] is not a list *)

(** X8.  [add_app] on a document whose ["apps"] is no list never writes.
    It raises [AttributeError] from [.append] when the value is an empty
    [str] or [dict] (the loop finds nothing, the clock was read once), and
    [TypeError] otherwise: from [enumerate] on [None], a [bool] or an [int],
    from the subscript [app["id"]] on the first character or key of a
    non-empty [str] or [dict].  No [put_object] call is made and nothing is
    printed. *)
Theorem add_app_apps_not_list
  (w w1 : world) (d : list (pystr * value)) (v : value)
  (app_id name icon description path : pystr) (featured : bool) :
  load_catalog w = (Ret (VDict d), w1) →
  dict_get d k_apps = Some v →
  (∀ l, v ≠ VList l) →
  add_app app_id name icon description path featured w
  = match py_len v with
    | Ret 0%nat => (Raise AttributeError, tick 1 w1)
    | _ => (Raise TypeError, w1)
    end.
Proof.
  intros Hload Happs Hv.
  unfold add_app. rewrite (bind_eq _ _ _ _ _ Hload).
  assert (py_getitem (VDict d) k_apps = Ret v) as Hitem
    by (cbn [py_getitem]; by rewrite Happs).
  mstep Hitem.
  destruct v as [ | b | z | [ | c s] | l | [ | [k x] d']]; try done.
  - mpure. cbn [map find_existing]. mpure.
    mstep (now_isoformat_eq w1). by mstep Hitem.
  - by destruct (Hv l).
  - mpure. cbn [map find_existing]. mpure.
    mstep (now_isoformat_eq w1). by mstep Hitem.
Qed.

(** A stored document whose ["apps"] is an empty object. *)
Definition world_with_apps_object : world :=
  world_with_catalog (VDict [(k_apps, VDict [])]).

(** A stored document whose ["apps"] is the number 7. *)
Definition world_with_apps_number : world :=
  world_with_catalog (VDict [(k_apps, VInt 7)]).

Lemma add_app_apps_not_list_witness :
  add_app (py "notes") (py "Notes") (py "N") (py "Takes notes")
          (py "/apps/notes/index.html") false world_with_apps_object
  = (Raise AttributeError, tick 1 (after_call world_with_apps_object))
  ∧ add_app (py "notes") (py "Notes") (py "N") (py "Takes notes")
            (py "/apps/notes/index.html") false world_with_apps_number
    = (Raise TypeError, after_call world_with_apps_number).
Proof.
  split.
  - apply (add_app_apps_not_list world_with_apps_object
             (after_call world_with_apps_object)
             [(k_apps, VDict [])] (VDict [])).
    + vm_compute. reflexivity.
    + reflexivity.
    + discriminate.
  - apply (add_app_apps_not_list world_with_apps_number
             (after_call world_with_apps_number)
             [(k_apps, VInt 7)] (VInt 7)).
    + vm_compute. reflexivity.
    + reflexivity.
    + discriminate.
Defined.

Lemma py_getitem_set (d : list (pystr * value)) (k : pystr) (x : value) :
  py_getitem (VDict (dict_set d k x)) k = Ret x.
Proof. cbn [py_getitem]. by rewrite dict_get_set_eq. Qed.

(** X9.  [remove_app] on a document whose ["apps"] is no list never writes.
    On an empty [str] or [dict] it finds nothing to remove: it prints
    ["App not found: <id>"] and returns [False].  Otherwise it raises
    [TypeError]: from [len] on [None], a [bool] or an [int], from the
    subscript [app["id"]] on the first character or key of a non-empty
    [str] or [dict]. *)
Theorem remove_app_apps_not_list
  (w w1 : world) (d : list (pystr * value)) (v : value) (app_id : pystr) :
  load_catalog w = (Ret (VDict d), w1) →
  dict_get d k_apps = Some v →
  (∀ l, v ≠ VList l) →
  remove_app app_id w
  = match py_len v with
    | Ret 0%nat =>
      (Ret (VBool false), printed (py "App not found: " ++ app_id) w1)
    | _ => (Raise TypeError, w1)
    end.
Proof.
  intros Hload Happs Hv.
  unfold remove_app. rewrite (bind_eq _ _ _ _ _ Hload).
  assert (py_getitem (VDict d) k_apps = Ret v) as Hitem
    by (cbn [py_getitem]; by rewrite Happs).
  mstep Hitem.
  destruct v as [ | b | z | [ | c s] | l | [ | [k x] d']]; try done.
  - mpure. mstep Hitem. mpure. cbn [map keep_others]. mpure.
    mstep (py_getitem_set d k_apps (VList [])). by mpure.
  - mpure. by mstep Hitem.
  - by destruct (Hv l).
  - mpure. mstep Hitem. mpure. cbn [map keep_others]. mpure.
    mstep (py_getitem_set d k_apps (VList [])). by mpure.
  - mpure. by mstep Hitem.
Qed.

Lemma remove_app_apps_not_list_witness :
  remove_app (py "notes") world_with_apps_object
  = (Ret (VBool false),
     printed (py "App not found: notes") (after_call world_with_apps_object))
  ∧ remove_app (py "notes") world_with_apps_number
    = (Raise TypeError, after_call world_with_apps_number).
Proof.
  split.
  - apply (remove_app_apps_not_list world_with_apps_object
             (after_call world_with_apps_object)
             [(k_apps, VDict [])] (VDict [])).
    + vm_compute. reflexivity.
    + reflexivity.
    + discriminate.
  - apply (remove_app_apps_not_list world_with_apps_number
             (after_call world_with_apps_number)
             [(k_apps, VInt 7)] (VInt 7)).
    + vm_compute. reflexivity.
    + reflexivity.
    + discriminate.
Defined.

(** X10.  [list_apps] on a document whose ["apps"] is no list.  A value that
    counts as false ([None], [False], [0], an empty [str] or [dict]) is
    reported as ["Catalog is empty"].  Any other value gets the two lines of
    the header and then an exception from [sorted]: [TypeError] on a [bool]
    or an [int], which cannot be iterated, [AttributeError] on a [str] or a
    [dict], whose first character or key has no [.get]. *)
Theorem list_apps_apps_not_list
  (w w1 : world) (d : list (pystr * value)) (v : value) :
  load_catalog w = (Ret (VDict d), w1) →
  dict_get d k_apps = Some v →
  (∀ l, v ≠ VList l) →
  list_apps w
  = if py_truth v then
      (Raise match v with
             | VStr _ | VDict _ => AttributeError
             | _ => TypeError
             end,
       printed (repeat 45 80) (printed table_header w1))
    else (Ret VNone, printed (py "Catalog is empty") w1).
Proof.
  intros Hload Happs Hv.
  unfold list_apps. rewrite (bind_eq _ _ _ _ _ Hload).
  assert (py_getitem (VDict d) k_apps = Ret v) as Hitem
    by (cbn [py_getitem]; by rewrite Happs).
  mstep Hitem.
  destruct (py_truth v) eqn:Ht; cbn [negb]; [ | done].
  unfold bind at 1. cbn [print]. unfold bind at 1. cbn [print].
  mstep Hitem.
  destruct v as [ | b | z | [ | c s] | l | [ | [k x] d']]; try done.
  by destruct (Hv l).
Qed.

Lemma list_apps_apps_not_list_witness :
  list_apps world_with_apps_object
  = (Ret VNone,
     printed (py "Catalog is empty") (after_call world_with_apps_object))
  ∧ list_apps world_with_apps_number
    = (Raise TypeError,
       printed (repeat 45 80)
               (printed table_header (after_call world_with_apps_number))).
Proof.
  split.
  - apply (list_apps_apps_not_list world_with_apps_object
             (after_call world_with_apps_object)
             [(k_apps, VDict [])] (VDict [])).
    + vm_compute. reflexivity.
    + reflexivity.
    + discriminate.
  - apply (list_apps_apps_not_list world_with_apps_number
             (after_call world_with_apps_number)
             [(k_apps, VInt 7)] (VInt 7)).
    + vm_compute. reflexivity.
    + reflexivity.
    + discriminate.
Defined.

(** ** An entry without ["id"] *)

Lemma find_existing_bad (pre post : list value) (bad : value)
  (app_id : pystr) (e : exn) (n : nat) :
  Forall has_id pre → index_of_id pre app_id = None →
  py_getitem bad k_id = Raise e →
  find_existing (pre ++ bad :: post) app_id n = Raise e.
Proof.
  intros Hpre Hidx Hbad. revert n Hidx.
  induction Hpre as [ | x pre (d & i & -> & Hi) _ IH]; intros n Hidx.
  - cbn [app find_existing]. by rewrite Hbad.
  - cbn [app find_existing py_getitem]. rewrite Hi. cbn [obind].
    cbn [index_of_id] in Hidx. unfold id_is in Hidx. cbn [field] in Hidx.
    rewrite Hi in Hidx. destruct (py_eq_str i app_id); [done | ].
    apply IH. by destruct (index_of_id pre app_id).
Qed.

Lemma find_existing_prefix (pre post : list value) (app_id : pystr)
  (i n : nat) :
  Forall has_id pre → index_of_id pre app_id = Some i →
  find_existing (pre ++ post) app_id n = Ret (Some (n + i)%nat).
Proof.
  intros Hpre. revert n i.
  induction Hpre as [ | x pre (d & j & -> & Hj) _ IH]; intros n i Hidx;
    [done | ].
  cbn [app find_existing py_getitem]. rewrite Hj. cbn [obind].
  cbn [index_of_id] in Hidx. unfold id_is in Hidx. cbn [field] in Hidx.
  rewrite Hj in Hidx. destruct (py_eq_str j app_id).
  - injection Hidx as <-. do 2 f_equal. lia.
  - destruct (index_of_id pre app_id) as [i' | ] eqn:E; [ | done].
    injection Hidx as <-. rewrite (IH (S n) i' eq_refl). do 2 f_equal. lia.
Qed.

Lemma keep_others_bad (pre post : list value) (bad : value)
  (app_id : pystr) (e : exn) :
  Forall has_id pre → py_getitem bad k_id = Raise e →
  keep_others (pre ++ bad :: post) app_id = Raise e.
Proof.
  intros Hpre Hbad.
  induction Hpre as [ | x pre (d & i & -> & Hi) _ IH].
  - cbn [app keep_others]. by rewrite Hbad.
  - cbn [app keep_others py_getitem]. rewrite Hi. cbn [obind].
    by rewrite IH.
Qed.

(** X11.  An entry without ["id"] stops [add_app] and [remove_app].  Let
    [bad] be the first item of ["apps"] whose subscript [app["id"]] raises
    (an object without ["id"]: [KeyError]; no object: [TypeError]).
    [remove_app] raises that exception, whatever id it is given.  So does
    [add_app], unless an entry before [bad] has the id.  Neither writes nor
    prints, nor reads the clock. *)
Theorem entry_without_id_raises
  (w w1 : world) (d : list (pystr * value)) (pre post : list value)
  (bad : value) (e : exn)
  (app_id name icon description path : pystr) (featured : bool) :
  load_catalog w = (Ret (VDict d), w1) →
  dict_get d k_apps = Some (VList (pre ++ bad :: post)) →
  Forall has_id pre →
  py_getitem bad k_id = Raise e →
  remove_app app_id w = (Raise e, w1)
  ∧ (index_of_id pre app_id = None →
     add_app app_id name icon description path featured w = (Raise e, w1)).
Proof.
  intros Hload Happs Hpre Hbad.
  assert (py_getitem (VDict d) k_apps = Ret (VList (pre ++ bad :: post)))
    as Hitem by (cbn [py_getitem]; by rewrite Happs).
  split.
  - unfold remove_app. rewrite (bind_eq _ _ _ _ _ Hload).
    mstep Hitem. mpure. mstep Hitem. mpure.
    repeat rewrite bind_assoc.
    by rewrite (bind_lift_raise _ _ _ _
                  (keep_others_bad pre post bad app_id e Hpre Hbad)).
  - intros Hidx. unfold add_app. rewrite (bind_eq _ _ _ _ _ Hload).
    mstep Hitem. mpure. repeat rewrite bind_assoc.
    by rewrite (bind_lift_raise _ _ _ _
                  (find_existing_bad pre post bad app_id e 0 Hpre Hidx Hbad)).
Qed.

(** The entry of the scenario followed by an object that has no ["id"]. *)
Definition catalog_with_nameless : value :=
  VDict [(k_apps, VList [weather_entry; VDict [(k_name, VStr (py "Lost"))]])].

Lemma entry_without_id_raises_witness :
  let w := world_with_catalog catalog_with_nameless in
  remove_app (py "weather") w = (Raise (KeyError (VStr k_id)), after_call w)
  ∧ add_app (py "notes") (py "Notes") (py "N") (py "Takes notes")
            (py "/apps/notes/index.html") false w
    = (Raise (KeyError (VStr k_id)), after_call w).
Proof.
  cbv zeta.
  destruct (entry_without_id_raises
              (world_with_catalog catalog_with_nameless)
              (after_call (world_with_catalog catalog_with_nameless))
              [(k_apps, VList [weather_entry;
                               VDict [(k_name, VStr (py "Lost"))]])]
              [weather_entry] [] (VDict [(k_name, VStr (py "Lost"))])
              (KeyError (VStr k_id))
              (py "notes") (py "Notes") (py "N") (py "Takes notes")
              (py "/apps/notes/index.html") false) as [_ Hadd].
  - vm_compute. reflexivity.
  - reflexivity.
  - repeat constructor. eexists _, _. split; reflexivity.
  - reflexivity.
  - split; [ | by apply Hadd].
    apply (entry_without_id_raises
             (world_with_catalog catalog_with_nameless)
             (after_call (world_with_catalog catalog_with_nameless))
             [(k_apps, VList [weather_entry;
                              VDict [(k_name, VStr (py "Lost"))]])]
             [weather_entry] [] (VDict [(k_name, VStr (py "Lost"))])
             (KeyError (VStr k_id))
             (py "weather") (py "Weather") (py "W") (py "Shows weather")
             (py "/apps/weather/index.html") false).
    + vm_compute. reflexivity.
    + reflexivity.
    + repeat constructor. eexists _, _. split; reflexivity.
    + reflexivity.
Defined.

(** X12.  [add_app] stops looking at the first match.  When an entry with the
    id is found among the first entries, all with an ["id"], the update goes
    through whatever follows it in ["apps"]: the items after the match are
    not inspected (the loop [break]s) and are saved as they are, also items
    without ["id"], on which [remove_app] raises. *)
Theorem add_app_stops_at_first_match
  (w w1 : world) (d : list (pystr * value)) (pre post : list value)
  (app_id name icon description path : pystr) (featured : bool)
  (i : nat) (old : value) :
  load_catalog w = (Ret (VDict d), w1) →
  dict_get d k_apps = Some (VList (pre ++ post)) →
  Forall has_id pre →
  index_of_id pre app_id = Some i →
  pre !! i = Some old →
  call_succeeds w1 →
  ∃ w_s,
    saved (VDict (dict_set d k_apps
                    (VList (<[i := updated_entry app_id name icon
                                     description path featured
                                     (default (VStr (w_clock w1 (w_ticks w1)))
                                              (field old k_created_at))
                                     (w_clock w1 (S (w_ticks w1)))]> pre
                            ++ post))))
          (tick 2 w1) w_s
    ∧ add_app app_id name icon description path featured w
      = (Ret (VBool true),
         printed (add_message (py "Updated") name app_id) w_s).
Proof.
  intros Hload Happs Hpre Hidx Hold Hok.
  assert (add_app app_id name icon description path featured w
          = finish_add
              (VDict (dict_set d k_apps
                        (VList (<[i := updated_entry app_id name icon
                                         description path featured
                                         (default
                                            (VStr (w_clock w1 (w_ticks w1)))
                                            (field old k_created_at))
                                         (w_clock w1 (S (w_ticks w1)))]> pre
                                ++ post))))
              (py "Updated") name app_id (tick 2 w1)) as ->.
  { unfold add_app. rewrite (bind_eq _ _ _ _ _ Hload).
    assert (py_getitem (VDict d) k_apps = Ret (VList (pre ++ post)))
      as Hitem by (cbn [py_getitem]; by rewrite Happs).
    mstep Hitem. mpure.
    mstep (find_existing_prefix pre post app_id i 0 Hpre Hidx).
    cbn [Nat.add].
    mstep (now_isoformat_eq w1).
    assert (∃ od, old = VDict od) as (od & ->).
    { apply (Forall_lookup_1 _ _ _ _ Hpre) in Hold as (od & ? & -> & _).
      by exists od. }
    mstep Hitem.
    unfold py_getitem_idx at 1.
    rewrite (lookup_app_l_Some _ _ _ _ Hold). unfold new_entry.
    mpure.
    mstep (now_isoformat_eq (tick 1 w1)).
    mpure.
    mstep Hitem.
    unfold py_setitem_idx at 1.
    pose proof (lookup_lt_Some _ _ _ Hold) as Hlt.
    rewrite bool_decide_eq_true_2 by (rewrite length_app; lia).
    mpure.
    rewrite bind_ret, tick_tick, insert_app_l by done. reflexivity. }
  match goal with
  | |- context [finish_add ?c ?a ?n ?i ?w] =>
    destruct (finish_add_saved c a n i w) as (w_s & Hsaved & Hfin);
      [done | ]
  end.
  by exists w_s.
Qed.

Lemma add_app_stops_at_first_match_witness :
  let w := world_with_catalog catalog_with_nameless in
  ∃ w_s,
    saved (VDict [(k_apps,
                   VList [updated_entry (py "weather") (py "Weather")
                            (py "W") (py "Shows weather")
                            (py "/apps/weather/index.html") true
                            (VStr (py "2025-12-31T23:59:59+00:00"))
                            (py "2026-01-01T00:00:00+00:001");
                          VDict [(k_name, VStr (py "Lost"))]])])
          (tick 2 (after_call w)) w_s
    ∧ add_app (py "weather") (py "Weather") (py "W") (py "Shows weather")
              (py "/apps/weather/index.html") true w
      = (Ret (VBool true),
         printed (add_message (py "Updated") (py "Weather") (py "weather"))
                 w_s).
Proof.
  cbv zeta.
  apply (add_app_stops_at_first_match
           (world_with_catalog catalog_with_nameless)
           (after_call (world_with_catalog catalog_with_nameless))
           [(k_apps, VList [weather_entry;
                            VDict [(k_name, VStr (py "Lost"))]])]
           [weather_entry] [VDict [(k_name, VStr (py "Lost"))]]
           (py "weather") (py "Weather") (py "W") (py "Shows weather")
           (py "/apps/weather/index.html") true 0 weather_entry).
  - vm_compute. reflexivity.
  - reflexivity.
  - repeat constructor. eexists _, _. split; reflexivity.
  - reflexivity.
  - reflexivity.
  - reflexivity.
Defined.

(** ** Duplicate ids *)

(** X13.  [remove_app] removes every entry that carries the id.  On a catalog
    whose entries all carry an ["id"] but where ids repeat (as a document
    edited by hand may have them), the catalog saved holds no entry with the
    id any more: the count shrinks by the number of entries that carried it,
    which can be more than one; the other entries stay, in their order. *)
Theorem remove_app_removes_every_match
  (w w1 : world) (d : list (pystr * value)) (apps : list value)
  (app_id : pystr) :
  load_catalog w = (Ret (VDict d), w1) →
  dict_get d k_apps = Some (VList apps) →
  Forall has_id apps →
  Some (VStr app_id) ∈ ids apps →
  call_succeeds w1 →
  ∃ kept w_s,
    kept = filter (λ e, id_is e app_id = false) apps
    ∧ Forall (λ e, id_is e app_id = false) kept
    ∧ (length kept + length (filter (λ e, id_is e app_id = true) apps)
       = length apps)%nat
    ∧ (0 < length (filter (λ e, id_is e app_id = true) apps))%nat
    ∧ saved (VDict (dict_set d k_apps (VList kept))) w1 w_s
    ∧ remove_app app_id w
      = (Ret (VBool true), printed (py "Removed app: " ++ app_id) w_s).
Proof.
  intros Hload Happs Hids Hin Hok.
  pose proof (filter_present_shorter apps app_id Hin) as Hlt.
  assert (length (filter (λ e, id_is e app_id = false) apps)
          + length (filter (λ e, id_is e app_id = true) apps)
          = length apps)%nat as Hsum.
  { clear. induction apps as [ | e apps IH]; [done | ].
    rewrite !filter_cons. destruct (id_is e app_id);
      repeat case_decide; try done; cbn [length]; lia. }
  rewrite (remove_app_eq _ _ _ _ app_id Hload Happs Hids).
  cbv zeta. apply Nat.ltb_lt in Hlt as Hlt'. rewrite Hlt'.
  destruct (save_catalog_saved
              (VDict (dict_set d k_apps
                        (VList (filter (λ e, id_is e app_id = false) apps))))
              w1 Hok) as (w_s & Hsave & Hsaved).
  eexists _, w_s. split; [reflexivity | ].
  split.
  { apply Forall_forall. intros e He.
    by apply list_elem_of_filter in He as [He _]. }
  split; [exact Hsum | ]. split; [lia | ]. split; [exact Hsaved | ].
  by rewrite (bind_eq _ _ _ _ _ Hsave).
Qed.

(** A catalog where the id of [weather_entry] occurs twice, around another
    entry. *)
Definition notes_entry : value :=
  new_entry (py "notes") (py "Notes") (py "N") (py "Takes notes")
            (py "/apps/notes/index.html") false
            (py "2025-12-30T08:00:00+00:00").

Definition catalog_with_duplicates : value :=
  VDict [(k_apps, VList [weather_entry; notes_entry; weather_entry])].

Lemma remove_app_removes_every_match_witness :
  let w := world_with_catalog catalog_with_duplicates in
  ∃ w_s,
    saved (VDict [(k_apps, VList [notes_entry])]) (after_call w) w_s
    ∧ remove_app (py "weather") w
      = (Ret (VBool true), printed (py "Removed app: weather") w_s).
Proof.
  cbv zeta.
  destruct (remove_app_removes_every_match
              (world_with_catalog catalog_with_duplicates)
              (after_call (world_with_catalog catalog_with_duplicates))
              [(k_apps, VList [weather_entry; notes_entry; weather_entry])]
              [weather_entry; notes_entry; weather_entry] (py "weather"))
    as (kept & w_s & -> & _ & _ & _ & Hsaved & Hrm).
  - vm_compute. reflexivity.
  - reflexivity.
  - repeat constructor; eexists _, _; split; reflexivity.
  - apply list_elem_of_In. left. reflexivity.
  - reflexivity.
  - exists w_s. split; [exact Hsaved | exact Hrm].
Defined.

(** ** The bytes written *)

(** X14.  The document that [save_catalog] sends is plain ASCII.  Every byte
    of the one [put_object] call is below 128 and is the code point of the
    character of [json.dumps(catalog, indent=2)] at its position:
    [json.dumps] escapes every other character (an emoji icon goes out as
    backslash-u escapes), so the UTF-8 encoding changes nothing, and the
    declared length is the number of characters of the text. *)
Theorem save_catalog_ascii (catalog : value) (w : world) :
  ∃ data,
    w_puts (save_catalog catalog w).2
    = w_puts w ++ [PutCall MINIO_BUCKET CATALOG_FILE data (length data)
                           JSON_CONTENT_TYPE]
    ∧ map Byte.to_N data = json_dumps 2 catalog
    ∧ Forall (λ b, Byte.to_N b < 128) data
    ∧ length data = length (json_dumps 2 catalog).
Proof.
  destruct (utf8_encode_ascii (json_dumps 2 catalog) (dumps_at_ascii 2 catalog 0))
    as (data & Henc & Hmap).
  exists data. rewrite (save_catalog_eq _ _ _ Henc).
  split; [apply put_object_puts | ]. split; [exact Hmap | ].
  split.
  - pose proof (dumps_at_ascii 2 catalog 0) as Hascii.
    fold (json_dumps 2 catalog) in Hascii. rewrite <- Hmap in Hascii.
    unfold ascii_text in Hascii. by rewrite Forall_map in Hascii.
  - by rewrite <- Hmap, length_map.
Qed.

(** ** The order and the rows of the listing *)

Lemma str_ltb_irrefl (a : pystr) : str_ltb a a = false.
Proof.
  destruct (str_ltb a a) eqn:E; [ | done].
  by rewrite (str_ltb_asym a a E) in E.
Qed.

(** [insert_by] keeps the items of each key in the order they had, [x]
    first. *)
Lemma insert_by_filter (k : pystr) (x : pystr * value)
  (l : list (pystr * value)) :
  filter (λ p, p.1 = k) (insert_by str_ltb x l)
  = filter (λ p, p.1 = k) (x :: l).
Proof.
  induction l as [ | y l IH]; cbn [insert_by]; [done | ].
  destruct (str_ltb y.1 x.1) eqn:E; [ | done].
  rewrite filter_cons, IH, !filter_cons.
  destruct (decide (y.1 = k)) as [Hy | Hy], (decide (x.1 = k)) as [Hx | Hx];
    try done.
  rewrite Hy, Hx, str_ltb_irrefl in E. done.
Qed.

Lemma sort_by_filter (k : pystr) (l : list (pystr * value)) :
  filter (λ p, p.1 = k) (sort_by str_ltb l) = filter (λ p, p.1 = k) l.
Proof.
  induction l as [ | x l IH]; [done | ].
  cbn [sort_by foldr]. fold (sort_by str_ltb l).
  by rewrite insert_by_filter, !filter_cons, IH.
Qed.

Lemma filter_created_key (k : pystr) (l : list (pystr * value)) :
  Forall (λ p, p.1 = created_key p.2) l →
  filter (λ e, created_key e = k) (map snd l)
  = map snd (filter (λ p, p.1 = k) l).
Proof.
  induction 1 as [ | [k' e] l Hp _ IH]; [done | ].
  cbn [map snd fst] in *. rewrite !filter_cons. cbn [fst snd]. subst k'.
  destruct (decide (created_key e = k)); cbn [map snd]; by rewrite IH.
Qed.

(** X15.  The sort of [list_apps] is stable.  On entries it can show, the
    call [sorted(catalog["apps"], key=...)] returns, for every value of
    ["created_at"], the entries that carry it in the order they have in the
    document; an entry without ["created_at"] counts as carrying the empty
    text. *)
Theorem list_apps_order_stable (apps : list value) :
  Forall listable apps →
  ∃ rows,
    py_sorted created_at_key (VList apps) = Ret rows
    ∧ ∀ k, filter (λ e, created_key e = k) rows
           = filter (λ e, created_key e = k) apps.
Proof.
  intros Hl. exists (sorted_apps apps).
  split; [by apply py_sorted_listable | ]. intros k. unfold sorted_apps.
  rewrite filter_created_key, sort_by_filter, <- filter_created_key.
  - rewrite map_map. cbn. by rewrite map_id.
  - apply Forall_map. by apply Forall_true.
  - rewrite sort_by_perm. apply Forall_map. by apply Forall_true.
Qed.

(** Four entries: two created at the same time, one without ["created_at"]
    and one with an empty ["created_at"]. *)
Definition entry_created (app_id created : string) : value :=
  new_entry (py app_id) (py app_id) (py "A") (py app_id) (py app_id) false
            (py created).

Definition entry_undated (app_id : string) : value :=
  VDict [(k_id, VStr (py app_id)); (k_name, VStr (py app_id));
         (k_path, VStr (py app_id))].

Lemma list_apps_order_stable_witness :
  let apps := [entry_created "second" "2026-02-01T00:00:00+00:00";
               entry_undated "old";
               entry_created "first" "2026-02-01T00:00:00+00:00";
               entry_created "blank" ""] in
  py_sorted created_at_key (VList apps)
  = Ret [entry_undated "old"; entry_created "blank" "";
         entry_created "second" "2026-02-01T00:00:00+00:00";
         entry_created "first" "2026-02-01T00:00:00+00:00"]
  ∧ ∃ rows,
      py_sorted created_at_key (VList apps) = Ret rows
      ∧ ∀ k, filter (λ e, created_key e = k) rows
             = filter (λ e, created_key e = k) apps.
Proof.
  cbv zeta. split; [vm_compute; reflexivity | ].
  apply (list_apps_order_stable
           [entry_created "second" "2026-02-01T00:00:00+00:00";
            entry_undated "old";
            entry_created "first" "2026-02-01T00:00:00+00:00";
            entry_created "blank" ""]).
  repeat (apply Forall_cons_2; [solve_listable | ]). apply Forall_nil_2.
Defined.

(** An entry that [sorted] can place: an object whose ["created_at"], when
    present, is text. *)
Definition sortable (e : value) : Prop :=
  (∃ d, e = VDict d)
  ∧ (field e k_created_at = None ∨ is_text (field e k_created_at)).

Lemma listable_sortable (e : value) : listable e → sortable e.
Proof. intros (? & _ & _ & _ & _ & ?). by split. Qed.

Lemma with_keys_sortable (apps : list value) :
  Forall sortable apps →
  with_keys created_at_key apps
  = Ret (map (λ e, (VStr (created_key e), e)) apps).
Proof.
  induction 1 as [ | e apps He _ IH]; [done | ].
  cbn [with_keys map]. rewrite IH.
  destruct He as ((d & ->) & Hc).
  unfold created_at_key, created_key, text_field. cbn [field py_get] in *.
  destruct Hc as [-> | (s & ->)]; reflexivity.
Qed.

Lemma py_sorted_sortable (apps : list value) :
  Forall sortable apps →
  py_sorted created_at_key (VList apps) = Ret (sorted_apps apps).
Proof.
  intros H. unfold py_sorted. cbn [py_iter obind].
  rewrite (with_keys_sortable apps H). cbn [obind].
  unfold sorted_with_keys, sorted_apps. rewrite length_map.
  case_bool_decide as Hlen.
  - f_equal. destruct apps as [ | e [ | e' apps]]; [done | done | ].
    cbn in Hlen. lia.
  - by rewrite mapM_key_str.
Qed.

(** The loop over the rows stops at the first one it cannot format, after
    it has printed the rows before it. *)
Lemma print_rows_raises (good rest : list value) (bad : value) (e : exn)
  (w : world) :
  Forall listable good → format_row bad = Raise e →
  print_rows (good ++ bad :: rest) w
  = (Raise e, World (w_store w) (w_faults w) (w_clock w) (w_ticks w)
                    (w_stdout w ++ map row_text good) (w_puts w)).
Proof.
  intros Hgood Hbad. revert w.
  induction Hgood as [ | x good Hx _ IH]; intros w.
  - cbn [app print_rows map]. rewrite (bind_lift_raise _ _ _ _ Hbad).
    rewrite app_nil_r. by destruct w.
  - cbn [app print_rows]. mstep (format_row_listable x Hx).
    unfold bind at 1. cbn [print]. rewrite IH. cbn.
    by rewrite <- app_assoc.
Qed.

(** X16.  [list_apps] stops at the first row it cannot format.  The entries
    are sorted first; then, with [bad] the first entry in sorted order whose
    row raises (no ["id"], ["name"] or ["path"]: [KeyError]; an ["id"],
    ["icon"] or ["name"] that is [None], a list or an object: [TypeError]),
    [list_apps] raises that exception after it has printed the header and the
    rows of the entries before [bad]: the rows after it and the line of the
    total are missing. *)
Theorem list_apps_row_failure
  (w w1 : world) (d : list (pystr * value)) (apps good rest : list value)
  (bad : value) (e : exn) :
  load_catalog w = (Ret (VDict d), w1) →
  dict_get d k_apps = Some (VList apps) →
  Forall sortable apps →
  sorted_apps apps = good ++ bad :: rest →
  Forall listable good →
  format_row bad = Raise e →
  list_apps w
  = (Raise e,
     World (w_store w1) (w_faults w1) (w_clock w1) (w_ticks w1)
           (w_stdout w ++ [table_header; repeat 45 80] ++ map row_text good)
           (w_puts w1)).
Proof.
  intros Hload Happs Hsort Hrows Hgood Hbad.
  rewrite <- (load_catalog_stdout _ _ _ Hload).
  unfold list_apps. rewrite (bind_eq _ _ _ _ _ Hload).
  assert (py_getitem (VDict d) k_apps = Ret (VList apps)) as Hitem
    by (cbn [py_getitem]; by rewrite Happs).
  mstep Hitem. destruct apps as [ | x apps'].
  - by destruct good.
  - cbn [py_truth length negb bool_decide decide_rel].
    rewrite bool_decide_eq_false_2 by done. cbn [negb].
    unfold bind at 1. cbn [print]. unfold bind at 1. cbn [print].
    mstep Hitem. mstep (py_sorted_sortable _ Hsort). rewrite Hrows.
    unfold bind. rewrite (print_rows_raises good rest bad e _ Hgood Hbad).
    cbn [w_store w_faults w_clock w_ticks w_stdout w_puts].
    do 2 f_equal. by rewrite <- !app_assoc.
Qed.

Lemma list_apps_row_failure_witness :
  let w := world_with_catalog catalog_with_nameless in
  list_apps w
  = (Raise (KeyError (VStr k_id)),
     World (w_store w) [] (w_clock w) 0 [table_header; repeat 45 80] []).
Proof.
  cbv zeta.
  apply (list_apps_row_failure
           (world_with_catalog catalog_with_nameless)
           (after_call (world_with_catalog catalog_with_nameless))
           [(k_apps, VList [weather_entry;
                            VDict [(k_name, VStr (py "Lost"))]])]
           [weather_entry; VDict [(k_name, VStr (py "Lost"))]]
           [] [weather_entry] (VDict [(k_name, VStr (py "Lost"))])
           (KeyError (VStr k_id))).
  - vm_compute. reflexivity.
  - reflexivity.
  - repeat (apply Forall_cons_2;
              [split; [eexists; reflexivity | ];
               first [left; reflexivity | right; eexists; reflexivity] | ]).
    apply Forall_nil_2.
  - vm_compute. reflexivity.
  - apply Forall_nil_2.
  - reflexivity.
Defined.

(** The columns of a row.  [ljust] pads to the width and never cuts. *)
Lemma ljust_length (s : pystr) (width : nat) :
  (length s ≤ width)%nat → length (ljust s width) = width.
Proof. intros H. unfold ljust. rewrite length_app, repeat_length. lia. Qed.

Lemma take_ljust (s rest : pystr) (width : nat) :
  take (length s) (ljust s width ++ rest) = s.
Proof.
  unfold ljust. rewrite <- app_assoc. by rewrite take_app_length.
Qed.

Lemma drop_ljust (s rest : pystr) (width : nat) :
  (length s ≤ width)%nat →
  drop (S width) (ljust s width ++ [32] ++ rest) = rest.
Proof.
  intros H. rewrite app_assoc.
  rewrite drop_app_length'; [done | ].
  rewrite length_app, ljust_length by done. cbn. lia.
Qed.

(** X17.  The rows of the table line up with its header when the fields fit.
    For an entry that [list_apps] can show, with an ["id"] of at most 20
    characters, an icon of at most 4 (["?"] when there is none) and a
    ["name"] of at most 25, the row has the id from column 0, the icon from
    column 21, the name from column 26 and the path from column 52 to the
    end of the line: the columns where the header (after its leading
    newline) has ["ID"], ["Icon"], ["Name"] and ["Path"]. *)
Theorem format_row_columns (e : value) :
  listable e →
  (length (text_field e k_id []) ≤ 20)%nat →
  (length (text_field e k_icon (py "?")) ≤ 4)%nat →
  (length (text_field e k_name []) ≤ 25)%nat →
  ∃ row,
    format_row e = Ret row
    ∧ take (length (text_field e k_id [])) row = text_field e k_id []
    ∧ take (length (text_field e k_icon (py "?"))) (drop 21 row)
      = text_field e k_icon (py "?")
    ∧ take (length (text_field e k_name [])) (drop 26 row)
      = text_field e k_name []
    ∧ drop 52 row = text_field e k_path []
    ∧ take 2 (drop 1 table_header) = py "ID"
    ∧ take 4 (drop 22 table_header) = py "Icon"
    ∧ take 4 (drop 27 table_header) = py "Name"
    ∧ drop 53 table_header = py "Path".
Proof.
  intros Hl Hid Hicon Hname. exists (row_text e).
  split; [by apply format_row_listable | ].
  unfold row_text.
  set (i := text_field e k_id []) in *.
  set (ic := text_field e k_icon (py "?")) in *.
  set (n := text_field e k_name []) in *.
  set (p := text_field e k_path []).
  assert (drop 21 (ljust i 20 ++ [32] ++ ljust ic 4 ++ [32] ++ ljust n 25
                   ++ [32] ++ p)
          = ljust ic 4 ++ [32] ++ ljust n 25 ++ [32] ++ p) as H21
    by (by apply drop_ljust).
  assert (drop 26 (ljust i 20 ++ [32] ++ ljust ic 4 ++ [32] ++ ljust n 25
                   ++ [32] ++ p)
          = ljust n 25 ++ [32] ++ p) as H26.
  { change 26%nat with (21 + 5)%nat. rewrite <- drop_drop, H21.
    by apply drop_ljust. }
  assert (drop 52 (ljust i 20 ++ [32] ++ ljust ic 4 ++ [32] ++ ljust n 25
                   ++ [32] ++ p) = p) as H52.
  { change 52%nat with (26 + 26)%nat. rewrite <- drop_drop, H26.
    by apply drop_ljust. }
  rewrite H21, H26, H52, !take_ljust.
  repeat split; vm_compute; reflexivity.
Qed.

Lemma format_row_columns_witness :
  ∃ row,
    format_row weather_entry = Ret row
    ∧ take 7 row = py "weather"
    ∧ take 2 (drop 21 row) = py "☀️"
    ∧ take 7 (drop 26 row) = py "Weather"
    ∧ drop 52 row = py "/apps/weather/index.html"
    ∧ take 2 (drop 1 table_header) = py "ID"
    ∧ take 4 (drop 22 table_header) = py "Icon"
    ∧ take 4 (drop 27 table_header) = py "Name"
    ∧ drop 53 table_header = py "Path".
Proof.
  apply (format_row_columns weather_entry).
  - solve_listable.
  - vm_compute. lia.
  - vm_compute. lia.
  - vm_compute. lia.
Defined.

(** ** One call after another *)

(** The entries after [add_app]: the update of the first entry with the id
    (which keeps that entry's ["created_at"], or takes the first reading
    [now1] of the clock when it has none), or the insertion at the end. *)
Definition upserted (apps : list value)
  (app_id name icon description path : pystr) (featured : bool)
  (now1 now2 : pystr) : list value :=
  match index_of_id apps app_id with
  | Some i =>
    <[i := updated_entry app_id name icon description path featured
             (default (VStr now1)
                      (apps !! i ≫= λ old, field old k_created_at))
             now2]> apps
  | None =>
    apps ++ [new_entry app_id name icon description path featured now1]
  end.

Lemma forallb_Forall {A} (f : A → bool) (l : list A) :
  forallb f l = true ↔ Forall (λ x, f x = true) l.
Proof.
  induction l as [ | x l IH]; cbn [forallb].
  - split; [constructor | done].
  - rewrite andb_true_iff, IH. split.
    + intros (? & ?). by constructor.
    + intros H. by inversion H.
Qed.

Lemma dict_get_wf (d : list (pystr * value)) (k : pystr) (v : value) :
  wf_value (VDict d) = true → dict_get d k = Some v → wf_value v = true.
Proof.
  cbn [wf_value]. intros H%andb_true_iff. destruct H as (H & _).
  induction d as [ | [k' v'] d IH]; [done | ].
  cbn [forallb dict_get fst snd] in *.
  apply andb_true_iff in H as (Hkv & H).
  apply andb_true_iff in Hkv as (_ & Hv').
  destruct (str_eqb k' k); [by intros [= <-] | by apply IH].
Qed.

Lemma field_wf (e : value) (k : pystr) (v : value) :
  wf_value e = true → field e k = Some v → wf_value v = true.
Proof. destruct e; try done. apply dict_get_wf. Qed.

Lemma dict_set_catalog_wf (d : list (pystr * value)) (apps : list value) :
  wf_value (VDict d) = true →
  Forall (λ e, wf_value e = true) apps →
  wf_value (VDict (dict_set d k_apps (VList apps))) = true.
Proof.
  cbn [wf_value]. intros H%andb_true_iff Happs. destruct H as (Hd & Hnd).
  apply bool_decide_eq_true in Hnd.
  destruct (dict_set_wf d k_apps (VList apps) Hd Hnd) as (H1 & H2 & _).
  - reflexivity.
  - cbn [wf_value]. by apply forallb_Forall.
  - rewrite H1. by apply bool_decide_eq_true.
Qed.

(** The entries after [add_app] are well-formed when those before are and
    the texts of the call and of the clock are. *)
Lemma upserted_wf (apps : list value)
  (app_id name icon description path : pystr) (featured : bool)
  (now1 now2 : pystr) :
  Forall (λ e, wf_value e = true) apps →
  wf_str app_id = true → wf_str name = true → wf_str icon = true →
  wf_str description = true → wf_str path = true →
  wf_str now1 = true → wf_str now2 = true →
  Forall (λ e, wf_value e = true)
         (upserted apps app_id name icon description path featured
                   now1 now2).
Proof.
  intros Happs H1 H2 H3 H4 H5 Hn1 Hn2. unfold upserted.
  destruct (index_of_id apps app_id) as [i | ] eqn:Hidx.
  - apply Forall_insert; [done | ].
    destruct (index_of_id_Some _ _ _ Hidx) as (old & Hold & _).
    rewrite Hold. cbn [mbind option_bind].
    assert (wf_value (default (VStr now1) (field old k_created_at)) = true)
      as Hc.
    { destruct (field old k_created_at) as [c | ] eqn:Ec; [ | done].
      eapply field_wf; [ | exact Ec].
      by eapply (Forall_lookup_1 _ _ _ _ Happs). }
    unfold updated_entry. cbn [wf_value forallb fst snd].
    rewrite H1, H2, H3, H4, H5, Hc, Hn2. reflexivity.
  - apply Forall_app. split; [done | ]. constructor; [ | constructor].
    unfold new_entry. cbn [wf_value forallb fst snd].
    rewrite H1, H2, H3, H4, H5, Hn1. reflexivity.
Qed.

(** Every entry has an ["id"] after [add_app] when every entry had. *)
Lemma upserted_has_id (apps : list value)
  (app_id name icon description path : pystr) (featured : bool)
  (now1 now2 : pystr) :
  Forall has_id apps →
  Forall has_id (upserted apps app_id name icon description path featured
                          now1 now2).
Proof.
  intros Hids. unfold upserted. destruct (index_of_id apps app_id).
  - apply Forall_insert; [done | ]. by eexists _, _.
  - apply Forall_app. split; [done | ]. constructor; [ | constructor].
    by eexists _, _.
Qed.

(** The store holds [v] as [save_catalog] writes it, and no client call is
    going to fail: the next [load_catalog] returns [v]. *)
Lemma load_stored (w : world) (v : value) :
  w_faults w = [] → stored w v → wf_value v = true →
  load_catalog w = (Ret v, w).
Proof.
  intros Hf (data & Henc & Hst) Hwf.
  rewrite load_catalog_eq, (after_call_no_faults _ Hf). f_equal.
  rewrite (get_object_stored _ _ _ (call_succeeds_no_faults _ Hf) Hst).
  cbn [fst]. pose proof (reparse_saved _ data Hwf Henc) as Hre.
  destruct (decode_utf8 data) as [text | e | ]; try done.
  cbn [obind] in Hre. by rewrite Hre.
Qed.

Lemma saved_printed (v : value) (w w' : world) (line : pystr) :
  w_faults w = [] → saved v w w' →
  w_faults (printed line w') = []
  ∧ stored (printed line w') v
  ∧ w_clock (printed line w') = w_clock w
  ∧ w_ticks (printed line w') = w_ticks w
  ∧ w_puts (printed line w') = w_puts w' 
  ∧ length (w_puts w') = S (length (w_puts w)).
Proof.
  intros Hf (data & Henc & ->). unfold next_fault. rewrite Hf.
  repeat split.
  - exists data. split; [done | ]. cbn [printed w_store].
    apply lookup_insert_eq.
  - cbn. rewrite length_app. cbn. lia.
Qed.

(** Printing does not change what [load_catalog] returns. *)
Lemma load_catalog_printed (w : world) (v : value) (line : pystr) :
  load_catalog w = (Ret v, w) →
  load_catalog (printed line w) = (Ret v, printed line w).
Proof.
  rewrite !load_catalog_eq. intros [= Hv Hw]. f_equal.
  - rewrite <- Hv. unfold get_object, next_fault. cbn [printed w_faults w_store].
    destruct (w_faults w) as [ | [e | ] fs]; try done;
      by destruct (w_store w !! (MINIO_BUCKET, CATALOG_FILE)).
  - destruct w as [st fs cl tk out puts].
    unfold after_call, printed, next_fault in *. cbn in *.
    injection Hw as Hfs. by rewrite Hfs.
Qed.

(** [add_app], then what the store holds: with no failing call ahead and
    well-formed texts, the call returns [True] and the next [load_catalog]
    returns the catalog with the entries [upserted]. *)
Lemma add_app_then_load
  (w : world) (d : list (pystr * value)) (apps : list value)
  (app_id name icon description path : pystr) (featured : bool) :
  w_faults w = [] →
  load_catalog w = (Ret (VDict d), w) →
  dict_get d k_apps = Some (VList apps) →
  Forall has_id apps →
  wf_str app_id = true → wf_str name = true → wf_str icon = true →
  wf_str description = true → wf_str path = true →
  (∀ n, wf_str (w_clock w n) = true) →
  let r := add_app app_id name icon description path featured w in
  let apps' := upserted apps app_id name icon description path featured
                        (w_clock w (w_ticks w)) (w_clock w (S (w_ticks w))) in
  r.1 = Ret (VBool true)
  ∧ w_faults r.2 = []
  ∧ w_clock r.2 = w_clock w
  ∧ length (w_puts r.2) = S (length (w_puts w))
  ∧ load_catalog r.2 = (Ret (VDict (dict_set d k_apps (VList apps'))), r.2).
Proof.
  intros Hf Hload Happs Hids H1 H2 H3 H4 H5 Hclock. cbv zeta.
  pose proof (load_catalog_wf _ _ _ Hload) as Hwfd.
  assert (Forall (λ e, wf_value e = true) apps) as Hwfa.
  { pose proof (dict_get_wf _ _ _ Hwfd Happs) as H. cbn [wf_value] in H.
    by apply forallb_Forall. }
  pose proof (upserted_wf apps app_id name icon description path featured
                _ _ Hwfa H1 H2 H3 H4 H5 (Hclock (w_ticks w))
                (Hclock (S (w_ticks w)))) as Hwf'.
  pose proof (dict_set_catalog_wf d _ Hwfd Hwf') as Hwfc.
  pose proof (add_app_cases w w d apps app_id name icon description path
                featured Hload Happs Hids (call_succeeds_no_faults _ Hf))
    as Hadd.
  unfold upserted in *.
  destruct (index_of_id apps app_id) as [i | ] eqn:Hidx.
  - destruct Hadd as (old & w_s & Hold & Hsaved & ->). cbn [fst snd].
    rewrite Hold in *. cbn [mbind option_bind] in *.
    destruct (saved_printed _ _ _
                (add_message (py "Updated") name app_id)
                (Hf : w_faults (tick 2 w) = []) Hsaved)
      as (Hf' & Hst & Hc & _ & Hp & Hlen).
    repeat split; try done.
    by apply load_stored.
  - destruct Hadd as (w_s & Hsaved & ->). cbn [fst snd].
    destruct (saved_printed _ _ _
                (add_message (py "Added") name app_id)
                (Hf : w_faults (tick 1 w) = []) Hsaved)
      as (Hf' & Hst & Hc & _ & Hp & Hlen).
    repeat split; try done.
    by apply load_stored.
Qed.

Lemma filter_same_length {A} (P : A → Prop) `{∀ x, Decision (P x)}
  (l : list A) :
  length (filter P l) = length l → filter P l = l.
Proof.
  induction l as [ | x l IH]; [done | ].
  rewrite filter_cons. pose proof (length_filter P l).
  case_decide; cbn [length]; intros Hlen; [ | lia].
  f_equal. apply IH. lia.
Qed.

Lemma dict_set_set (d : list (pystr * value)) (k : pystr) (x y : value) :
  dict_set (dict_set d k x) k y = dict_set d k y.
Proof.
  induction d as [ | [k' v'] d IH]; cbn [dict_set].
  - by rewrite str_eqb_refl.
  - destruct (str_eqb k' k) eqn:E; cbn [dict_set]; rewrite E; [done | ].
    by rewrite IH.
Qed.

(** [remove_app], then what the store holds: with no failing call ahead,
    the call tells whether the list got shorter, and the next [load_catalog]
    returns the catalog with the entries that were kept. *)
Lemma remove_app_then_load
  (w : world) (d : list (pystr * value)) (apps : list value)
  (app_id : pystr) :
  w_faults w = [] →
  load_catalog w = (Ret (VDict d), w) →
  dict_get d k_apps = Some (VList apps) →
  Forall has_id apps →
  let r := remove_app app_id w in
  let kept := filter (λ e, id_is e app_id = false) apps in
  r.1 = Ret (VBool (length kept <? length apps)%nat)
  ∧ w_faults r.2 = []
  ∧ w_clock r.2 = w_clock w
  ∧ length (w_puts r.2)
    = (if (length kept <? length apps)%nat then S (length (w_puts w))
       else length (w_puts w))
  ∧ load_catalog r.2 = (Ret (VDict (dict_set d k_apps (VList kept))), r.2).
Proof.
  intros Hf Hload Happs Hids. cbv zeta.
  pose proof (load_catalog_wf _ _ _ Hload) as Hwfd.
  assert (Forall (λ e, wf_value e = true) apps) as Hwfa.
  { pose proof (dict_get_wf _ _ _ Hwfd Happs) as H. cbn [wf_value] in H.
    by apply forallb_Forall. }
  rewrite (remove_app_eq _ _ _ _ app_id Hload Happs Hids). cbv zeta.
  destruct (length (filter (λ e, id_is e app_id = false) apps)
            <? length apps)%nat eqn:Hlt.
  - destruct (save_catalog_saved
                (VDict (dict_set d k_apps
                          (VList (filter (λ e, id_is e app_id = false) apps))))
                w (call_succeeds_no_faults _ Hf)) as (w_s & Hsave & Hsaved).
    rewrite (bind_eq _ _ _ _ _ Hsave). cbn [bind print ret fst snd].
    destruct (saved_printed _ _ _ (py "Removed app: " ++ app_id) Hf Hsaved)
      as (Hf' & Hst & Hc & _ & Hp & Hlen).
    unfold printed in *. repeat split; try done.
    apply load_stored; [done | done | ].
    apply dict_set_catalog_wf; [done | ].
    apply Forall_forall. intros e He.
    apply list_elem_of_filter in He as [_ He].
    by apply (proj1 (Forall_forall _ _) Hwfa).
  - apply Nat.ltb_ge in Hlt.
    pose proof (length_filter (λ e, id_is e app_id = false) apps) as Hle.
    rewrite filter_same_length by lia.
    rewrite (dict_set_same _ _ _ Happs).
    cbn [bind print ret fst snd]. repeat split; try done.
    by apply (load_catalog_printed w).
Qed.

Lemma id_is_updated_entry (app_id name icon description path : pystr)
  (featured : bool) (created : value) (updated : pystr) :
  id_is (updated_entry app_id name icon description path featured created
                       updated) app_id = true.
Proof. unfold id_is. cbn. apply str_eqb_refl. Qed.

Lemma id_is_new_entry (app_id name icon description path : pystr)
  (featured : bool) (created : pystr) :
  id_is (new_entry app_id name icon description path featured created)
        app_id = true.
Proof. unfold id_is. cbn. apply str_eqb_refl. Qed.

Lemma index_of_id_insert (apps : list value) (app_id : pystr) (i : nat)
  (e : value) :
  index_of_id apps app_id = Some i → id_is e app_id = true →
  index_of_id (<[i := e]> apps) app_id = Some i.
Proof.
  revert i. induction apps as [ | x apps IH]; intros i; [done | ].
  cbn [index_of_id]. destruct (id_is x app_id) eqn:E.
  - intros [= <-] He. cbn. by rewrite He.
  - destruct (index_of_id apps app_id) as [i' | ] eqn:Hi; [ | done].
    intros [= <-] He. cbn [list_insert insert index_of_id].
    change (index_of_id (x :: <[i' := e]> apps) app_id = Some (S i')).
    cbn [index_of_id]. by rewrite E, (IH i' eq_refl He).
Qed.

Lemma index_of_id_snoc (apps : list value) (app_id : pystr) (e : value) :
  index_of_id apps app_id = None → id_is e app_id = true →
  index_of_id (apps ++ [e]) app_id = Some (length apps).
Proof.
  intros Hidx He. induction apps as [ | x apps IH].
  - cbn. by rewrite He.
  - cbn [index_of_id app length] in *. destruct (id_is x app_id); [done | ].
    destruct (index_of_id apps app_id); [done | ]. by rewrite IH.
Qed.

(** Where the entry of the call is after [add_app], and what it is. *)
Lemma upserted_entry (apps : list value)
  (app_id name icon description path : pystr) (featured : bool)
  (now1 now2 : pystr) :
  let apps' := upserted apps app_id name icon description path featured
                        now1 now2 in
  ∃ i e,
    index_of_id apps' app_id = Some i
    ∧ apps' !! i = Some e
    ∧ i = default (length apps) (index_of_id apps app_id)
    ∧ (e = new_entry app_id name icon description path featured now1
         ∧ index_of_id apps app_id = None
         ∧ apps' = apps ++ [e]
       ∨ ∃ old,
           apps !! i = Some old
           ∧ index_of_id apps app_id = Some i
           ∧ e = updated_entry app_id name icon description path featured
                   (default (VStr now1) (field old k_created_at)) now2
           ∧ apps' = <[i := e]> apps).
Proof.
  cbv zeta. unfold upserted.
  destruct (index_of_id apps app_id) as [i | ] eqn:Hidx.
  - destruct (index_of_id_Some _ _ _ Hidx) as (old & Hold & _).
    rewrite Hold. cbn [mbind option_bind default from_option id].
    eexists i, _. split.
    { apply index_of_id_insert; [done | apply id_is_updated_entry]. }
    split.
    { apply list_lookup_insert_eq. by eapply lookup_lt_Some. }
    split; [done | ]. right. by exists old.
  - eexists (length apps), _. split.
    { apply index_of_id_snoc; [done | apply id_is_new_entry]. }
    split.
    { rewrite lookup_app_r by lia. by rewrite Nat.sub_diag. }
    split; [done | ]. by left.
Qed.

Lemma filter_insert_out (P : value → Prop) `{∀ x, Decision (P x)}
  (l : list value) (i : nat) (old new : value) :
  l !! i = Some old → ¬ P old → ¬ P new →
  filter P (<[i := new]> l) = filter P l.
Proof.
  revert i. induction l as [ | x l IH]; intros i; [done | ].
  destruct i as [ | i]; cbn [lookup list_lookup].
  - intros [= ->] Hold Hnew.
    change (<[0%nat := new]> (old :: l)) with (new :: l).
    by rewrite !filter_cons_False.
  - intros Hi Hold Hnew.
    change (<[S i := new]> (x :: l)) with (x :: <[i := new]> l).
    by rewrite !filter_cons, (IH i Hi Hold Hnew).
Qed.

(** Removing the id of the call after [add_app] leaves the entries that
    removing it before would have left. *)
Lemma filter_upserted (apps : list value)
  (app_id name icon description path : pystr) (featured : bool)
  (now1 now2 : pystr) :
  filter (λ e, id_is e app_id = false)
         (upserted apps app_id name icon description path featured
                   now1 now2)
  = filter (λ e, id_is e app_id = false) apps.
Proof.
  unfold upserted. destruct (index_of_id apps app_id) as [i | ] eqn:Hidx.
  - destruct (index_of_id_Some _ _ _ Hidx) as (old & Hold & Hid & _).
    apply (filter_insert_out _ _ _ old); [done | | ].
    + by rewrite Hid.
    + by rewrite id_is_updated_entry.
  - rewrite filter_app.
    rewrite (filter_cons_False (λ e, id_is e app_id = false));
      [by rewrite filter_nil, app_nil_r | ].
    by rewrite id_is_new_entry.
Qed.

(** X18.  What [add_app] stores is what the next read returns.  With no
    failing call ahead and texts that JSON carries unchanged, after
    [add_app] the next [load_catalog] returns the loaded document with its
    ["apps"] changed as [add_app] changed it: the first entry with the id of
    the call is at the index the id had (at the end, when it is new), and it
    carries the id, name, icon, description, path and flag of the call. *)
Theorem add_app_read_back
  (w : world) (d : list (pystr * value)) (apps : list value)
  (app_id name icon description path : pystr) (featured : bool) :
  w_faults w = [] →
  load_catalog w = (Ret (VDict d), w) →
  dict_get d k_apps = Some (VList apps) →
  Forall has_id apps →
  wf_str app_id = true → wf_str name = true → wf_str icon = true →
  wf_str description = true → wf_str path = true →
  (∀ n, wf_str (w_clock w n) = true) →
  let w' := (add_app app_id name icon description path featured w).2 in
  ∃ apps' i e,
    load_catalog w' = (Ret (VDict (dict_set d k_apps (VList apps'))), w')
    ∧ index_of_id apps' app_id = Some i
    ∧ i = default (length apps) (index_of_id apps app_id)
    ∧ length apps'
      = match index_of_id apps app_id with
        | Some _ => length apps
        | None => S (length apps)
        end
    ∧ apps' !! i = Some e
    ∧ field e k_id = Some (VStr app_id)
    ∧ field e k_name = Some (VStr name)
    ∧ field e k_icon = Some (VStr icon)
    ∧ field e k_description = Some (VStr description)
    ∧ field e k_path = Some (VStr path)
    ∧ field e k_featured = Some (VBool featured).
Proof.
  intros Hf Hload Happs Hids H1 H2 H3 H4 H5 Hclock. cbv zeta.
  destruct (add_app_then_load w d apps app_id name icon description path
              featured Hf Hload Happs Hids H1 H2 H3 H4 H5 Hclock)
    as (_ & _ & _ & _ & Hload').
  destruct (upserted_entry apps app_id name icon description path featured
              (w_clock w (w_ticks w)) (w_clock w (S (w_ticks w))))
    as (i & e & Hidx & He & Hi & Hcases).
  eexists _, i, e. split; [exact Hload' | ].
  split; [exact Hidx | ]. split; [exact Hi | ].
  destruct Hcases as [(He' & -> & Happ) | (old & Hold & -> & He' & Hins)].
  - split; [rewrite Happ, length_app; cbn [length]; lia | ].
    split; [exact He | ]. subst e. repeat split; reflexivity.
  - split; [by rewrite Hins, length_insert | ].
    split; [exact He | ]. subst e. repeat split; reflexivity.
Qed.

(** The clock of the example worlds gives well-formed text. *)
Lemma numbering_clock_wf (n : nat) :
  wf_str (py "2026-01-01T00:00:00+00:00" ++ nat_str n) = true.
Proof.
  apply ascii_wf_str, ascii_text_app.
  - by apply ascii_text_check.
  - apply int_repr_ascii.
Qed.

Lemma add_app_read_back_witness :
  let w := world_with_catalog (VDict [(k_apps, VList [weather_entry])]) in
  let w' := (add_app (py "notes") (py "Notes") (py "N") (py "Takes notes")
                     (py "/apps/notes/index.html") false w).2 in
  ∃ apps' e,
    load_catalog w' = (Ret (VDict [(k_apps, VList apps')]), w')
    ∧ index_of_id apps' (py "notes") = Some 1%nat
    ∧ length apps' = 2%nat
    ∧ apps' !! 1%nat = Some e
    ∧ field e k_name = Some (VStr (py "Notes"))
    ∧ field e k_path = Some (VStr (py "/apps/notes/index.html")).
Proof.
  cbv zeta.
  destruct (add_app_read_back
              (world_with_catalog (VDict [(k_apps, VList [weather_entry])]))
              [(k_apps, VList [weather_entry])] [weather_entry]
              (py "notes") (py "Notes") (py "N") (py "Takes notes")
              (py "/apps/notes/index.html") false)
    as (apps' & i & e & Hload & Hidx & -> & Hlen & He & _ & Hname & _ & _
        & Hpath & _).
  - reflexivity.
  - vm_compute. reflexivity.
  - reflexivity.
  - repeat constructor. eexists _, _. split; reflexivity.
  - reflexivity.
  - reflexivity.
  - reflexivity.
  - reflexivity.
  - reflexivity.
  - apply numbering_clock_wf.
  - exists apps', e. by repeat split.
Defined.

(** X19.  [remove_app] undoes [add_app].  With no failing call ahead and
    texts that JSON carries unchanged, [add_app] followed by [remove_app]
    of the same id returns [True] and leaves a catalog whose entries are
    those the document had, without the ones of that id; when the id was
    new, the next [load_catalog] returns the very document that was loaded
    before the two calls. *)
Theorem remove_app_undoes_add_app
  (w : world) (d : list (pystr * value)) (apps : list value)
  (app_id name icon description path : pystr) (featured : bool) :
  w_faults w = [] →
  load_catalog w = (Ret (VDict d), w) →
  dict_get d k_apps = Some (VList apps) →
  Forall has_id apps →
  wf_str app_id = true → wf_str name = true → wf_str icon = true →
  wf_str description = true → wf_str path = true →
  (∀ n, wf_str (w_clock w n) = true) →
  let w1 := (add_app app_id name icon description path featured w).2 in
  let r := remove_app app_id w1 in
  r.1 = Ret (VBool true)
  ∧ load_catalog r.2
    = (Ret (VDict (dict_set d k_apps
                     (VList (filter (λ e, id_is e app_id = false) apps)))),
       r.2)
  ∧ (index_of_id apps app_id = None →
     load_catalog r.2 = (Ret (VDict d), r.2)).
Proof.
  intros Hf Hload Happs Hids H1 H2 H3 H4 H5 Hclock. cbv zeta.
  destruct (add_app_then_load w d apps app_id name icon description path
              featured Hf Hload Happs Hids H1 H2 H3 H4 H5 Hclock)
    as (_ & Hf1 & _ & _ & Hload1).
  set (w1 := (add_app app_id name icon description path featured w).2) in *.
  set (apps1 := upserted apps app_id name icon description path featured
                         (w_clock w (w_ticks w))
                         (w_clock w (S (w_ticks w)))) in *.
  assert (Forall has_id apps1) as Hids1 by (by apply upserted_has_id).
  destruct (remove_app_then_load w1 _ apps1 app_id Hf1 Hload1
              (dict_get_set_eq _ _ _) Hids1)
    as (Hr & _ & _ & _ & Hload2).
  rewrite dict_set_set in Hload2. unfold apps1 in Hload2, Hr.
  rewrite filter_upserted in Hload2, Hr. fold apps1 in Hr.
  assert (length (filter (λ e, id_is e app_id = false) apps)
          < length apps1)%nat as Hlt.
  { rewrite <- (filter_upserted apps app_id name icon description path
                  featured (w_clock w (w_ticks w))
                  (w_clock w (S (w_ticks w)))).
    apply filter_present_shorter. fold apps1.
    destruct (upserted_entry apps app_id name icon description path featured
                (w_clock w (w_ticks w)) (w_clock w (S (w_ticks w))))
      as (i & e & Hidx & _). fold apps1 in Hidx.
    apply index_of_id_Some in Hidx as (old & Hold & Hid & _).
    apply id_is_true in Hid. rewrite <- Hid. unfold ids.
    apply list_elem_of_fmap. exists old. split; [done | ].
    by eapply list_elem_of_lookup_2. }
  apply Nat.ltb_lt in Hlt. rewrite Hlt in Hr.
  split; [exact Hr | ]. split; [exact Hload2 | ].
  intros Hnone. rewrite Hload2. do 3 f_equal.
  apply index_of_id_None in Hnone. rewrite (filter_all _ _ Hnone).
  by apply dict_set_same.
Qed.

Lemma remove_app_undoes_add_app_witness :
  let w := world_with_catalog (VDict [(k_apps, VList [weather_entry])]) in
  let w1 := (add_app (py "notes") (py "Notes") (py "N") (py "Takes notes")
                     (py "/apps/notes/index.html") false w).2 in
  let r := remove_app (py "notes") w1 in
  r.1 = Ret (VBool true)
  ∧ load_catalog r.2 = (Ret (VDict [(k_apps, VList [weather_entry])]), r.2).
Proof.
  cbv zeta.
  destruct (remove_app_undoes_add_app
              (world_with_catalog (VDict [(k_apps, VList [weather_entry])]))
              [(k_apps, VList [weather_entry])] [weather_entry]
              (py "notes") (py "Notes") (py "N") (py "Takes notes")
              (py "/apps/notes/index.html") false)
    as (Hr & _ & Hload).
  - reflexivity.
  - vm_compute. reflexivity.
  - reflexivity.
  - repeat constructor. eexists _, _. split; reflexivity.
  - reflexivity.
  - reflexivity.
  - reflexivity.
  - reflexivity.
  - reflexivity.
  - apply numbering_clock_wf.
  - split; [exact Hr | ]. by apply Hload.
Defined.

(** X20.  A second [remove_app] of the same id finds nothing.  With no
    failing call ahead, after [remove_app] (whether it removed entries or
    not) another [remove_app] of the same id returns [False], prints
    ["App not found: <id>"] and makes no [put_object] call: the store stays
    as the first call left it. *)
Theorem remove_app_twice
  (w : world) (d : list (pystr * value)) (apps : list value)
  (app_id : pystr) :
  w_faults w = [] →
  load_catalog w = (Ret (VDict d), w) →
  dict_get d k_apps = Some (VList apps) →
  Forall has_id apps →
  let w1 := (remove_app app_id w).2 in
  remove_app app_id w1
  = (Ret (VBool false), printed (py "App not found: " ++ app_id) w1).
Proof.
  intros Hf Hload Happs Hids. cbv zeta.
  destruct (remove_app_then_load w d apps app_id Hf Hload Happs Hids)
    as (_ & Hf1 & _ & _ & Hload1).
  set (w1 := (remove_app app_id w).2) in *.
  set (kept := filter (λ e, id_is e app_id = false) apps) in *.
  assert (Forall has_id kept) as Hids1.
  { apply Forall_forall. intros e He.
    apply list_elem_of_filter in He as [_ He].
    by apply (proj1 (Forall_forall _ _) Hids). }
  rewrite (remove_app_eq _ _ _ _ app_id Hload1 (dict_get_set_eq _ _ _) Hids1).
  cbv zeta.
  assert (filter (λ e, id_is e app_id = false) kept = kept) as ->.
  { apply filter_all, Forall_forall. intros e He.
    by apply list_elem_of_filter in He as [He _]. }
  by rewrite Nat.ltb_irrefl.
Qed.

Lemma remove_app_twice_witness :
  let w := world_with_catalog (VDict [(k_apps, VList [weather_entry])]) in
  let w1 := (remove_app (py "weather") w).2 in
  remove_app (py "weather") w1
  = (Ret (VBool false), printed (py "App not found: weather") w1).
Proof.
  cbv zeta.
  apply (remove_app_twice
           (world_with_catalog (VDict [(k_apps, VList [weather_entry])]))
           [(k_apps, VList [weather_entry])] [weather_entry] (py "weather")).
  - reflexivity.
  - vm_compute. reflexivity.
  - reflexivity.
  - repeat constructor. eexists _, _. split; reflexivity.
Defined.

(** X21.  A second [add_app] of the same id updates the entry of the first.
    With no failing call ahead and texts that JSON carries unchanged, after
    two [add_app] calls with the same id the catalog has as many entries as
    after the first; the entry of the id is at the same index, with the
    ["created_at"] it had after the first call, the name, icon, description,
    path and flag of the second call, and an ["updated_at"] that is the
    second reading of the clock during the second call; every other entry
    is as it was. *)
Theorem add_app_twice
  (w : world) (d : list (pystr * value)) (apps : list value)
  (app_id name icon description path : pystr) (featured : bool)
  (name' icon' description' path' : pystr) (featured' : bool) :
  w_faults w = [] →
  load_catalog w = (Ret (VDict d), w) →
  dict_get d k_apps = Some (VList apps) →
  Forall has_id apps →
  wf_str app_id = true → wf_str name = true → wf_str icon = true →
  wf_str description = true → wf_str path = true →
  wf_str name' = true → wf_str icon' = true →
  wf_str description' = true → wf_str path' = true →
  (∀ n, wf_str (w_clock w n) = true) →
  let w1 := (add_app app_id name icon description path featured w).2 in
  let w2 := (add_app app_id name' icon' description' path' featured' w1).2 in
  ∃ apps1 apps2 i e1 e2 created,
    load_catalog w1 = (Ret (VDict (dict_set d k_apps (VList apps1))), w1)
    ∧ load_catalog w2 = (Ret (VDict (dict_set d k_apps (VList apps2))), w2)
    ∧ length apps2 = length apps1
    ∧ index_of_id apps1 app_id = Some i
    ∧ index_of_id apps2 app_id = Some i
    ∧ apps1 !! i = Some e1 ∧ apps2 !! i = Some e2
    ∧ (∀ j, j ≠ i → apps2 !! j = apps1 !! j)
    ∧ field e1 k_created_at = Some created
    ∧ field e2 k_created_at = Some created
    ∧ field e2 k_updated_at = Some (VStr (w_clock w (S (w_ticks w1))))
    ∧ field e2 k_name = Some (VStr name')
    ∧ field e2 k_icon = Some (VStr icon')
    ∧ field e2 k_description = Some (VStr description')
    ∧ field e2 k_path = Some (VStr path')
    ∧ field e2 k_featured = Some (VBool featured').
Proof.
  intros Hf Hload Happs Hids H1 H2 H3 H4 H5 H2' H3' H4' H5' Hclock. cbv zeta.
  destruct (add_app_then_load w d apps app_id name icon description path
              featured Hf Hload Happs Hids H1 H2 H3 H4 H5 Hclock)
    as (_ & Hf1 & Hc1 & _ & Hload1).
  set (w1 := (add_app app_id name icon description path featured w).2) in *.
  set (apps1 := upserted apps app_id name icon description path featured
                         (w_clock w (w_ticks w))
                         (w_clock w (S (w_ticks w)))) in *.
  assert (Forall has_id apps1) as Hids1 by (by apply upserted_has_id).
  assert (∀ n, wf_str (w_clock w1 n) = true) as Hclock1
    by (intros n; rewrite Hc1; apply Hclock).
  destruct (add_app_then_load w1 _ apps1 app_id name' icon' description'
              path' featured' Hf1 Hload1 (dict_get_set_eq _ _ _) Hids1
              H1 H2' H3' H4' H5' Hclock1)
    as (_ & _ & _ & _ & Hload2).
  rewrite dict_set_set, !Hc1 in Hload2.
  destruct (upserted_entry apps app_id name icon description path featured
              (w_clock w (w_ticks w)) (w_clock w (S (w_ticks w))))
    as (i & e1 & Hidx1 & He1 & _ & Hcases1). fold apps1 in Hidx1, He1.
  assert (∃ created, field e1 k_created_at = Some created) as (created & Hcr).
  { destruct Hcases1 as [(-> & _) | (old & _ & _ & -> & _)]; by eexists. }
  pose proof (upserted_entry apps1 app_id name' icon' description' path'
                featured' (w_clock w (w_ticks w1))
                (w_clock w (S (w_ticks w1)))) as Hup2.
  cbv zeta in Hup2.
  destruct Hup2 as (i2 & e2 & Hidx2 & He2 & Hi2 & Hcases2).
  rewrite Hidx1 in Hi2. cbn in Hi2. subst i2.
  destruct Hcases2 as [(_ & Hnone & _) | (old & Hold & _ & -> & Hins)];
    [congruence | ].
  assert (old = e1) as -> by congruence.
  rewrite Hcr in Hins, He2. cbn [default from_option id] in Hins, He2.
  eexists apps1, _, i, e1, _, created.
  split; [exact Hload1 | ]. split; [exact Hload2 | ].
  split; [by rewrite Hins, length_insert | ].
  split; [exact Hidx1 | ]. split; [exact Hidx2 | ].
  split; [exact He1 | ]. split; [exact He2 | ].
  split; [by intros j Hj; rewrite Hins, list_lookup_insert_ne | ].
  split; [exact Hcr | ]. repeat split; reflexivity.
Qed.

Lemma add_app_twice_witness :
  let w := world_with_catalog empty_catalog in
  let w1 := (add_app (py "weather") (py "Weather") (py "☀️")
                     (py "Shows weather") (py "/apps/weather/index.html")
                     false w).2 in
  let w2 := (add_app (py "weather") (py "Weather") (py "☀️")
                     (py "Shows weather") (py "/apps/weather/index.html")
                     true w1).2 in
  (∃ apps1 apps2 i e2,
     load_catalog w1 = (Ret (VDict [(k_apps, VList apps1)]), w1)
     ∧ load_catalog w2 = (Ret (VDict [(k_apps, VList apps2)]), w2)
     ∧ length apps2 = length apps1
     ∧ apps2 !! i = Some e2
     ∧ field e2 k_featured = Some (VBool true))
  ∧ load_catalog w2
    = (Ret (VDict [(k_apps,
                    VList [updated_entry (py "weather") (py "Weather")
                             (py "☀️") (py "Shows weather")
                             (py "/apps/weather/index.html") true
                             (VStr (py "2026-01-01T00:00:00+00:000"))
                             (py "2026-01-01T00:00:00+00:002")])]),
       w2).
Proof.
  cbv zeta. split; [ | vm_compute; reflexivity].
  destruct (add_app_twice
              (world_with_catalog empty_catalog) [(k_apps, VList [])] []
              (py "weather") (py "Weather") (py "☀️") (py "Shows weather")
              (py "/apps/weather/index.html") false
              (py "Weather") (py "☀️") (py "Shows weather")
              (py "/apps/weather/index.html") true)
    as (apps1 & apps2 & i & e1 & e2 & created & Hl1 & Hl2 & Hlen & Hi1 & _
        & He1 & He2 & _ & _ & _ & _ & _ & _ & _ & _ & Hfeat).
  - reflexivity.
  - vm_compute. reflexivity.
  - reflexivity.
  - constructor.
  - reflexivity.
  - reflexivity.
  - reflexivity.
  - reflexivity.
  - reflexivity.
  - reflexivity.
  - reflexivity.
  - reflexivity.
  - reflexivity.
  - apply numbering_clock_wf.
  - exists apps1, apps2, i, e2.
    split; [exact Hl1 | ]. split; [exact Hl2 | ]. split; [exact Hlen | ].
    split; [exact He2 | exact Hfeat].
Defined.

(** ** A byte-order mark *)

(** X22.  A stored document that starts with a UTF-8 byte-order mark reads as
    the empty catalog.  [bytes.decode('utf-8')] keeps the mark as the
    character U+FEFF, with which no JSON text starts, so [json.loads] raises
    and [load_catalog] answers [{"apps": []}], whatever follows the mark
    (also a well-formed catalog with entries). *)
Theorem load_catalog_byte_order_mark
  (w : world) (rest : pybytes) (content_type : pystr) :
  call_succeeds w →
  w_store w !! (MINIO_BUCKET, CATALOG_FILE)
  = Some (S3Object (xef :: xbb :: xbf :: rest) content_type) →
  load_catalog w = (Ret empty_catalog, after_call w).
Proof.
  intros Hok Hst.
  rewrite load_catalog_eq, (get_object_stored _ _ _ Hok Hst). cbn [fst].
  f_equal. unfold decode_utf8, utf8_decode.
  change (map Byte.to_N (xef :: xbb :: xbf :: rest))
    with (239 :: 187 :: 191 :: map Byte.to_N rest).
  change (utf8_decode_N (239 :: 187 :: 191 :: map Byte.to_N rest))
    with (cons 65279 <$> utf8_decode_N (map Byte.to_N rest)).
  destruct (utf8_decode_N (map Byte.to_N rest)) as [text | ]; [ | done].
  cbn [fmap option_fmap option_map]. unfold json_loads.
  change (skip_ws (65279 :: text)) with (65279 :: text).
  cbn [parse_value N.eqb Pos.eqb andb].
  change (scan_number (65279 :: text)) with (@PErr value). reflexivity.
Qed.

(** A catalog as an editor may save it: a byte-order mark, then the
    text. *)
Definition world_with_byte_order_mark : world :=
  World {[ (MINIO_BUCKET, CATALOG_FILE) :=
             S3Object (xef :: xbb :: xbf
                       :: default [] (utf8_encode
                                        (json_dumps 2
                                           (VDict [(k_apps,
                                                    VList [weather_entry])]))))
                      JSON_CONTENT_TYPE ]}
        [] (λ n, py "2026-01-01T00:00:00+00:00" ++ nat_str n) 0 [] [].

Lemma load_catalog_byte_order_mark_witness :
  load_catalog world_with_byte_order_mark
  = (Ret empty_catalog, after_call world_with_byte_order_mark).
Proof.
  apply (load_catalog_byte_order_mark world_with_byte_order_mark
           (default [] (utf8_encode
                          (json_dumps 2
                             (VDict [(k_apps, VList [weather_entry])]))))
           JSON_CONTENT_TYPE).
  - reflexivity.
  - vm_compute. reflexivity.
Defined.
